(** * jstool and next-issue-id: a shallow embedding and its properties

    The development follows [src/json-flat-tool/jstool.py] (flattening,
    null inference, schema reduction, row filtering, element paging and
    the view command, path parsing, navigation, the edit operations,
    copy, deep merge and its preview, JSON Schema inference, command
    suggestion) and [src/local-issue/next-issue-id.py].  Printing, file
    access and the previews that search the pretty-printed text are
    not modelled.

    Modelling conventions.
    - A Python [str] is a [string]; its characters are the 8-bit [ascii]
      characters, so the model covers documents and paths over that
      alphabet.  Digits are ['0'] .. ['9'].
    - A Python [int] is a [Z] (unbounded).
    - A Python [dict] is an association list in insertion order; Python
      guarantees distinct keys, which is the predicate [wf_json].
    - A Python [list] is a [list]; negative indices are written out.
    - A raised exception is the [Err] case of [result], with the data
      its message carries.
    - In-place mutation of the document is a functional rebuild of the
      spine from the root to the mutated container. *)

From Stdlib Require Import List String Ascii ZArith Bool Lia Arith.
From Stdlib Require Import NArith Permutation Sorted.
From Stdlib Require Import DecimalString DecimalNat DecimalN Decimal.
Import ListNotations.
Open Scope string_scope.
Open Scope list_scope.

(* ================================================================== *)
(** ** JSON values *)

(** [json.load] yields [None], [bool], [int], [float], [str], [dict] and
    [list].  A float is kept as its IEEE-754 binary64 bit pattern: no
    operation of the tool computes with it. *)
#[local] Unset Elimination Schemes.
Inductive json : Type :=
| JNull
| JBool (b : bool)
| JInt (z : Z)
| JFloat (bits : Z)
| JStr (s : string)
| JObj (items : list (string * json))
| JArr (elems : list json).
#[local] Set Elimination Schemes.

(** Induction with the hypotheses for the values nested in containers. *)
Section JsonInduction.
Variable P : json -> Prop.
Hypothesis Hnull : P JNull.
Hypothesis Hbool : forall b, P (JBool b).
Hypothesis Hint : forall z, P (JInt z).
Hypothesis Hfloat : forall f, P (JFloat f).
Hypothesis Hstr : forall s, P (JStr s).
Hypothesis Hobj :
  forall items, Forall (fun kv => P (snd kv)) items -> P (JObj items).
Hypothesis Harr : forall elems, Forall P elems -> P (JArr elems).

Fixpoint json_nested_ind (j : json) : P j :=
  match j with
  | JNull => Hnull
  | JBool b => Hbool b
  | JInt z => Hint z
  | JFloat f => Hfloat f
  | JStr s => Hstr s
  | JObj items =>
      Hobj items
        ((fix go (l : list (string * json)) :
            Forall (fun kv => P (snd kv)) l :=
            match l with
            | [] => Forall_nil _
            | kv :: l' => Forall_cons kv (json_nested_ind (snd kv)) (go l')
            end) items)
  | JArr elems =>
      Harr elems
        ((fix go (l : list json) : Forall P l :=
            match l with
            | [] => Forall_nil _
            | x :: l' => Forall_cons x (json_nested_ind x) (go l')
            end) elems)
  end.
End JsonInduction.

(* ================================================================== *)
(** ** Python dictionaries as insertion-ordered association lists *)

Module Dict.
Section Ops.
Context {V : Type}.

Definition keys (d : list (string * V)) : list string := map fst d.

(** [d.get(k)] / [d[k]] *)
Fixpoint get (k : string) (d : list (string * V)) : option V :=
  match d with
  | [] => None
  | (k', v) :: d' => if String.eqb k k' then Some v else get k d'
  end.

(** [k in d] *)
Definition mem (k : string) (d : list (string * V)) : bool :=
  match get k d with Some _ => true | None => false end.

(** [d[k] = v]: an existing key keeps its position, a new key is
    appended. *)
Fixpoint set (k : string) (v : V) (d : list (string * V))
  : list (string * V) :=
  match d with
  | [] => [(k, v)]
  | (k', v') :: d' =>
      if String.eqb k k' then (k', v) :: d' else (k', v') :: set k v d'
  end.

(** [del d[k]] *)
Fixpoint del (k : string) (d : list (string * V)) : list (string * V) :=
  match d with
  | [] => []
  | (k', v') :: d' =>
      if String.eqb k k' then d' else (k', v') :: del k d'
  end.

End Ops.
End Dict.

(** Python dictionaries have distinct keys: the documents the tool can
    hold are the well-formed ones. *)
Fixpoint distinct (keys : list string) : bool :=
  match keys with
  | [] => true
  | k :: rest => negb (existsb (String.eqb k) rest) && distinct rest
  end.

Fixpoint wf_json (j : json) : bool :=
  match j with
  | JObj items =>
      distinct (map fst items) && forallb (fun kv => wf_json (snd kv)) items
  | JArr elems => forallb wf_json elems
  | _ => true
  end.

(* ================================================================== *)
(** ** Characters, digits and decimal numerals *)

Definition is_digit (c : ascii) : bool :=
  (48 <=? nat_of_ascii c)%nat && (nat_of_ascii c <=? 57)%nat.

(** [str.isdigit()]: non-empty and digits only. *)
Fixpoint all_digits (s : string) : bool :=
  match s with
  | EmptyString => true
  | String c s' => is_digit c && all_digits s'
  end.

Definition isdigit (s : string) : bool :=
  match s with
  | EmptyString => false
  | _ => all_digits s
  end.

(** [int(s)] on a string of digits. *)
Definition int_of_digits (s : string) : Z :=
  match NilEmpty.uint_of_string s with
  | Some d => Z.of_N (N.of_uint d)
  | None => 0%Z
  end.

(** [str(i)] for the non-negative index of [enumerate]. *)
Definition str_of_nat (n : nat) : string :=
  NilEmpty.string_of_uint (Nat.to_uint n).

(** [str(z)] for a non-negative integer. *)
Definition str_of_Z (z : Z) : string :=
  NilEmpty.string_of_uint (N.to_uint (Z.to_N z)).

(** [s[n:]] *)
Fixpoint string_drop (n : nat) (s : string) : string :=
  match n, s with
  | O, _ => s
  | S n', String _ s' => string_drop n' s'
  | S _, EmptyString => EmptyString
  end.

(** The characters [str.strip()] removes, among the 8-bit ones. *)
Definition is_space (c : ascii) : bool :=
  let n := nat_of_ascii c in
  ((9 <=? n) && (n <=? 13) || (28 <=? n) && (n <=? 32)
   || (n =? 133) || (n =? 160))%nat.

Fixpoint lstrip (s : string) : string :=
  match s with
  | EmptyString => EmptyString
  | String c s' => if is_space c then lstrip s' else s
  end.

Fixpoint rstrip (s : string) : string :=
  match s with
  | EmptyString => EmptyString
  | String c s' =>
      match rstrip s' with
      | EmptyString => if is_space c then EmptyString else String c EmptyString
      | r => String c r
      end
  end.

Definition strip (s : string) : string := rstrip (lstrip s).

(* ================================================================== *)
(** ** Type names ([get_type_name], jstool.py 48-56) *)

Definition get_type_name (data : json) : string :=
  match data with
  | JNull => "null"
  | JBool _ => "boolean"
  | JInt _ => "integer"
  | JFloat _ => "number"
  | JStr _ => "string"
  | JObj _ => "object"
  | JArr _ => "array"
  end.

(** [type(node).__name__] *)
Definition py_type_name (node : json) : string :=
  match node with
  | JNull => "NoneType"
  | JBool _ => "bool"
  | JInt _ => "int"
  | JFloat _ => "float"
  | JStr _ => "str"
  | JObj _ => "dict"
  | JArr _ => "list"
  end.

(* ================================================================== *)
(** ** Flatten ([flatten], jstool.py 67-86) *)

(** A row is the Python tuple [(path, type_name, value_marker)].  The
    third component is a Python value: [None] ([JNull]) for a container
    with children and for a JSON null, the string ["(empty)"] for an
    empty container, the primitive itself otherwise. *)
Definition row : Type := string * string * json.

Definition row_path (r : row) : string := fst (fst r).
Definition row_type (r : row) : string := snd (fst r).
Definition row_value (r : row) : json := snd r.

Definition marker_empty : json := JStr "(empty)".
Definition marker_null : json := JStr "(null)".

(** [f"{path}.{k}"] and [f"{path}[{i}]"] *)
Definition dotted (path k : string) : string := (path ++ "." ++ k)%string.
Definition bracketed (path : string) (i : nat) : string :=
  (path ++ "[" ++ str_of_nat i ++ "]")%string.

Fixpoint flatten (data : json) (path : string) (root_level : bool)
  : list row :=
  match data with
  | JObj items =>
      (path, "object", match items with [] => marker_empty | _ => JNull end)
      :: (fix children (l : list (string * json)) : list row :=
            match l with
            | [] => []
            | (k, v) :: l' =>
                flatten v (if root_level then k else dotted path k) false
                  ++ children l'
            end) items
  | JArr elems =>
      (path, "array", match elems with [] => marker_empty | _ => JNull end)
      :: (fix children (i : nat) (l : list json) : list row :=
            match l with
            | [] => []
            | v :: l' =>
                flatten v (bracketed path i) false ++ children (S i) l'
            end) 0%nat elems
  | _ => [(path, get_type_name data, data)]
  end.

(** The two [for] loops of [flatten], named for the proofs. *)
Fixpoint flatten_items (path : string) (root_level : bool)
  (l : list (string * json)) : list row :=
  match l with
  | [] => []
  | (k, v) :: l' =>
      flatten v (if root_level then k else dotted path k) false
        ++ flatten_items path root_level l'
  end.

Fixpoint flatten_elems (path : string) (i : nat) (l : list json)
  : list row :=
  match l with
  | [] => []
  | v :: l' => flatten v (bracketed path i) false ++ flatten_elems path (S i) l'
  end.

(* ================================================================== *)
(** ** Structural signature ([sig], jstool.py 90-93) *)

(** After an opening bracket: [\d+\]].  Returns what follows the closing
    bracket when the digits and the bracket are there. *)
Fixpoint match_index_tail (seen_digit : bool) (s : string) : option string :=
  match s with
  | EmptyString => None
  | String c s' =>
      if is_digit c then match_index_tail true s'
      else if Ascii.eqb c "]" && seen_digit then Some s'
      else None
  end.

(** [_IDX.sub('[*]', path)]: the leftmost non-overlapping matches of
    [\[\d+\]] are replaced, every other character is copied. *)
Fixpoint sig_from (fuel : nat) (s : string) : string :=
  match fuel with
  | O => s
  | S fuel' =>
      match s with
      | EmptyString => EmptyString
      | String c s' =>
          match (if Ascii.eqb c "[" then match_index_tail false s'
                 else None) with
          | Some rest => ("[*]" ++ sig_from fuel' rest)%string
          | None => String c (sig_from fuel' s')
          end
      end
  end.

Definition sig (path : string) : string :=
  sig_from (String.length path) path.

(* ================================================================== *)
(** ** Null inference ([infer_nulls], jstool.py 96-117) *)

(** [value is None] *)
Definition is_none (v : json) : bool :=
  match v with JNull => true | _ => false end.

(** [value == s] for a string literal [s] *)
Definition eq_str (v : json) (s : string) : bool :=
  match v with JStr t => String.eqb t s | _ => false end.

(** The first loop: [known] after the rows. *)
Fixpoint record_known (known : list (string * string)) (rows : list row)
  : list (string * string) :=
  match rows with
  | [] => known
  | (path, type_name, value) :: rest =>
      if is_none value || eq_str value "(empty)" then record_known known rest
      else if String.eqb type_name "null" || String.eqb type_name "object"
              || String.eqb type_name "array"
      then record_known known rest
      else
        let s := sig path in
        if Dict.mem s known then record_known known rest
        else record_known (Dict.set s type_name known) rest
  end.

(** [inferred or "unknown"] *)
Definition or_unknown (inferred : option string) : string :=
  match inferred with
  | None => "unknown"
  | Some EmptyString => "unknown"
  | Some t => t
  end.

(** The body of the second loop. *)
Definition rewrite_null (known : list (string * string)) (r : row) : row :=
  let '(path, type_name, value) := r in
  if String.eqb type_name "null" && is_none value
  then (path, or_unknown (Dict.get (sig path) known), marker_null)
  else (path, type_name, value).

Definition infer_nulls (rows : list row) : list row :=
  let known := record_known [] rows in
  map (rewrite_null known) rows.

(* ================================================================== *)
(** ** Schema reduction ([schema_rows], jstool.py 121-139) *)

(** [value in (None, "(empty)", "(null)")] *)
Definition is_kept_value (value : json) : bool :=
  is_none value || eq_str value "(empty)" || eq_str value "(null)".

Definition key_eqb (a b : string * string) : bool :=
  String.eqb (fst a) (fst b) && String.eqb (snd a) (snd b).

(** [key in seen] *)
Definition seen_mem (key : string * string) (seen : list (string * string))
  : bool :=
  existsb (key_eqb key) seen.

Fixpoint schema_loop (seen : list (string * string)) (result : list row)
  (rows : list row) : list row :=
  match rows with
  | [] => result
  | (path, type_name, value) :: rest =>
      let struct_path := sig path in
      let key := (struct_path, type_name) in
      if seen_mem key seen then schema_loop seen result rest
      else
        let value := if is_kept_value value then value else JNull in
        schema_loop (key :: seen)
          (result ++ [(struct_path, type_name, value)]) rest
  end.

Definition schema_rows (rows : list row) : list row :=
  schema_loop [] [] rows.

(** The reduction in the steps the specification names: wildcard every
    path and hide every value that is not [None], ["(empty)"] or
    ["(null)"]; then keep the first row of each (structural path, type)
    pair, in order. *)
Definition reduce_row (r : row) : row :=
  let '(path, type_name, value) := r in
  (sig path, type_name, if is_kept_value value then value else JNull).

Fixpoint first_occurrences (seen : list (string * string)) (rows : list row)
  : list row :=
  match rows with
  | [] => []
  | r :: rest =>
      let key := (row_path r, row_type r) in
      if seen_mem key seen then first_occurrences seen rest
      else r :: first_occurrences (key :: seen) rest
  end.

Definition schema_rows_spec (rows : list row) : list row :=
  first_occurrences [] (map reduce_row rows).

(* ================================================================== *)
(** ** Paths, errors and results *)

(** A segment of a parsed path: a [str] key or an [int] index. *)
Inductive segment : Type :=
| SKey (k : string)
| SIdx (i : Z).

(** The exceptions the core raises, with the data their messages carry. *)
Inductive error : Type :=
| NonIntegerIndex (text : string)
    (* ValueError: Non-integer index in path: <text> *)
| EmptyKey (path_str : string)
    (* ValueError: Empty key in path: <path_str> *)
| SubstringNotFound
    (* ValueError of [str.index]: no closing bracket *)
| ExpectedObject (k : string) (got : string)
    (* TypeError: Expected object to look up key <k>, got <got> *)
| ExpectedArray (i : Z) (got : string)
    (* TypeError: Expected array for index <i>, got <got> *)
| KeyNotFound (k : string)
    (* KeyError: Key not found: <k> *)
| IndexOutOfRange (i : Z) (len : Z)
    (* IndexError: Index <i> out of range (len=<len>) *)
| CannotDeleteRoot
| CannotInsertBeforeRoot
| CannotInsertAfterRoot
| BeforeOnlyArrays
    (* ValueError: 'before' only works on array elements *)
| AfterOnlyArrays.

Inductive result (A : Type) : Type :=
| Ok (a : A)
| Err (e : error).
Arguments Ok {A} a.
Arguments Err {A} e.

Definition bind {A B : Type} (r : result A) (f : A -> result B) : result B :=
  match r with
  | Ok a => f a
  | Err e => Err e
  end.

Notation "x <- r ;; k" := (bind r (fun x => k))
  (at level 61, r at next level, right associativity).

(* ================================================================== *)
(** ** Path parser ([parse_path], jstool.py 297-342) *)

(** [j = s.index(']', i)] with [s[i] == '[']: the text between the
    brackets and what follows the closing one. *)
Fixpoint split_at_close (s : string) : option (string * string) :=
  match s with
  | EmptyString => None
  | String c s' =>
      if Ascii.eqb c "]" then Some (EmptyString, s')
      else
        match split_at_close s' with
        | Some (idx_str, rest) => Some (String c idx_str, rest)
        | None => None
        end
  end.

(** [while j < len(s) and s[j] not in ('.', '['): j += 1]: the key
    [s[i:j]] and the rest [s[j:]]. *)
Fixpoint span_key (s : string) : string * string :=
  match s with
  | EmptyString => (EmptyString, EmptyString)
  | String c s' =>
      if Ascii.eqb c "." || Ascii.eqb c "[" then (EmptyString, s)
      else let (key, rest) := span_key s' in (String c key, rest)
  end.

(** [if i < len(s) and s[i] == '.': i += 1] *)
Definition skip_dot (s : string) : string :=
  match s with
  | String c s' => if Ascii.eqb c "." then s' else s
  | EmptyString => EmptyString
  end.

(** The [while i < len(s)] loop on the unread part of [s].  [None] is a
    loop that has not finished within [fuel] iterations. *)
Fixpoint parse_loop (fuel : nat) (path_str s : string)
  : option (result (list segment)) :=
  match fuel with
  | O => None
  | S fuel' =>
      match s with
      | EmptyString => Some (Ok [])
      | String c s' =>
          if Ascii.eqb c "[" then
            match split_at_close s' with
            | None => Some (Err SubstringNotFound)
            | Some (idx_str, rest) =>
                if isdigit idx_str then
                  match parse_loop fuel' path_str (skip_dot rest) with
                  | Some (Ok segments) =>
                      Some (Ok (SIdx (int_of_digits idx_str) :: segments))
                  | other => other
                  end
                else
                  Some (Err (NonIntegerIndex ("[" ++ idx_str ++ "]")%string))
            end
          else
            let (key, rest) := span_key s in
            match key with
            | EmptyString => Some (Err (EmptyKey path_str))
            | _ =>
                match parse_loop fuel' path_str (skip_dot rest) with
                | Some (Ok segments) => Some (Ok (SKey key :: segments))
                | other => other
                end
            end
      end
  end.

Definition parse_path (path_str : string) : option (result (list segment)) :=
  let s := strip path_str in
  if String.eqb s "root" then Some (Ok [])
  else
    let s :=
      if String.prefix "root." s then string_drop 5 s
      else if String.prefix "root[" s then string_drop 4 s
      else s in
    parse_loop (S (String.length s)) path_str s.

(* ================================================================== *)
(** ** Navigator ([navigate], jstool.py 345-370) *)

Definition Zlen {A : Type} (l : list A) : Z := Z.of_nat (List.length l).

(** The position a Python index denotes in a list of length [len]. *)
Definition norm_index (len : nat) (i : Z) : nat :=
  Z.to_nat (if (i <? 0)%Z then Z.of_nat len + i else i).

(** [l[i]] for an index in range *)
Definition list_getitem (l : list json) (i : Z) : json :=
  nth (norm_index (List.length l) i) l JNull.

(** The body of the loop: the two checks and the lookup [node[seg]]. *)
Definition navigate_step (node : json) (seg : segment) : result json :=
  match seg with
  | SKey k =>
      match node with
      | JObj d =>
          match Dict.get k d with
          | Some v => Ok v
          | None => Err (KeyNotFound k)
          end
      | _ => Err (ExpectedObject k (py_type_name node))
      end
  | SIdx i =>
      match node with
      | JArr l =>
          if ((- Zlen l <=? i) && (i <? Zlen l))%Z
          then Ok (list_getitem l i)
          else Err (IndexOutOfRange i (Zlen l))
      | _ => Err (ExpectedArray i (py_type_name node))
      end
  end.

Fixpoint navigate_loop (parent : option json) (key : option segment)
  (node : json) (segments : list segment)
  : result (option json * option segment * json) :=
  match segments with
  | [] => Ok (parent, key, node)
  | seg :: rest =>
      child <- navigate_step node seg ;;
      navigate_loop (Some node) (Some seg) child rest
  end.

Definition navigate (data : json) (segments : list segment)
  : result (option json * option segment * json) :=
  navigate_loop None None data segments.

(** The navigator without the negative-index handling: an index is
    looked up only when [0 <= i < len]. *)
Definition navigate_step_nonneg (node : json) (seg : segment) : result json :=
  match seg with
  | SKey k =>
      match node with
      | JObj d =>
          match Dict.get k d with
          | Some v => Ok v
          | None => Err (KeyNotFound k)
          end
      | _ => Err (ExpectedObject k (py_type_name node))
      end
  | SIdx i =>
      match node with
      | JArr l =>
          if (i <? Zlen l)%Z
          then Ok (nth (Z.to_nat i) l JNull)
          else Err (IndexOutOfRange i (Zlen l))
      | _ => Err (ExpectedArray i (py_type_name node))
      end
  end.

Fixpoint navigate_loop_nonneg (parent : option json) (key : option segment)
  (node : json) (segments : list segment)
  : result (option json * option segment * json) :=
  match segments with
  | [] => Ok (parent, key, node)
  | seg :: rest =>
      child <- navigate_step_nonneg node seg ;;
      navigate_loop_nonneg (Some node) (Some seg) child rest
  end.

(* ================================================================== *)
(** ** Edit operations (jstool.py 690-734) *)

(** [l[i] = v], [l.pop(i)] for an index in range, and [l.insert(i, v)],
    which clamps its index. *)
Definition list_setitem (l : list json) (i : Z) (v : json) : list json :=
  let n := norm_index (List.length l) i in
  firstn n l ++ v :: skipn (S n) l.

Definition list_pop (l : list json) (i : Z) : list json :=
  let n := norm_index (List.length l) i in
  firstn n l ++ skipn (S n) l.

Definition list_insert (l : list json) (i : Z) (v : json) : list json :=
  let len := Zlen l in
  let i := if (i <? 0)%Z then Z.max 0 (len + i) else Z.min i len in
  let n := Z.to_nat i in
  firstn n l ++ v :: skipn n l.

(** [parent[key] = v] on the container [navigate] returned. *)
Definition store_item (parent : json) (key : segment) (v : json)
  : result json :=
  match parent, key with
  | JObj d, SKey k => Ok (JObj (Dict.set k v d))
  | JArr l, SIdx i => Ok (JArr (list_setitem l i v))
  | _, SKey k => Err (ExpectedObject k (py_type_name parent))
  | _, SIdx i => Err (ExpectedArray i (py_type_name parent))
  end.

(** [parent, key, _ = navigate(data, segments)] followed by a mutation
    [op parent key] of the parent in place: the walk of [navigate], and
    on the way back each container of the spine holds the new child.
    [segments] is not empty: every caller treats the root first. *)
Fixpoint mutate_at (node : json) (segments : list segment)
  (op : json -> segment -> result json) : result json :=
  match segments with
  | [] => Ok node
  | seg :: rest =>
      child <- navigate_step node seg ;;
      match rest with
      | [] => op node seg
      | _ =>
          child' <- mutate_at child rest op ;;
          store_item node seg child'
      end
  end.

Definition apply_set (data : json) (segments : list segment) (new_val : json)
  : result json :=
  match segments with
  | [] => Ok new_val
  | _ => mutate_at data segments (fun parent key => store_item parent key new_val)
  end.

Definition del_item (parent : json) (key : segment) : result json :=
  match parent, key with
  | JObj d, SKey k => Ok (JObj (Dict.del k d))
  | JArr l, SIdx i => Ok (JArr (list_pop l i))
  | _, SKey k => Err (ExpectedObject k (py_type_name parent))
  | _, SIdx i => Err (ExpectedArray i (py_type_name parent))
  end.

Definition apply_del (data : json) (segments : list segment) : result json :=
  match segments with
  | [] => Err CannotDeleteRoot
  | _ => mutate_at data segments del_item
  end.

Definition insert_item (shift : Z) (not_array : error) (new_val : json)
  (parent : json) (key : segment) : result json :=
  match parent, key with
  | JArr l, SIdx i => Ok (JArr (list_insert l (i + shift) new_val))
  | _, _ => Err not_array
  end.

Definition apply_before (data : json) (segments : list segment)
  (new_val : json) : result json :=
  match segments with
  | [] => Err CannotInsertBeforeRoot
  | _ => mutate_at data segments (insert_item 0 BeforeOnlyArrays new_val)
  end.

Definition apply_after (data : json) (segments : list segment)
  (new_val : json) : result json :=
  match segments with
  | [] => Err CannotInsertAfterRoot
  | _ => mutate_at data segments (insert_item 1 AfterOnlyArrays new_val)
  end.

Definition apply_set_null (data : json) (segments : list segment)
  : result json :=
  apply_set data segments JNull.

(* ================================================================== *)
(** ** Deep merge ([deep_merge], [apply_merge], jstool.py 759-774) *)

Definition is_object (j : json) : bool :=
  match j with JObj _ => true | _ => false end.

(** [result = dict(base)], then the [for k, v in patch.items()] loop
    over the running [result]. *)
Fixpoint deep_merge (base patch : json) {struct patch} : json :=
  match base, patch with
  | JObj b, JObj p =>
      JObj
        ((fix loop (result : list (string * json))
                   (items : list (string * json)) {struct items} :=
            match items with
            | [] => result
            | (k, v) :: rest =>
                loop (Dict.set k
                        (match Dict.get k result with
                         | Some r => deep_merge r v
                         | None => v
                         end) result) rest
            end) b p)
  | _, _ => patch
  end.

(** The loop of [deep_merge], named for the proofs. *)
Fixpoint merge_loop (result items : list (string * json))
  : list (string * json) :=
  match items with
  | [] => result
  | (k, v) :: rest =>
      merge_loop (Dict.set k
                    (match Dict.get k result with
                     | Some r => deep_merge r v
                     | None => v
                     end) result) rest
  end.

Definition apply_merge (data : json) (segs : list segment) (patch : json)
  : result json :=
  match segs with
  | [] => Ok (deep_merge data patch)
  | _ =>
      mutate_at data segs
        (fun parent key =>
           node <- navigate_step parent key ;;
           store_item parent key (deep_merge node patch))
  end.

(* ================================================================== *)
(** ** Next issue id ([next_issue_id], next-issue-id.py 21-31) *)

(** What the function reads of the file system: for each of
    [issues_dir/open] and [issues_dir/closed], the names [iterdir]
    yields, or [None] when it is not a directory. *)
Record issues_dir : Type := {
  open_entries : option (list string);
  closed_entries : option (list string)
}.

(** [re.match(r"^(\d+)", name)]: the leading run of digits, when there
    is at least one. *)
Fixpoint leading_digits (s : string) : string :=
  match s with
  | String c s' =>
      if is_digit c then String c (leading_digits s') else EmptyString
  | EmptyString => EmptyString
  end.

Definition digit_prefix (name : string) : option Z :=
  match leading_digits name with
  | EmptyString => None
  | m => Some (int_of_digits m)
  end.

(** The inner [for f in d.iterdir()] loop. *)
Fixpoint scan_names (max_id : Z) (names : list string) : Z :=
  match names with
  | [] => max_id
  | name :: rest =>
      match digit_prefix name with
      | Some n => scan_names (Z.max max_id n) rest
      | None => scan_names max_id rest
      end
  end.

(** One iteration of [for subdir in ("open", "closed")]. *)
Definition scan_subdir (max_id : Z) (d : option (list string)) : Z :=
  match d with
  | None => max_id
  | Some names => scan_names max_id names
  end.

(** [f"{n:03d}"] for a non-negative [n]: zeros on the left up to three
    characters. *)
Fixpoint zero_pad (k : nat) (s : string) : string :=
  match k with
  | O => s
  | S k' => String "0" (zero_pad k' s)
  end.

Definition pad3 (n : Z) : string :=
  let s := str_of_Z n in
  zero_pad (3 - String.length s) s.

Definition next_issue_id (dir : issues_dir) : string :=
  let max_id := scan_subdir 0%Z (open_entries dir) in
  let max_id := scan_subdir max_id (closed_entries dir) in
  pad3 (max_id + 1).

(** All the names of the two subdirectories, and the digit prefixes
    found among them. *)
Definition all_names (dir : issues_dir) : list string :=
  match open_entries dir with Some l => l | None => [] end
  ++ match closed_entries dir with Some l => l | None => [] end.

Fixpoint digit_prefixes (names : list string) : list Z :=
  match names with
  | [] => []
  | name :: rest =>
      match digit_prefix name with
      | Some n => n :: digit_prefixes rest
      | None => digit_prefixes rest
      end
  end.

Definition max_prefix (prefixes : list Z) : Z := fold_right Z.max 0%Z prefixes.

(* ================================================================== *)
(** ** Notions the statements use *)

(** What [parse_path] promises of a segment: an index is not negative,
    a key is not empty. *)
Definition segment_ok (seg : segment) : Prop :=
  match seg with
  | SKey k => k <> EmptyString
  | SIdx i => (0 <= i)%Z
  end.

(** The rows the first loop of [infer_nulls] records: neither of the
    two [continue] tests fires. *)
Definition recorded (r : row) : bool :=
  negb (is_none (row_value r) || eq_str (row_value r) "(empty)")
  && negb (String.eqb (row_type r) "null" || String.eqb (row_type r) "object"
           || String.eqb (row_type r) "array").

(** The type of the first recorded row with signature [s]. *)
Fixpoint first_type (s : string) (rows : list row) : option string :=
  match rows with
  | [] => None
  | r :: rest =>
      if recorded r && String.eqb (sig (row_path r)) s
      then Some (row_type r)
      else first_type s rest
  end.

(** The row [flatten] emits for the node itself. *)
Definition row_marker (node : json) : json :=
  match node with
  | JObj [] | JArr [] => marker_empty
  | JObj _ | JArr _ => JNull
  | _ => node
  end.

(** The path [flatten] gives the child under [seg] of a container at
    [path]: what the two loops compute. *)
Definition child_path (path : string) (root_level : bool) (seg : segment)
  : string :=
  match seg with
  | SKey k => if root_level then k else dotted path k
  | SIdx i => bracketed path (Z.to_nat i)
  end.

Fixpoint path_from (path : string) (root_level : bool)
  (segments : list segment) : string :=
  match segments with
  | [] => path
  | seg :: rest => path_from (child_path path root_level seg) false rest
  end.

(** The path of the node that [segments] address from the root. *)
Definition path_of (segments : list segment) : string :=
  path_from "root" true segments.

Definition index_nonneg (seg : segment) : Prop :=
  match seg with
  | SKey _ => True
  | SIdx i => (0 <= i)%Z
  end.

(** A key that composes unambiguously: neither a dot nor an opening
    bracket in it. *)
Fixpoint plain_key (k : string) : bool :=
  match k with
  | EmptyString => true
  | String c k' =>
      negb (Ascii.eqb c "." || Ascii.eqb c "[") && plain_key k'
  end.

Fixpoint plain_keys (j : json) : bool :=
  match j with
  | JObj items =>
      forallb (fun kv => plain_key (fst kv) && plain_keys (snd kv)) items
  | JArr elems => forallb plain_keys elems
  | _ => true
  end.

(** No key of a root object is the word that names the root. *)
Definition no_root_key (data : json) : bool :=
  match data with
  | JObj items => negb (existsb (String.eqb "root") (map fst items))
  | _ => true
  end.

(** What [flatten] appends to the path of a node for the rows below it:
    nothing, or text that starts with a dot or an opening bracket. *)
Definition is_extension (e : string) : bool :=
  match e with
  | EmptyString => true
  | String c _ => Ascii.eqb c "." || Ascii.eqb c "["
  end.

Definition extends (path q : string) : Prop :=
  exists e, is_extension e = true /\ q = (path ++ e)%string.

(** Below the root level, the rows of a well-formed value with plain
    keys have distinct paths, whatever the path of the value. *)
Definition paths_unique_below (v : json) : Prop :=
  forall path,
    wf_json v = true -> plain_keys v = true ->
    NoDup (map row_path (flatten v path false)).

(* ================================================================== *)
(** ** Copy ([apply_copy], jstool.py 738-740) *)

(** [copy.deepcopy] of a value is the value: the model has no sharing. *)
Definition apply_copy (data : json) (src_segs dst_segs : list segment)
  : result json :=
  r <- navigate data src_segs ;;
  apply_set data dst_segs (snd r).

(** What [flatten] appends to the path of a container for the node
    under [segments]. *)
Fixpoint path_suffix (segments : list segment) : string :=
  match segments with
  | [] => EmptyString
  | SKey k :: rest => ("." ++ k ++ path_suffix rest)%string
  | SIdx i :: rest =>
      ("[" ++ str_of_nat (Z.to_nat i) ++ "]" ++ path_suffix rest)%string
  end.

(** A segment that survives printing by [flatten] and reading by
    [parse_path]: a non-empty key without dot or opening bracket, or a
    non-negative index. *)
Definition printable (seg : segment) : Prop :=
  match seg with
  | SKey k => plain_key k = true /\ k <> EmptyString
  | SIdx i => (0 <= i)%Z
  end.

(** The path does not start with the key root. *)
Definition first_not_root (segments : list segment) : Prop :=
  match segments with
  | SKey k :: _ => k <> "root"
  | _ => True
  end.

(* ================================================================== *)
(** ** Row filter ([filter_rows], jstool.py 142-149) *)

(** [p == prefix or p.startswith(prefix + '.') or
    p.startswith(prefix + '[')] *)
Definition filter_match (prefix p : string) : bool :=
  String.eqb p prefix
  || String.prefix (prefix ++ ".") p
  || String.prefix (prefix ++ "[") p.

Definition filter_rows (rows : list row) (prefix : string) : list row :=
  filter (fun r => filter_match prefix (row_path r)) rows.

(* ================================================================== *)
(** ** Element paging ([elem_offset_rows], [elem_limit_rows],
       jstool.py 152-221) *)

(** [s] without the literal [prefix] it starts with. *)
Fixpoint strip_prefix (prefix s : string) : option string :=
  match prefix, s with
  | EmptyString, _ => Some s
  | String a prefix', String b s' =>
      if Ascii.eqb a b then strip_prefix prefix' s' else None
  | String _ _, EmptyString => None
  end.

(** After the opening bracket: the digits up to the closing bracket,
    when only digits stand before it. *)
Fixpoint index_group (s : string) : option string :=
  match s with
  | EmptyString => None
  | String c s' =>
      if is_digit c then
        match index_group s' with
        | Some d => Some (String c d)
        | None => None
        end
      else if Ascii.eqb c "]" then Some EmptyString
      else None
  end.

(** [m = elem_re.match(path)] with
    [elem_re = '^' + re.escape(filter_path) + r'\[(\d+)\]'], and
    [int(m.group(1))] when it matches. *)
Definition elem_index (filter_path path : string) : option Z :=
  match strip_prefix (filter_path ++ "[") path with
  | Some rest =>
      match index_group rest with
      | Some (String c d) => Some (int_of_digits (String c d))
      | _ => None
      end
  | None => None
  end.

(** [groups]: a dict from element index to rows, in insertion order. *)
Fixpoint groups_get (idx : Z) (groups : list (Z * list row))
  : option (list row) :=
  match groups with
  | [] => None
  | (i, rs) :: rest => if Z.eqb idx i then Some rs else groups_get idx rest
  end.

(** [groups[idx].append(row)] *)
Fixpoint groups_append (idx : Z) (r : row) (groups : list (Z * list row))
  : list (Z * list row) :=
  match groups with
  | [] => []
  | (i, rs) :: rest =>
      if Z.eqb idx i then (i, rs ++ [r]) :: rest
      else (i, rs) :: groups_append idx r rest
  end.

(** The loop the two functions share: header rows, groups and the
    element indices in the order they first appear. *)
Fixpoint group_elements (filter_path : string) (rows : list row)
  (header_rows : list row) (groups : list (Z * list row)) (order : list Z)
  : list row * list (Z * list row) * list Z :=
  match rows with
  | [] => (header_rows, groups, order)
  | r :: rest =>
      match elem_index filter_path (row_path r) with
      | Some idx =>
          match groups_get idx groups with
          | None =>
              group_elements filter_path rest header_rows
                (groups_append idx r (groups ++ [(idx, [])]))
                (order ++ [idx])
          | Some _ =>
              group_elements filter_path rest header_rows
                (groups_append idx r groups) order
          end
      | None =>
          group_elements filter_path rest (header_rows ++ [r]) groups order
      end
  end.

(** Python slices [l[k:]] and [l[:k]] for any integer [k]. *)
Definition slice_bound (len : nat) (k : Z) : nat :=
  Z.to_nat (if (k <? 0)%Z then Z.max 0 (Z.of_nat len + k)
            else Z.min k (Z.of_nat len)).

Definition slice_from {A : Type} (l : list A) (k : Z) : list A :=
  skipn (slice_bound (List.length l) k) l.

Definition slice_to {A : Type} (l : list A) (k : Z) : list A :=
  firstn (slice_bound (List.length l) k) l.

(** [result = list(header_rows); for idx in kept:
    result.extend(groups[idx])] *)
Definition collect_groups (header_rows : list row)
  (groups : list (Z * list row)) (kept : list Z) : list row :=
  header_rows
    ++ flat_map (fun idx => match groups_get idx groups with
                            | Some rs => rs
                            | None => []
                            end) kept.

Definition elem_offset_rows (rows : list row) (filter_path : string)
  (elem_skip : Z) : list row * nat :=
  let '(header_rows, groups, order) :=
    group_elements filter_path rows [] [] [] in
  (collect_groups header_rows groups (slice_from order elem_skip),
   List.length order).

Definition elem_limit_rows (rows : list row) (filter_path : string)
  (elem_count : Z) : list row * nat :=
  let '(header_rows, groups, order) :=
    group_elements filter_path rows [] [] [] in
  (collect_groups header_rows groups (slice_to order elem_count),
   List.length order).

(** The same, said at once: the rows that are no element rows, the
    element indices in order of first appearance, and the rows of one
    element. *)
Definition header_rows_of (filter_path : string) (rows : list row)
  : list row :=
  filter (fun r => match elem_index filter_path (row_path r) with
                   | Some _ => false
                   | None => true
                   end) rows.

Definition rows_of_element (filter_path : string) (idx : Z) (rows : list row)
  : list row :=
  filter (fun r => match elem_index filter_path (row_path r) with
                   | Some i => Z.eqb idx i
                   | None => false
                   end) rows.

Fixpoint element_order (filter_path : string) (seen : list Z)
  (rows : list row) : list Z :=
  match rows with
  | [] => []
  | r :: rest =>
      match elem_index filter_path (row_path r) with
      | Some idx =>
          if existsb (Z.eqb idx) seen then element_order filter_path seen rest
          else idx :: element_order filter_path (seen ++ [idx]) rest
      | None => element_order filter_path seen rest
      end
  end.

(* ================================================================== *)
(** ** Command suggestion ([_levenshtein], [suggest_commands],
       jstool.py 925-948) *)

Definition COMMANDS : list string :=
  ["view"; "schema"; "set"; "before"; "after"; "del"; "set-null"; "copy";
   "merge"; "help"].

(** The inner loop [for j in range(1, n + 1)], on the part of [dp] not
    yet rewritten: [prev] is the old [dp[j-1]], [left] the new one. *)
Fixpoint lev_row (ai : ascii) (b : string) (prev left : nat)
  (dp_tail : list nat) : list nat :=
  match b, dp_tail with
  | String bj b', dpj :: rest =>
      let new :=
        if Ascii.eqb ai bj then prev
        else S (Nat.min (Nat.min prev dpj) left) in
      new :: lev_row ai b' dpj new rest
  | _, _ => []
  end.

(** The outer loop [for i in range(1, m + 1)] on the rest of [a]. *)
Fixpoint lev_rows (a b : string) (i : nat) (dp : list nat) : list nat :=
  match a with
  | EmptyString => dp
  | String ai a' =>
      match dp with
      | prev :: dp_tail =>
          lev_rows a' b (S i) (i :: lev_row ai b prev i dp_tail)
      | [] => []
      end
  end.

Definition _levenshtein (a b : string) : nat :=
  nth (String.length b)
    (lev_rows a b 1 (seq 0 (S (String.length b)))) 0%nat.

(** [str.lower()] on the 8-bit characters. *)
Definition lower_char (c : ascii) : ascii :=
  let n := nat_of_ascii c in
  if ((65 <=? n) && (n <=? 90) || (192 <=? n) && (n <=? 214)
      || (216 <=? n) && (n <=? 222))%nat
  then ascii_of_nat (n + 32) else c.

Fixpoint lower (s : string) : string :=
  match s with
  | EmptyString => EmptyString
  | String c s' => String (lower_char c) (lower s')
  end.

(** [close.sort(key=lambda x: x[1])]: a stable sort by distance. *)
Fixpoint insert_by_distance (x : string * nat) (l : list (string * nat))
  : list (string * nat) :=
  match l with
  | [] => [x]
  | y :: l' =>
      if (snd x <=? snd y)%nat then x :: y :: l'
      else y :: insert_by_distance x l'
  end.

Definition sort_by_distance (l : list (string * nat)) : list (string * nat) :=
  fold_right insert_by_distance [] l.

Definition suggest_commands (typo : string) : list string :=
  let scored := map (fun c => (c, _levenshtein (lower typo) c)) COMMANDS in
  let threshold := Nat.max 2 (String.length typo / 2) in
  let close := filter (fun cd => (snd cd <=? threshold)%nat) scored in
  map fst (sort_by_distance close).

(** The edit distance by its recurrence. *)
Fixpoint edit (a b : list ascii) : nat :=
  match a with
  | [] => List.length b
  | x :: a' =>
      (fix inner (b : list ascii) : nat :=
         match b with
         | [] => List.length a
         | y :: b' =>
             if Ascii.eqb x y then edit a' b'
             else S (Nat.min (Nat.min (edit a' b') (edit a' b)) (inner b'))
         end) b
  end.

(** The row of the table for the processed part [ra] of [a] (last
    character first), from the column after the processed part [rb] of
    [b] on. *)
Fixpoint row_from (ra rb : list ascii) (b : string) : list nat :=
  match b with
  | EmptyString => []
  | String bj b' => edit ra (bj :: rb) :: row_from ra (bj :: rb) b'
  end.

(* ================================================================== *)
(** ** JSON Schema inference ([_merge_schemas], [_infer],
       jstool.py 801-885) *)

Definition _SCHEMA_SAMPLE : nat := 20.

(** A schema is a [dict].  The schemas built here hold a type name
    under ["type"], a dict of schemas under ["properties"], a list of
    key names under ["required"] and a schema under ["items"]
    ([schema_ok] below, kept by both functions); the four readers
    follow the source on such dicts. *)

(** [t = s.get("type")] when [t] is truthy. *)
Definition schema_type (s : json) : option string :=
  match s with
  | JObj d =>
      match Dict.get "type" d with
      | Some (JStr t) => if String.eqb t EmptyString then None else Some t
      | _ => None
      end
  | _ => None
  end.

(** [s.get("properties", {})] *)
Definition schema_properties (s : json) : list (string * json) :=
  match s with
  | JObj d =>
      match Dict.get "properties" d with
      | Some (JObj props) => props
      | _ => []
      end
  | _ => []
  end.

Definition key_names (l : list json) : list string :=
  flat_map (fun k => match k with JStr name => [name] | _ => [] end) l.

(** [s.get("required", [])] *)
Definition schema_required (s : json) : list string :=
  match s with
  | JObj d =>
      match Dict.get "required" d with
      | Some (JArr names) => key_names names
      | _ => []
      end
  | _ => []
  end.

(** [s.get("items", {})] *)
Definition schema_items (s : json) : json :=
  match s with
  | JObj d =>
      match Dict.get "items" d with
      | Some items => items
      | None => JObj []
      end
  | _ => JObj []
  end.

(** A Python [set] of strings, kept without duplicates; the code reads
    it only through its size, membership, and [sorted]. *)
Definition set_in (t : string) (s : list string) : bool :=
  existsb (String.eqb t) s.

Definition set_add (t : string) (s : list string) : list string :=
  if set_in t s then s else s ++ [t].

(** [set(req)] *)
Definition set_of (l : list string) : list string :=
  fold_left (fun s k => set_add k s) l [].

(** [sorted] on strings: the order of the code points. *)
Fixpoint insert_sorted (k : string) (l : list string) : list string :=
  match l with
  | [] => [k]
  | k' :: l' =>
      if String.leb k k' then k :: k' :: l' else k' :: insert_sorted k l'
  end.

Definition sorted (l : list string) : list string :=
  fold_right insert_sorted [] l.

Definition str_le (a b : string) : Prop := String.leb a b = true.

(** The loop [for s in schemas: t = s.get("type"); if t: types.add(t)]. *)
Fixpoint collect_types (types : list string) (schemas : list json)
  : list string :=
  match schemas with
  | [] => types
  | s :: rest =>
      collect_types
        (match schema_type s with
         | Some t => set_add t types
         | None => types
         end) rest
  end.

(** The loop [for k, v in ...items(): if k not in all_props:
    all_props[k] = v]. *)
Fixpoint add_props (all_props items : list (string * json))
  : list (string * json) :=
  match items with
  | [] => all_props
  | (k, v) :: rest =>
      add_props
        (if Dict.mem k all_props then all_props else Dict.set k v all_props)
        rest
  end.

(** The loop over the schemas of the branch [t == "object"]. *)
Fixpoint merge_object_loop (all_props : list (string * json))
  (required_sets : list (list string)) (schemas : list json)
  : list (string * json) * list (list string) :=
  match schemas with
  | [] => (all_props, required_sets)
  | s :: rest =>
      merge_object_loop (add_props all_props (schema_properties s))
        (required_sets ++ [set_of (schema_required s)]) rest
  end.

(** [required_sets[0].intersection] of the other sets *)
Definition intersection (first : list string) (others : list (list string))
  : list string :=
  filter (fun k => forallb (set_in k) others) first.

Definition merge_object_schemas (schemas : list json) : json :=
  let '(all_props, required_sets) := merge_object_loop [] [] schemas in
  let result := [("type", JStr "object"); ("properties", JObj all_props)] in
  match required_sets with
  | [] => JObj result
  | first :: others =>
      match intersection first others with
      | [] => JObj result
      | common =>
          JObj (Dict.set "required" (JArr (map JStr (sorted common))) result)
      end
  end.

(** The last branch: several types. *)
Definition merge_type_names (types : list string) : json :=
  let non_null := filter (fun t => negb (String.eqb t "null")) types in
  match non_null with
  | [t] =>
      if set_in "null" types
      then JObj [("type", JStr t); ("nullable", JBool true)]
      else JObj [("oneOf",
                  JArr (map (fun t => JObj [("type", JStr t)]) (sorted types)))]
  | _ =>
      JObj [("oneOf",
             JArr (map (fun t => JObj [("type", JStr t)]) (sorted types)))]
  end.

(** [_merge_schemas] calls itself on the ["items"] of its arguments;
    [fuel] bounds the depth of these calls. *)
Fixpoint merge_schemas_fuel (fuel : nat) (schemas : list json)
  : option json :=
  match fuel with
  | O => None
  | S fuel' =>
      match schemas with
      | [] => Some (JObj [])
      | [s] => Some s
      | _ =>
          match collect_types [] schemas with
          | [] => Some (JObj [])
          | [t] =>
              if String.eqb t "object" then Some (merge_object_schemas schemas)
              else if String.eqb t "array" then
                match merge_schemas_fuel fuel' (map schema_items schemas) with
                | Some items =>
                    Some (JObj [("type", JStr "array"); ("items", items)])
                | None => None
                end
              else Some (JObj [("type", JStr t)])
          | types => Some (merge_type_names types)
          end
      end
  end.

(** The nesting depth of a value: every recursive call of
    [_merge_schemas] is on schemas of smaller depth. *)
Fixpoint json_depth (j : json) : nat :=
  match j with
  | JObj items =>
      (fix go (l : list (string * json)) : nat :=
         match l with
         | [] => O
         | kv :: l' => Nat.max (S (json_depth (snd kv))) (go l')
         end) items
  | JArr elems =>
      (fix go (l : list json) : nat :=
         match l with
         | [] => O
         | x :: l' => Nat.max (S (json_depth x)) (go l')
         end) elems
  | _ => O
  end.

Definition schemas_depth (schemas : list json) : nat :=
  list_max (map json_depth schemas).

(** [merge_schemas_fuel_enough] shows that the fuel given here is
    never used up. *)
Definition _merge_schemas (schemas : list json) : json :=
  match merge_schemas_fuel (S (schemas_depth schemas)) schemas with
  | Some s => s
  | None => JObj []
  end.

(** [v is not None and v != '' and v != [] and v != {}] *)
Definition is_filled (v : json) : bool :=
  match v with
  | JNull => false
  | JStr EmptyString => false
  | JArr [] => false
  | JObj [] => false
  | _ => true
  end.

Definition required_keys (items : list (string * json)) : list string :=
  sorted (map fst (filter (fun kv => is_filled (snd kv)) items)).

Fixpoint _infer (data : json) : json :=
  match data with
  | JNull => JObj [("type", JStr "null")]
  | JBool _ => JObj [("type", JStr "boolean")]
  | JInt _ => JObj [("type", JStr "integer")]
  | JFloat _ => JObj [("type", JStr "number")]
  | JStr _ => JObj [("type", JStr "string")]
  | JArr [] => JObj [("type", JStr "array"); ("items", JObj [])]
  | JArr elems =>
      let item_schemas :=
        (fix sample (n : nat) (l : list json) : list json :=
           match n, l with
           | S n', item :: l' => _infer item :: sample n' l'
           | _, _ => []
           end) _SCHEMA_SAMPLE elems in
      JObj [("type", JStr "array"); ("items", _merge_schemas item_schemas)]
  | JObj [] => JObj [("type", JStr "object"); ("properties", JObj [])]
  | JObj items =>
      let properties :=
        (fix props (l : list (string * json)) : list (string * json) :=
           match l with
           | [] => []
           | (k, v) :: l' => (k, _infer v) :: props l'
           end) items in
      let result := [("type", JStr "object"); ("properties", JObj properties)] in
      match required_keys items with
      | [] => JObj result
      | required =>
          JObj (Dict.set "required" (JArr (map JStr required)) result)
      end
  end.

(** The two comprehensions of [_infer], named. *)
Fixpoint infer_sample (n : nat) (l : list json) : list json :=
  match n, l with
  | S n', item :: l' => _infer item :: infer_sample n' l'
  | _, _ => []
  end.

Fixpoint infer_items (l : list (string * json)) : list (string * json) :=
  match l with
  | [] => []
  | (k, v) :: l' => (k, _infer v) :: infer_items l'
  end.

(** The type names of JSON Schema that [_infer] uses. *)
Definition TYPE_NAMES : list string :=
  ["null"; "boolean"; "integer"; "number"; "string"; "array"; "object"].

(** The shape of the schemas that [_infer] and [_merge_schemas] build
    and read: ["type"] holds one of the type names; ["properties"] a
    dict of such schemas; ["required"] a non-empty list of key names,
    in sorted order without duplicates, each of them a key of
    ["properties"]; ["items"] such a schema. *)
#[local] Unset Elimination Schemes.
Inductive schema_ok : json -> Prop :=
| schema_ok_dict (d : list (string * json)) :
    (forall v, Dict.get "type" d = Some v ->
       exists t, v = JStr t /\ In t TYPE_NAMES) ->
    (forall v, Dict.get "properties" d = Some v ->
       exists props,
         v = JObj props /\ forall k s, In (k, s) props -> schema_ok s) ->
    (forall v, Dict.get "required" d = Some v ->
       exists names,
         v = JArr (map JStr names) /\ names <> []
         /\ StronglySorted str_le names /\ NoDup names
         /\ forall k, In k names ->
              Dict.mem k (schema_properties (JObj d)) = true) ->
    (forall v, Dict.get "items" d = Some v -> schema_ok v) ->
    schema_ok (JObj d).
#[local] Set Elimination Schemes.

(** The first of the dicts [ds] that holds the key [k], read at [k]. *)
Fixpoint first_get (k : string) (ds : list (list (string * json)))
  : option json :=
  match ds with
  | [] => None
  | d :: rest =>
      match Dict.get k d with
      | Some v => Some v
      | None => first_get k rest
      end
  end.

(** The dict of an object schema: ["required"] is left out when no key
    is required. *)
Definition object_schema (props : list (string * json))
  (required : list string) : json :=
  JObj ([("type", JStr "object"); ("properties", JObj props)]
        ++ match required with
           | [] => []
           | _ => [("required", JArr (map JStr required))]
           end).

(** The dict [{"oneOf": [{"type": t} for t in types]}]. *)
Definition one_of_schema (types : list string) : json :=
  JObj [("oneOf", JArr (map (fun t => JObj [("type", JStr t)]) types))].

(** The fields of a schema dict given by its entries, one by one. *)
Ltac schema_fields :=
  constructor; cbn [Dict.get String.eqb Ascii.eqb Bool.eqb];
  intros ? Hfield; try discriminate Hfield; injection Hfield as <-.

(* ================================================================== *)
(** ** The view command ([cmd_view], jstool.py 241-293) *)

(** What [cmd_view] prints: the rows handed to [print_row], in order,
    and the numbers of the footer line, when there is one:
    [showing rows {shown_start}-{shown_end} of {total}] and, with
    element paging, [(elements {first}-{last} of {total_elems})]. *)
Record view_footer : Type := {
  shown_start : Z;
  shown_end : Z;
  total : nat;
  elem_footer : option (Z * Z * nat)
}.

Definition is_some {A : Type} (o : option A) : bool :=
  match o with Some _ => true | None => false end.

(** The element-level part: the rows, the numbers of the element
    footer, and the row offset, which [elem_offset] replaces when it
    is positive and there is no filter path. *)
Definition view_elements (rows : list row) (filter_path : option string)
  (offset elem_offset : Z) (elem_limit : option Z)
  : list row * option (Z * Z * nat) * Z :=
  match filter_path with
  | Some p =>
      if (0 <? elem_offset)%Z || is_some elem_limit then
        let '(rows, total_elems) :=
          if (0 <? elem_offset)%Z
          then let '(rows', n) := elem_offset_rows rows p elem_offset in
               (rows', Some n)
          else (rows, None) in
        let '(rows, total_elems) :=
          match elem_limit with
          | Some l =>
              let '(rows', te) := elem_limit_rows rows p l in
              (rows', match total_elems with Some n => n | None => te end)
          | None =>
              (rows, match total_elems with
                     | Some n => n
                     | None => snd (elem_offset_rows rows p 0)
                     end)
          end in
        let shown_elems :=
          match elem_limit with
          | Some l => l
          | None => (Z.of_nat total_elems - elem_offset)%Z
          end in
        (rows,
         Some (elem_offset, (elem_offset + shown_elems - 1)%Z, total_elems),
         offset)
      else (rows, None, offset)
  | None =>
      (rows, None, if (0 <? elem_offset)%Z then elem_offset else offset)
  end.

Definition cmd_view (data : json) (schema : bool)
  (filter_path : option string) (limit : option Z)
  (offset elem_offset : Z) (elem_limit : option Z)
  : list row * option view_footer :=
  let rows := infer_nulls (flatten data "root" true) in
  let rows := if schema then schema_rows rows else rows in
  let rows :=
    match filter_path with
    | Some p => filter_rows rows p
    | None => rows
    end in
  let '(rows, elem_footer, offset) :=
    view_elements rows filter_path offset elem_offset elem_limit in
  let total := List.length rows in
  let rows := slice_from rows offset in
  let rows :=
    match limit with
    | Some n => slice_to rows n
    | None => rows
    end in
  let pagination :=
    (0 <? offset)%Z || is_some limit || (0 <? elem_offset)%Z
    || is_some elem_limit in
  (rows,
   if pagination
   then Some {| shown_start := (offset + 1)%Z;
                shown_end := (offset + Zlen rows)%Z;
                total := total;
                elem_footer := elem_footer |}
   else None).

(** The rows before the view options are applied. *)
Definition view_source (data : json) (schema : bool)
  (filter_path : option string) : list row :=
  let rows := infer_nulls (flatten data "root" true) in
  let rows := if schema then schema_rows rows else rows in
  match filter_path with
  | Some p => filter_rows rows p
  | None => rows
  end.

(** The element indices kept by [-E] and [-L], of the indices [order]. *)
Definition element_window (order : list Z) (elem_offset : Z)
  (elem_limit : option Z) : list Z :=
  let order := if (0 <? elem_offset)%Z then slice_from order elem_offset
               else order in
  match elem_limit with
  | Some l => slice_to order l
  | None => order
  end.

(** The rows after element paging, of the rows [source] before it:
    with a filter path and [-E] or [-L], the rows that are no element
    rows followed by the rows of the kept elements, element by element;
    the source rows otherwise. *)
Definition paged_rows (source : list row) (filter_path : option string)
  (elem_offset : Z) (elem_limit : option Z) : list row :=
  match filter_path with
  | Some p =>
      if (0 <? elem_offset)%Z || is_some elem_limit then
        header_rows_of p source
          ++ flat_map (fun idx => rows_of_element p idx source)
               (element_window (element_order p [] source)
                  elem_offset elem_limit)
      else source
  | None => source
  end.

(** The row offset in force: without a filter path a positive [-E]
    replaces [-O]. *)
Definition row_offset (filter_path : option string) (offset elem_offset : Z)
  : Z :=
  match filter_path with
  | Some _ => offset
  | None => if (0 <? elem_offset)%Z then elem_offset else offset
  end.

(** The numbers of the element footer. *)
Definition element_footer (source : list row) (filter_path : option string)
  (elem_offset : Z) (elem_limit : option Z) : option (Z * Z * nat) :=
  match filter_path with
  | Some p =>
      if (0 <? elem_offset)%Z || is_some elem_limit then
        let total_elems := List.length (element_order p [] source) in
        let shown_elems :=
          match elem_limit with
          | Some l => l
          | None => (Z.of_nat total_elems - elem_offset)%Z
          end in
        Some (elem_offset, (elem_offset + shown_elems - 1)%Z, total_elems)
      else None
  | None => None
  end.

(* ================================================================== *)
(** ** Structural paths *)

(** The path of [segments] with every index replaced by the wildcard:
    what [flatten] appends for the node under [segments], and the
    whole path from the root. *)
Fixpoint wild_suffix (segments : list segment) : string :=
  match segments with
  | [] => EmptyString
  | SKey k :: rest => ("." ++ k ++ wild_suffix rest)%string
  | SIdx _ :: rest => ("[*]" ++ wild_suffix rest)%string
  end.

Definition wild_path_of (segments : list segment) : string :=
  match segments with
  | SKey k :: rest => (k ++ wild_suffix rest)%string
  | _ => ("root" ++ wild_suffix segments)%string
  end.

Definition key_plain (seg : segment) : Prop :=
  match seg with
  | SKey k => plain_key k = true
  | SIdx _ => True
  end.

(* ================================================================== *)
(** ** The preview of a merge ([preview_merge], jstool.py 777-797) *)

(** What the preview announces: the keys to add and the keys to update
    when the patch and the addressed node are both objects (an empty
    list prints no line), a replacement otherwise. *)
Inductive merge_preview : Type :=
| PreviewKeys (new_keys upd_keys : list string)
| PreviewReplace.

Definition preview_merge (data : json) (segs : list segment) (patch : json)
  : result merge_preview :=
  node <- match segs with
          | [] => Ok data
          | _ => r <- navigate data segs ;; Ok (snd r)
          end ;;
  match patch, node with
  | JObj p, JObj n =>
      Ok (PreviewKeys
            (filter (fun k => negb (Dict.mem k n)) (Dict.keys p))
            (filter (fun k => Dict.mem k n) (Dict.keys p)))
  | _, _ => Ok PreviewReplace
  end.

(* ================================================================== *)
(** * Properties *)

(* ================================================================== *)
(** ** Dictionaries *)

Section DictFacts.
Context {V : Type}.
Implicit Types (d : list (string * V)) (k : string) (v : V).

Lemma dict_get_set_same k v d : Dict.get k (Dict.set k v d) = Some v.
Proof.
  induction d as [|[k' v'] d IH]; simpl.
  - now rewrite String.eqb_refl.
  - destruct (String.eqb k k') eqn:E; simpl; rewrite E; auto.
Qed.

Lemma dict_get_set_other k k' v d :
  k <> k' -> Dict.get k' (Dict.set k v d) = Dict.get k' d.
Proof.
  intros Hne. induction d as [|[k0 v0] d IH]; simpl.
  - destruct (String.eqb k' k) eqn:E; auto.
    apply String.eqb_eq in E. congruence.
  - destruct (String.eqb k k0) eqn:E; simpl.
    + apply String.eqb_eq in E. subst k0.
      destruct (String.eqb k' k) eqn:E'; auto.
      apply String.eqb_eq in E'. congruence.
    + now rewrite IH.
Qed.

Lemma dict_get_In k v d : Dict.get k d = Some v -> In (k, v) d.
Proof.
  induction d as [|[k' v'] d IH]; simpl; [discriminate|].
  destruct (String.eqb k k') eqn:E.
  - apply String.eqb_eq in E. intros [= ->]. subst. now left.
  - intros H. right. auto.
Qed.

Lemma dict_get_None k d : Dict.get k d = None <-> ~ In k (Dict.keys d).
Proof.
  induction d as [|[k' v'] d IH]; simpl.
  - tauto.
  - destruct (String.eqb k k') eqn:E.
    + apply String.eqb_eq in E. subst. split; [discriminate|tauto].
    + apply String.eqb_neq in E. rewrite IH. split.
      * intros H [H1|H1]; [congruence|tauto].
      * tauto.
Qed.

Lemma dict_In_get k v d :
  NoDup (Dict.keys d) -> In (k, v) d -> Dict.get k d = Some v.
Proof.
  induction d as [|[k' v'] d IH]; simpl; [tauto|].
  intros Hnd [H|H].
  - injection H as -> ->. now rewrite String.eqb_refl.
  - inversion Hnd as [|? ? Hnin Hnd']; subst.
    destruct (String.eqb k k') eqn:E.
    + apply String.eqb_eq in E. subst k'.
      exfalso. apply Hnin. change (In (fst (k, v)) (map fst d)).
      now apply in_map.
    + auto.
Qed.

(** Keys after an assignment: unchanged when the key was there,
    extended at the end otherwise. *)
Lemma dict_keys_set k v d :
  Dict.keys (Dict.set k v d)
  = if Dict.mem k d then Dict.keys d else Dict.keys d ++ [k].
Proof.
  unfold Dict.mem. induction d as [|[k' v'] d IH]; simpl; auto.
  destruct (String.eqb k k') eqn:E; simpl; auto.
  rewrite IH. now destruct (Dict.get k d).
Qed.

End DictFacts.

(* ================================================================== *)
(** ** Deep merge *)

Lemma deep_merge_objects b p :
  deep_merge (JObj b) (JObj p) = JObj (merge_loop b p).
Proof. reflexivity. Qed.

Lemma deep_merge_replaces base patch :
  is_object base && is_object patch = false -> deep_merge base patch = patch.
Proof.
  destruct base, patch; simpl; intros H; try reflexivity; discriminate.
Qed.

Lemma merge_loop_get_other k result items :
  ~ In k (Dict.keys items) ->
  Dict.get k (merge_loop result items) = Dict.get k result.
Proof.
  revert result. induction items as [|[k' v'] items IH]; intros result Hnin;
    simpl in *; auto.
  rewrite IH by tauto.
  apply dict_get_set_other. intros ->. tauto.
Qed.

Lemma merge_loop_get k result items :
  NoDup (Dict.keys items) ->
  Dict.get k (merge_loop result items) =
    match Dict.get k items with
    | Some v =>
        Some (match Dict.get k result with
              | Some r => deep_merge r v
              | None => v
              end)
    | None => Dict.get k result
    end.
Proof.
  revert result. induction items as [|[k' v'] items IH]; intros result Hnd;
    simpl in *; auto.
  inversion Hnd as [|? ? Hnin Hnd']; subst.
  destruct (String.eqb k k') eqn:E.
  - apply String.eqb_eq in E. subst k'.
    rewrite merge_loop_get_other by assumption.
    apply dict_get_set_same.
  - apply String.eqb_neq in E.
    rewrite IH by assumption.
    rewrite dict_get_set_other by congruence. reflexivity.
Qed.

Lemma merge_loop_keys result items :
  NoDup (Dict.keys items) ->
  Dict.keys (merge_loop result items) =
    Dict.keys result
      ++ filter (fun k => negb (Dict.mem k result)) (Dict.keys items).
Proof.
  revert result. induction items as [|[k v] items IH]; intros result Hnd;
    simpl in *.
  - now rewrite app_nil_r.
  - inversion Hnd as [|? ? Hnin Hnd']; subst.
    rewrite IH by assumption. rewrite dict_keys_set.
    assert (Hf : forall x,
               In x (Dict.keys items) ->
               negb (Dict.mem x
                       (Dict.set k
                          (match Dict.get k result with
                           | Some r => deep_merge r v
                           | None => v
                           end) result)) = negb (Dict.mem x result)).
    { intros x Hx. unfold Dict.mem.
      rewrite dict_get_set_other; auto. intros ->. tauto. }
    rewrite (filter_ext_in _ _ _ Hf).
    destruct (Dict.mem k result); simpl; auto.
    now rewrite <- app_assoc.
Qed.

(** C1.  Deep merge follows the recursion rule.  When base or patch is
    not an object, the patch replaces the base (arrays included).  When
    both are objects (the patch, a Python dict, has distinct keys), the
    result is an object that keeps the keys of the base in their order
    followed by the new keys of the patch in theirs; a key of the patch
    present in the base holds the recursive merge of the two values, a
    key only in the patch holds the patch's value, and every other key
    of the base keeps its value.  Merging
    {"a":1,"b":{"c":2}} with {"b":{"d":3},"e":4} gives
    {"a":1,"b":{"c":2,"d":3},"e":4}. *)
Theorem deep_merge_rule (base patch : json) :
  (is_object base && is_object patch = false -> deep_merge base patch = patch)
  /\ (forall b p,
         base = JObj b -> patch = JObj p -> NoDup (Dict.keys p) ->
         exists r,
           deep_merge base patch = JObj r
           /\ Dict.keys r
              = Dict.keys b
                  ++ filter (fun k => negb (Dict.mem k b)) (Dict.keys p)
           /\ forall k,
               Dict.get k r =
                 match Dict.get k p with
                 | Some v =>
                     Some (match Dict.get k b with
                           | Some x => deep_merge x v
                           | None => v
                           end)
                 | None => Dict.get k b
                 end)
  /\ deep_merge
       (JObj [("a", JInt 1); ("b", JObj [("c", JInt 2)])])
       (JObj [("b", JObj [("d", JInt 3)]); ("e", JInt 4)])
     = JObj [("a", JInt 1); ("b", JObj [("c", JInt 2); ("d", JInt 3)]);
             ("e", JInt 4)].
Proof.
  split; [apply deep_merge_replaces|]. split; [|reflexivity].
  intros b p -> -> Hnd. exists (merge_loop b p).
  rewrite deep_merge_objects. split; [reflexivity|]. split.
  - now apply merge_loop_keys.
  - intros k. now apply merge_loop_get.
Qed.

Lemma deep_merge_rule_witness :
  exists r,
    deep_merge (JObj [("a", JInt 1); ("b", JObj [("c", JInt 2)])])
      (JObj [("b", JObj [("d", JInt 3)]); ("e", JInt 4)]) = JObj r
    /\ Dict.keys r = ["a"; "b"; "e"]
    /\ Dict.get "b" r = Some (JObj [("c", JInt 2); ("d", JInt 3)]).
Proof.
  destruct (proj1 (proj2 (deep_merge_rule
                            (JObj [("a", JInt 1); ("b", JObj [("c", JInt 2)])])
                            (JObj [("b", JObj [("d", JInt 3)]); ("e", JInt 4)])))
              _ _ eq_refl eq_refl) as (r & Hr & Hk & Hg).
  - repeat constructor; simpl; intuition discriminate.
  - exists r. split; [exact Hr|]. split; [exact Hk|]. exact (Hg "b").
Defined.

(* ================================================================== *)
(** ** Navigator *)

Lemma navigate_loop_app parent key node ps rest :
  navigate_loop parent key node (ps ++ rest) =
    match navigate_loop parent key node ps with
    | Ok (parent', key', node') => navigate_loop parent' key' node' rest
    | Err e => Err e
    end.
Proof.
  revert parent key node.
  induction ps as [|seg ps IH]; intros parent key node; simpl; auto.
  destruct (navigate_step node seg) as [child|e]; simpl; auto.
Qed.

(** A walk fails exactly where one iteration of the loop body fails, on
    the node the walk has reached by then. *)
Lemma navigate_loop_error parent key node segments e :
  navigate_loop parent key node segments = Err e <->
  exists ps seg rest parent' key' node',
    segments = ps ++ seg :: rest
    /\ navigate_loop parent key node ps = Ok (parent', key', node')
    /\ navigate_step node' seg = Err e.
Proof.
  split.
  - revert parent key node.
    induction segments as [|seg segments IH]; intros parent key node;
      simpl; [discriminate|].
    destruct (navigate_step node seg) as [child|e'] eqn:Hstep; simpl.
    + intros H. apply IH in H.
      destruct H as (ps & seg' & rest & p' & k' & n' & -> & Hnav & Herr).
      exists (seg :: ps), seg', rest, p', k', n'. simpl. rewrite Hstep.
      simpl. auto.
    + intros [= ->]. exists [], seg, segments, parent, key, node. auto.
  - intros (ps & seg & rest & p' & k' & n' & -> & Hnav & Herr).
    rewrite navigate_loop_app, Hnav. simpl. now rewrite Herr.
Qed.

Lemma navigate_step_key_error node seg k :
  navigate_step node seg = Err (KeyNotFound k) <->
  seg = SKey k /\ exists d, node = JObj d /\ Dict.get k d = None.
Proof.
  split.
  - destruct seg as [k'|i]; simpl.
    + destruct node; try discriminate.
      destruct (Dict.get k' items) eqn:G; [discriminate|].
      intros [= ->]. eauto.
    + destruct node; try discriminate.
      destruct (_ && _)%bool; discriminate.
  - intros (-> & d & -> & G). simpl. now rewrite G.
Qed.

Lemma in_range_spec (n i : Z) :
  ((- n <=? i) && (i <? n))%Z = true <-> (- n <= i < n)%Z.
Proof. rewrite andb_true_iff, Z.leb_le, Z.ltb_lt. tauto. Qed.

Lemma navigate_step_index_error node seg i n :
  navigate_step node seg = Err (IndexOutOfRange i n) <->
  seg = SIdx i
  /\ exists l, node = JArr l /\ n = Zlen l /\ ~ (- n <= i < n)%Z.
Proof.
  split.
  - destruct seg as [k'|i']; simpl.
    + destruct node; try discriminate.
      destruct (Dict.get k' items); discriminate.
    + destruct node; try discriminate.
      destruct (_ && _)%bool eqn:R; [discriminate|].
      intros [= -> <-]. split; auto. eexists; repeat split.
      rewrite <- in_range_spec. congruence.
  - intros (-> & l & -> & -> & Hout). simpl.
    destruct (_ && _)%bool eqn:R; auto.
    apply in_range_spec in R. contradiction.
Qed.

(** C3.  The navigator fails with a key-not-found error exactly when
    the walk reaches an object from which the next string segment is
    absent.  It fails with an index-out-of-range error, which carries
    the attempted index and the length, exactly when the walk reaches an
    array of length n and the next integer segment i is outside
    -n <= i < n.  On an array of length n reached by the walk, the step
    to index i succeeds exactly when -n <= i < n, and then returns the
    array as parent, i as key and the element i counts (from the end
    when i is negative). *)
Theorem navigate_failures (data : json) (segments : list segment) :
  (forall k,
      navigate data segments = Err (KeyNotFound k) <->
      exists ps rest parent key d,
        segments = ps ++ SKey k :: rest
        /\ navigate data ps = Ok (parent, key, JObj d)
        /\ Dict.get k d = None)
  /\ (forall i n,
         navigate data segments = Err (IndexOutOfRange i n) <->
         exists ps rest parent key l,
           segments = ps ++ SIdx i :: rest
           /\ navigate data ps = Ok (parent, key, JArr l)
           /\ n = Zlen l /\ ~ (- n <= i < n)%Z)
  /\ (forall parent key l i,
         navigate data segments = Ok (parent, key, JArr l) ->
         ((exists r, navigate data (segments ++ [SIdx i]) = Ok r)
          <-> (- Zlen l <= i < Zlen l)%Z)
         /\ ((- Zlen l <= i < Zlen l)%Z ->
             navigate data (segments ++ [SIdx i])
             = Ok (Some (JArr l), Some (SIdx i),
                   nth (Z.to_nat (if (i <? 0)%Z then Zlen l + i else i))
                     l JNull))
         /\ (~ (- Zlen l <= i < Zlen l)%Z ->
             navigate data (segments ++ [SIdx i])
             = Err (IndexOutOfRange i (Zlen l)))).
Proof.
  unfold navigate. split; [|split].
  - intros k. split.
    + intros H. apply navigate_loop_error in H.
      destruct H as (ps & seg & rest & p' & k' & n' & -> & Hnav & Herr).
      apply navigate_step_key_error in Herr.
      destruct Herr as (-> & d & -> & G). now exists ps, rest, p', k', d.
    + intros (ps & rest & p' & k' & d & -> & Hnav & G).
      apply navigate_loop_error.
      exists ps, (SKey k), rest, p', k', (JObj d). repeat split; auto.
      apply navigate_step_key_error. eauto.
  - intros i n. split.
    + intros H. apply navigate_loop_error in H.
      destruct H as (ps & seg & rest & p' & k' & n' & -> & Hnav & Herr).
      apply navigate_step_index_error in Herr.
      destruct Herr as (-> & l & -> & -> & Hout).
      now exists ps, rest, p', k', l.
    + intros (ps & rest & p' & k' & l & -> & Hnav & -> & Hout).
      apply navigate_loop_error.
      exists ps, (SIdx i), rest, p', k', (JArr l). repeat split; auto.
      apply navigate_step_index_error. eauto.
  - intros parent key l i H.
    rewrite navigate_loop_app, H. simpl.
    destruct (_ && _)%bool eqn:R; simpl.
    + apply in_range_spec in R.
      split; [split; [tauto | eauto]|]. split; [reflexivity | tauto].
    + assert (Hout : ~ (- Zlen l <= i < Zlen l)%Z).
      { rewrite <- in_range_spec. congruence. }
      split; [split; [intros [r Hr]; discriminate | tauto]|].
      split; [tauto | reflexivity].
Qed.

Lemma navigate_failures_witness :
  navigate (JArr [JInt 1; JInt 2; JInt 3]) [SIdx 5]
  = Err (IndexOutOfRange 5 3).
Proof.
  apply (proj2 (proj1 (proj2 (navigate_failures
                                (JArr [JInt 1; JInt 2; JInt 3]) [SIdx 5]))
                  5%Z 3%Z)).
  exists [], [], None, None, [JInt 1; JInt 2; JInt 3].
  repeat split; unfold Zlen; simpl; lia.
Defined.

(* ================================================================== *)
(** ** Edit operations *)

Lemma norm_index_lt (l : list json) (i : Z) :
  (- Zlen l <= i < Zlen l)%Z -> (norm_index (List.length l) i < List.length l)%nat.
Proof.
  unfold norm_index, Zlen. intros H.
  destruct (i <? 0)%Z eqn:E; [apply Z.ltb_lt in E | apply Z.ltb_ge in E]; lia.
Qed.

Lemma length_list_setitem l i v :
  (- Zlen l <= i < Zlen l)%Z -> List.length (list_setitem l i v) = List.length l.
Proof.
  intros H. apply norm_index_lt in H. unfold list_setitem.
  rewrite length_app, length_firstn, length_cons, length_skipn. lia.
Qed.

Lemma list_getitem_setitem l i v :
  (- Zlen l <= i < Zlen l)%Z -> list_getitem (list_setitem l i v) i = v.
Proof.
  intros H. unfold list_getitem. rewrite length_list_setitem by assumption.
  apply norm_index_lt in H. unfold list_setitem.
  rewrite app_nth2; rewrite length_firstn; [|lia].
  replace (_ - _)%nat with 0%nat by lia. reflexivity.
Qed.

Lemma length_list_pop l i :
  (- Zlen l <= i < Zlen l)%Z -> Zlen (list_pop l i) = (Zlen l - 1)%Z.
Proof.
  intros H. apply norm_index_lt in H. unfold list_pop, Zlen.
  rewrite length_app, length_firstn, length_skipn. lia.
Qed.

Lemma length_list_insert l i v : Zlen (list_insert l i v) = (Zlen l + 1)%Z.
Proof.
  unfold list_insert, Zlen.
  rewrite length_app, length_firstn, length_cons, length_skipn.
  destruct (i <? 0)%Z; lia.
Qed.

(** Storing a child where [navigate] found one succeeds, and the next
    lookup finds the stored child. *)
Lemma store_item_step node seg child v :
  navigate_step node seg = Ok child ->
  exists node',
    store_item node seg v = Ok node' /\ navigate_step node' seg = Ok v.
Proof.
  destruct seg as [k|i]; simpl; destruct node; try discriminate.
  - intros _. eexists. split; [reflexivity|]. simpl.
    now rewrite dict_get_set_same.
  - destruct (_ && _)%bool eqn:R; [|discriminate]. intros _.
    apply in_range_spec in R.
    eexists. split; [reflexivity|]. simpl.
    unfold Zlen at 1 2. rewrite length_list_setitem by assumption.
    fold (Zlen elems). apply in_range_spec in R. rewrite R.
    apply in_range_spec in R. now rewrite list_getitem_setitem.
Qed.

(** The node a walk reaches does not depend on the parent and key the
    walk starts with. *)
Lemma navigate_loop_node parent key parent0 key0 node ps p k reached :
  navigate_loop parent key node ps = Ok (p, k, reached) ->
  exists p' k', navigate_loop parent0 key0 node ps = Ok (p', k', reached).
Proof.
  destruct ps as [|s ps]; simpl.
  - intros [= <- <- <-]. eauto.
  - destruct (navigate_step node s); simpl; [eauto|discriminate].
Qed.

(** [mutate_at] is [navigate] followed by the mutation of the parent: a
    failed walk fails the same way, and otherwise the parent the walk
    returns is the container [op] receives, with the key. *)
Lemma mutate_at_navigate_error parent key node segments op e :
  segments <> [] ->
  navigate_loop parent key node segments = Err e ->
  mutate_at node segments op = Err e.
Proof.
  revert parent key node.
  induction segments as [|seg rest IH]; intros parent key node Hne;
    [contradiction|].
  simpl. destruct (navigate_step node seg) as [child|e'] eqn:Hstep; simpl;
    [|now intros [= ->]].
  destruct rest as [|seg' rest']; [discriminate|].
  intros H.
  rewrite (IH (Some node) (Some seg) child); [reflexivity|discriminate|exact H].
Qed.

Lemma mutate_at_last parent key node ps seg op p k container child :
  navigate_loop parent key node ps = Ok (p, k, container) ->
  navigate_step container seg = Ok child ->
  (forall e, op container seg = Err e ->
             mutate_at node (ps ++ [seg]) op = Err e)
  /\ (forall container', op container seg = Ok container' ->
        exists node' p' k',
          mutate_at node (ps ++ [seg]) op = Ok node'
          /\ navigate_loop parent key node' ps = Ok (p', k', container')).
Proof.
  revert parent key node.
  induction ps as [|s ps IH]; intros parent key node Hnav Hstep.
  - simpl in Hnav. injection Hnav as <- <- <-. simpl. rewrite Hstep. simpl.
    split; [auto|]. intros c' Hop. exists c', parent, key. auto.
  - simpl in Hnav.
    destruct (navigate_step node s) as [c|e0] eqn:Hs; simpl in Hnav;
      [|discriminate].
    destruct (IH _ _ _ Hnav Hstep) as [IHe IHo].
    change ((s :: ps) ++ [seg]) with (s :: (ps ++ [seg])).
    assert (Hunf : mutate_at node (s :: (ps ++ [seg])) op =
                   (child' <- mutate_at c (ps ++ [seg]) op ;;
                    store_item node s child')).
    { simpl. rewrite Hs. simpl. now destruct ps. }
    rewrite Hunf. split.
    + intros e He. now rewrite (IHe e He).
    + intros c' Hop. destruct (IHo c' Hop) as (n' & p' & k' & Hm & Hn).
      rewrite Hm. simpl.
      destruct (store_item_step node s c n' Hs) as (node' & Hst & Hget).
      destruct (navigate_loop_node _ _ (Some node') (Some s) _ _ _ _ _ Hn)
        as (p'' & k'' & Hn').
      exists node'. simpl. rewrite Hget. simpl. eauto.
Qed.

Lemma mutate_at_last_step_error parent key node ps seg op p k container e :
  navigate_loop parent key node ps = Ok (p, k, container) ->
  navigate_step container seg = Err e ->
  mutate_at node (ps ++ [seg]) op = Err e.
Proof.
  revert parent key node.
  induction ps as [|s ps IH]; intros parent key node Hnav Hstep.
  - simpl in Hnav. injection Hnav as <- <- <-. simpl. now rewrite Hstep.
  - simpl in Hnav.
    destruct (navigate_step node s) as [c|e0] eqn:Hs; simpl in Hnav;
      [|discriminate].
    change ((s :: ps) ++ [seg]) with (s :: (ps ++ [seg])).
    simpl. rewrite Hs. simpl.
    rewrite (IH _ _ _ Hnav Hstep). now destruct ps.
Qed.

Lemma apply_del_unfold data ps seg :
  apply_del data (ps ++ [seg]) = mutate_at data (ps ++ [seg]) del_item.
Proof. now destruct ps. Qed.

Lemma apply_before_unfold data ps seg v :
  apply_before data (ps ++ [seg]) v
  = mutate_at data (ps ++ [seg]) (insert_item 0 BeforeOnlyArrays v).
Proof. now destruct ps. Qed.

(** C2, as far as it fails: on the one-element array [1], deleting
    index 0 leaves the empty array, and inserting before index 0 is then
    refused with an index-out-of-range error. *)
Lemma del_then_before_last_index_fails :
  apply_del (JArr [JInt 1]) [SIdx 0] = Ok (JArr [])
  /\ apply_before (JArr []) [SIdx 0] (JInt 1) = Err (IndexOutOfRange 0 0).
Proof. split; reflexivity. Qed.

(** C2, amended.  In a document whose path ps addresses an array of
    length n, for an index i that still addresses an element once one
    element is gone, -(n-1) <= i < n-1, and every value v: apply_del at
    ps[i] succeeds, apply_before at the same path with v then succeeds,
    and the array at ps has its original length again (it is the array
    after pop(i) and insert(i, v)). *)
Theorem del_then_before_restores_length
  (data : json) (ps : list segment) (parent : option json)
  (key : option segment) (l : list json) (i : Z) (v : json) :
  navigate data ps = Ok (parent, key, JArr l) ->
  (- (Zlen l - 1) <= i < Zlen l - 1)%Z ->
  exists d1 d2 parent' key' l',
    apply_del data (ps ++ [SIdx i]) = Ok d1
    /\ apply_before d1 (ps ++ [SIdx i]) v = Ok d2
    /\ navigate d2 ps = Ok (parent', key', JArr l')
    /\ l' = list_insert (list_pop l i) i v
    /\ List.length l' = List.length l.
Proof.
  unfold navigate. intros Hnav Hi.
  assert (Hin : (- Zlen l <= i < Zlen l)%Z) by lia.
  assert (Hstep : navigate_step (JArr l) (SIdx i) = Ok (list_getitem l i)).
  { simpl. apply in_range_spec in Hin. now rewrite Hin. }
  destruct (mutate_at_last _ _ _ _ _ del_item _ _ _ _ Hnav Hstep)
    as [_ Hdel].
  destruct (Hdel (JArr (list_pop l i)) eq_refl) as (d1 & p1 & k1 & Hd1 & Hn1).
  assert (Hlen1 := length_list_pop l i Hin).
  assert (Hstep1 : navigate_step (JArr (list_pop l i)) (SIdx i)
                   = Ok (list_getitem (list_pop l i) i)).
  { simpl. rewrite Hlen1.
    assert (R : (- (Zlen l - 1) <= i < Zlen l - 1)%Z) by lia.
    apply in_range_spec in R. now rewrite R. }
  destruct (mutate_at_last _ _ _ _ _ (insert_item 0 BeforeOnlyArrays v)
              _ _ _ _ Hn1 Hstep1) as [_ Hins].
  destruct (Hins (JArr (list_insert (list_pop l i) (i + 0) v)) eq_refl)
    as (d2 & p2 & k2 & Hd2 & Hn2).
  exists d1, d2, p2, k2, (list_insert (list_pop l i) i v).
  rewrite apply_del_unfold, apply_before_unfold, Hd1, Hd2.
  rewrite Z.add_0_r in Hn2. repeat split; auto.
  assert (H := length_list_insert (list_pop l i) i v).
  unfold Zlen in *. lia.
Qed.

Lemma del_then_before_restores_length_witness :
  exists d1 d2 parent' key' l',
    apply_del (JObj [("tags", JArr [JInt 1; JInt 2; JInt 3])])
      ([SKey "tags"] ++ [SIdx 1]) = Ok d1
    /\ apply_before d1 ([SKey "tags"] ++ [SIdx 1]) (JStr "x") = Ok d2
    /\ navigate d2 [SKey "tags"] = Ok (parent', key', JArr l')
    /\ l' = list_insert (list_pop [JInt 1; JInt 2; JInt 3] 1) 1 (JStr "x")
    /\ List.length l' = List.length [JInt 1; JInt 2; JInt 3].
Proof.
  apply (del_then_before_restores_length
           (JObj [("tags", JArr [JInt 1; JInt 2; JInt 3])]) [SKey "tags"]
           (Some (JObj [("tags", JArr [JInt 1; JInt 2; JInt 3])]))
           (Some (SKey "tags")) [JInt 1; JInt 2; JInt 3] 1 (JStr "x")).
  - reflexivity.
  - unfold Zlen. simpl. lia.
Defined.

(** Where the amended bound excludes a valid index (the last one, or
    -n), the deletion succeeds and the insertion is refused. *)
Lemma del_then_before_out_of_range data ps parent key l i v :
  navigate data ps = Ok (parent, key, JArr l) ->
  (- Zlen l <= i < Zlen l)%Z ->
  ~ (- (Zlen l - 1) <= i < Zlen l - 1)%Z ->
  exists d1,
    apply_del data (ps ++ [SIdx i]) = Ok d1
    /\ apply_before d1 (ps ++ [SIdx i]) v
       = Err (IndexOutOfRange i (Zlen l - 1)).
Proof.
  unfold navigate. intros Hnav Hin Hout.
  assert (Hstep : navigate_step (JArr l) (SIdx i) = Ok (list_getitem l i)).
  { simpl. apply in_range_spec in Hin. now rewrite Hin. }
  destruct (mutate_at_last _ _ _ _ _ del_item _ _ _ _ Hnav Hstep)
    as [_ Hdel].
  destruct (Hdel (JArr (list_pop l i)) eq_refl) as (d1 & p1 & k1 & Hd1 & Hn1).
  exists d1. rewrite apply_del_unfold, apply_before_unfold.
  split; [assumption|].
  apply (mutate_at_last_step_error _ _ _ _ _ _ _ _ _ _ Hn1).
  simpl. rewrite (length_list_pop l i Hin).
  destruct (_ && _)%bool eqn:R; auto.
  apply in_range_spec in R. contradiction.
Qed.

(* ================================================================== *)
(** ** Path parser *)

Lemma split_at_close_length s idx_str rest :
  split_at_close s = Some (idx_str, rest) ->
  (String.length rest < String.length s)%nat.
Proof.
  revert idx_str rest. induction s as [|c s IH]; intros idx_str rest; simpl;
    [discriminate|].
  destruct (Ascii.eqb c "]").
  - intros [= <- <-]. lia.
  - destruct (split_at_close s) as [[i r]|]; [|discriminate].
    intros [= <- <-]. specialize (IH _ _ eq_refl). lia.
Qed.

Lemma span_key_length s key rest :
  span_key s = (key, rest) ->
  String.length s = (String.length key + String.length rest)%nat.
Proof.
  revert key rest. induction s as [|c s IH]; intros key rest; simpl.
  - now intros [= <- <-].
  - destruct (Ascii.eqb c "." || Ascii.eqb c "[").
    + now intros [= <- <-].
    + destruct (span_key s) as [k r]. intros [= <- <-]. simpl.
      now rewrite (IH _ _ eq_refl).
Qed.

Lemma skip_dot_length s : (String.length (skip_dot s) <= String.length s)%nat.
Proof.
  destruct s as [|c s]; simpl; auto. destruct (Ascii.eqb c "."); simpl; lia.
Qed.

(** The loop finishes within [fuel] iterations when [fuel] exceeds the
    length of the unread part: [parse_path] always returns or raises. *)
Lemma parse_loop_finishes fuel path_str s :
  (String.length s < fuel)%nat -> exists r, parse_loop fuel path_str s = Some r.
Proof.
  revert s. induction fuel as [|fuel IH]; intros s Hlen; [lia|].
  destruct s as [|c s]; simpl; [eauto|].
  destruct (Ascii.eqb c "[").
  - destruct (split_at_close s) as [[idx_str rest]|] eqn:Hsplit; [|eauto].
    destruct (isdigit idx_str); [|eauto].
    apply split_at_close_length in Hsplit.
    destruct (IH (skip_dot rest)) as [r Hr].
    { pose proof (skip_dot_length rest). simpl in Hlen. lia. }
    rewrite Hr. destruct r; eauto.
  - rewrite orb_false_r. destruct (Ascii.eqb c "."); [eauto|].
    destruct (span_key s) as [key rest] eqn:Hspan. simpl.
    apply span_key_length in Hspan.
    destruct (IH (skip_dot rest)) as [r Hr].
    { pose proof (skip_dot_length rest). simpl in Hlen. lia. }
    rewrite Hr. destruct r; eauto.
Qed.

Lemma parse_path_total path_str : exists r, parse_path path_str = Some r.
Proof.
  unfold parse_path. destruct (String.eqb _ "root"); [eauto|].
  apply parse_loop_finishes. lia.
Qed.

Lemma int_of_digits_nonneg s : (0 <= int_of_digits s)%Z.
Proof.
  unfold int_of_digits. destruct (NilEmpty.uint_of_string s); lia.
Qed.

Lemma parse_loop_segments fuel path_str s segments :
  parse_loop fuel path_str s = Some (Ok segments) ->
  Forall segment_ok segments.
Proof.
  revert s segments. induction fuel as [|fuel IH]; intros s segments;
    [discriminate|].
  destruct s as [|c s]; simpl.
  - intros [= <-]. constructor.
  - destruct (Ascii.eqb c "[").
    + destruct (split_at_close s) as [[idx_str rest]|]; [|discriminate].
      destruct (isdigit idx_str); [|discriminate].
      destruct (parse_loop fuel path_str (skip_dot rest)) as [[segs|e]|] eqn:Hrec;
        try discriminate.
      intros [= <-]. constructor; [apply int_of_digits_nonneg|eauto].
    + rewrite orb_false_r. destruct (Ascii.eqb c "."); [discriminate|].
      destruct (span_key s) as [key rest]. simpl.
      destruct (parse_loop fuel path_str (skip_dot rest)) as [[segs|e]|] eqn:Hrec;
        try discriminate.
      intros [= <-]. constructor; [discriminate|eauto].
Qed.

Lemma navigate_step_nonneg_eq node seg :
  segment_ok seg -> navigate_step node seg = navigate_step_nonneg node seg.
Proof.
  destruct seg as [k|i]; simpl; [reflexivity|]. intros Hi.
  destruct node; try reflexivity.
  unfold list_getitem, norm_index, Zlen.
  assert (H1 : (- Z.of_nat (List.length elems) <=? i)%Z = true)
    by (apply Z.leb_le; lia).
  assert (H2 : (i <? 0)%Z = false) by (apply Z.ltb_ge; lia).
  now rewrite H1, H2.
Qed.

Lemma navigate_loop_nonneg_eq parent key node segments :
  Forall segment_ok segments ->
  navigate_loop parent key node segments
  = navigate_loop_nonneg parent key node segments.
Proof.
  intros H. revert parent key node.
  induction H as [|seg segments Hseg _ IH]; intros parent key node; simpl;
    [reflexivity|].
  rewrite navigate_step_nonneg_eq by assumption.
  destruct (navigate_step_nonneg node seg); simpl; auto.
Qed.

(** C8.  The path parser on the three paths of the specification. *)
Theorem parse_path_examples :
  parse_path "users[0].name" = Some (Ok [SKey "users"; SIdx 0; SKey "name"])
  /\ parse_path "root" = Some (Ok [])
  /\ parse_path "root[0].key" = Some (Ok [SIdx 0; SKey "key"]).
Proof. repeat split; reflexivity. Qed.

(** C10.  When parse_path succeeds on a path string, every integer
    segment of the result is non-negative and every string segment is a
    non-empty string; so the navigator walks the result exactly as the
    navigator without negative-index handling does, on every
    document. *)
Theorem parse_path_segments_ok (path_str : string) (segments : list segment) :
  parse_path path_str = Some (Ok segments) ->
  Forall segment_ok segments
  /\ forall data,
      navigate data segments = navigate_loop_nonneg None None data segments.
Proof.
  intros H.
  assert (Hok : Forall segment_ok segments).
  { unfold parse_path in H. destruct (String.eqb _ "root").
    - injection H as <-. constructor.
    - eapply parse_loop_segments; eassumption. }
  split; [assumption|]. intros data. now apply navigate_loop_nonneg_eq.
Qed.

Lemma parse_path_segments_ok_witness :
  Forall segment_ok [SKey "users"; SIdx 0; SKey "name"]
  /\ forall data,
      navigate data [SKey "users"; SIdx 0; SKey "name"]
      = navigate_loop_nonneg None None data
          [SKey "users"; SIdx 0; SKey "name"].
Proof.
  apply (parse_path_segments_ok "users[0].name"). reflexivity.
Defined.

(* ================================================================== *)
(** ** Next issue id *)

Lemma max_prefix_nonneg prefixes : (0 <= max_prefix prefixes)%Z.
Proof. induction prefixes; simpl; lia. Qed.

Lemma max_prefix_app a b :
  max_prefix (a ++ b) = Z.max (max_prefix a) (max_prefix b).
Proof.
  induction a as [|x a IH]; simpl.
  - pose proof (max_prefix_nonneg b). lia.
  - rewrite IH. lia.
Qed.

Lemma digit_prefixes_app a b :
  digit_prefixes (a ++ b) = digit_prefixes a ++ digit_prefixes b.
Proof.
  induction a as [|x a IH]; simpl; auto.
  destruct (digit_prefix x); simpl; now rewrite IH.
Qed.

(** The running maximum of the inner loop is the maximum of the digit
    prefixes met so far. *)
Lemma scan_names_max max_id names :
  (0 <= max_id)%Z ->
  scan_names max_id names
  = Z.max max_id (max_prefix (digit_prefixes names)).
Proof.
  revert max_id. induction names as [|name names IH]; intros max_id Hm; simpl.
  - lia.
  - destruct (digit_prefix name); rewrite IH; simpl; lia.
Qed.

Lemma scan_subdir_max max_id d :
  (0 <= max_id)%Z ->
  scan_subdir max_id d
  = Z.max max_id
      (max_prefix (digit_prefixes (match d with Some l => l | None => [] end))).
Proof.
  intros Hm. destruct d as [names|]; simpl.
  - now apply scan_names_max.
  - lia.
Qed.

Lemma length_zero_pad k s :
  String.length (zero_pad k s) = (k + String.length s)%nat.
Proof. induction k; simpl; auto. Qed.

Lemma uint_of_string_zero_pad k s :
  NilEmpty.uint_of_string (zero_pad k s)
  = option_map (fun d => Nat.iter k D0 d) (NilEmpty.uint_of_string s).
Proof.
  induction k as [|k IH]; simpl.
  - now destruct (NilEmpty.uint_of_string s).
  - rewrite IH. now destruct (NilEmpty.uint_of_string s).
Qed.

Lemma N_of_uint_zeros k d : N.of_uint (Nat.iter k D0 d) = N.of_uint d.
Proof. induction k; simpl; auto. Qed.

(** Reading back what [pad3] prints gives the number. *)
Lemma int_of_digits_pad3 n : (0 <= n)%Z -> int_of_digits (pad3 n) = n.
Proof.
  intros Hn. unfold int_of_digits, pad3, str_of_Z.
  rewrite uint_of_string_zero_pad, NilEmpty.usu. simpl.
  rewrite N_of_uint_zeros, DecimalN.Unsigned.of_to. lia.
Qed.

Lemma next_issue_id_max dir :
  next_issue_id dir = pad3 (max_prefix (digit_prefixes (all_names dir)) + 1).
Proof.
  unfold next_issue_id, all_names.
  rewrite digit_prefixes_app, max_prefix_app.
  rewrite (scan_subdir_max 0 (open_entries dir)) by lia.
  rewrite scan_subdir_max.
  - pose proof (max_prefix_nonneg
                  (digit_prefixes
                     (match open_entries dir with Some l => l | None => [] end))).
    now rewrite (Z.max_r 0) by assumption.
  - pose proof (max_prefix_nonneg
                  (digit_prefixes
                     (match open_entries dir with Some l => l | None => [] end))).
    lia.
Qed.

(** C9.  With m the maximum of the leading-digit prefixes of the names
    in open/ and closed/ (0 when there is none, a missing subdirectory
    contributing no name), next_issue_id returns m + 1 in decimal,
    padded with zeros on the left to at least three characters: the
    result reads back as m + 1.  It is "001" when no name has a digit
    prefix, and "004" for 001-foo and 003-bar in open/ and 002-baz in
    closed/. *)
Theorem next_issue_id_spec (dir : issues_dir) :
  let m := max_prefix (digit_prefixes (all_names dir)) in
  let text := str_of_Z (m + 1) in
  next_issue_id dir = zero_pad (3 - String.length text) text
  /\ String.length (next_issue_id dir) = Nat.max 3 (String.length text)
  /\ int_of_digits (next_issue_id dir) = (m + 1)%Z
  /\ (digit_prefixes (all_names dir) = [] -> next_issue_id dir = "001")
  /\ next_issue_id {| open_entries := Some ["001-foo"; "003-bar"];
                      closed_entries := Some ["002-baz"] |} = "004".
Proof.
  intros m text. rewrite next_issue_id_max. fold m.
  split; [reflexivity|]. split.
  - unfold pad3. fold text. rewrite length_zero_pad. lia.
  - split; [|split].
    + apply int_of_digits_pad3. pose proof (max_prefix_nonneg
                                              (digit_prefixes (all_names dir))).
      fold m in H. lia.
    + intros Hnone. unfold m. now rewrite Hnone.
    + reflexivity.
Qed.

Lemma next_issue_id_spec_witness :
  next_issue_id {| open_entries := Some ["notes.md"; "draft-7"];
                   closed_entries := None |} = "001".
Proof.
  apply (proj1 (proj2 (proj2 (proj2
           (next_issue_id_spec
              {| open_entries := Some ["notes.md"; "draft-7"];
                 closed_entries := None |}))))).
  reflexivity.
Defined.

(* ================================================================== *)
(** ** Structural signature *)

Lemma match_index_tail_length seen s rest :
  match_index_tail seen s = Some rest ->
  (String.length rest < String.length s)%nat.
Proof.
  revert seen. induction s as [|c s IH]; intros seen; simpl; [discriminate|].
  destruct (is_digit c).
  - intros H. apply IH in H. lia.
  - destruct (Ascii.eqb c "]" && seen); [|discriminate].
    intros [= <-]. lia.
Qed.

(** The substitution never runs out of fuel: any two budgets that cover
    the length of the text give the same result. *)
Lemma sig_from_enough fuel fuel' s :
  (String.length s <= fuel)%nat -> (String.length s <= fuel')%nat ->
  sig_from fuel s = sig_from fuel' s.
Proof.
  revert fuel' s. induction fuel as [|fuel IH]; intros fuel' s H H'.
  - destruct s; [|simpl in H; lia]. now destruct fuel'.
  - destruct s as [|c s]; [now destruct fuel'|].
    destruct fuel' as [|fuel']; [simpl in H'; lia|].
    simpl in *.
    destruct (if Ascii.eqb c "[" then match_index_tail false s else None)
      as [rest|] eqn:M.
    + destruct (Ascii.eqb c "["); [|discriminate].
      apply match_index_tail_length in M.
      now rewrite (IH fuel' rest) by lia.
    + now rewrite (IH fuel' s) by lia.
Qed.

(** The substitution, one step at a time: an index in brackets becomes
    the wildcard, any other character is copied. *)
Lemma sig_unfold c s :
  sig (String c s) =
    match (if Ascii.eqb c "[" then match_index_tail false s else None) with
    | Some rest => ("[*]" ++ sig rest)%string
    | None => String c (sig s)
    end.
Proof.
  unfold sig. simpl.
  destruct (if Ascii.eqb c "[" then match_index_tail false s else None)
    as [rest|] eqn:M; [|reflexivity].
  destruct (Ascii.eqb c "["); [|discriminate].
  apply match_index_tail_length in M.
  now rewrite (sig_from_enough (String.length s) (String.length rest) rest)
    by lia.
Qed.

(* ================================================================== *)
(** ** Null inference *)

Lemma record_known_get s known rows :
  Dict.get s (record_known known rows) =
    match Dict.get s known with
    | Some t => Some t
    | None => first_type s rows
    end.
Proof.
  revert known. induction rows as [|[[path type_name] value] rows IH];
    intros known; simpl.
  - now destruct (Dict.get s known).
  - unfold recorded, row_value, row_type, row_path. simpl.
    destruct (is_none value || eq_str value "(empty)"); simpl;
      [apply IH|].
    destruct (String.eqb type_name "null" || String.eqb type_name "object"
              || String.eqb type_name "array"); simpl; [apply IH|].
    unfold Dict.mem.
    destruct (Dict.get (sig path) known) as [t|] eqn:G.
    + rewrite IH.
      destruct (String.eqb (sig path) s) eqn:E; auto.
      apply String.eqb_eq in E. subst s. now rewrite G.
    + rewrite IH.
      destruct (String.eqb (sig path) s) eqn:E.
      * apply String.eqb_eq in E. subst s.
        now rewrite dict_get_set_same, G.
      * apply String.eqb_neq in E.
        now rewrite dict_get_set_other by assumption.
Qed.

(** What [infer_nulls] does, row by row: a literal-null row takes the
    type of the first recorded row of its signature, ["unknown"] when
    there is none, and the null marker; every other row is unchanged;
    the order and the number of rows are those of the input. *)
Lemma infer_nulls_rows rows :
  infer_nulls rows =
    map (fun r =>
           if String.eqb (row_type r) "null" && is_none (row_value r)
           then (row_path r,
                 or_unknown (first_type (sig (row_path r)) rows),
                 marker_null)
           else r) rows.
Proof.
  unfold infer_nulls. apply map_ext. intros [[path type_name] value].
  unfold rewrite_null, row_type, row_value, row_path. simpl.
  now rewrite record_known_get.
Qed.

(** The scenario of the specification: the signature a[*].x is typed
    string at the first element and integer at a later one, and the
    null at a[*].x is inferred as string. *)
Lemma infer_nulls_first_type_wins :
  infer_nulls
    (flatten
       (JObj [("a", JArr [JObj [("x", JStr "s")]; JObj [("x", JInt 5)];
                          JObj [("x", JNull)]])]) "root" true)
  = [("root", "object", JNull); ("a", "array", JNull);
     ("a[0]", "object", JNull); ("a[0].x", "string", JStr "s");
     ("a[1]", "object", JNull); ("a[1].x", "integer", JInt 5);
     ("a[2]", "object", JNull); ("a[2].x", "string", marker_null)].
Proof. reflexivity. Qed.

(** C7, where the code departs from it.  In the document
    {"a":[{"x":"(empty)"},{"x":5},{"x":null}]} the signature a[*].x is
    typed string at the first element and integer at the second, both
    non-container non-null rows; the first loop skips the string row
    because its value equals the empty-container marker, and the null
    at a[2].x is inferred as integer, not as string. *)
Theorem infer_nulls_skips_empty_marker_string :
  flatten
    (JObj [("a", JArr [JObj [("x", JStr "(empty)")]; JObj [("x", JInt 5)];
                       JObj [("x", JNull)]])]) "root" true
  = [("root", "object", JNull); ("a", "array", JNull);
     ("a[0]", "object", JNull); ("a[0].x", "string", JStr "(empty)");
     ("a[1]", "object", JNull); ("a[1].x", "integer", JInt 5);
     ("a[2]", "object", JNull); ("a[2].x", "null", JNull)]
  /\ infer_nulls
       (flatten
          (JObj [("a", JArr [JObj [("x", JStr "(empty)")];
                             JObj [("x", JInt 5)];
                             JObj [("x", JNull)]])]) "root" true)
     = [("root", "object", JNull); ("a", "array", JNull);
        ("a[0]", "object", JNull); ("a[0].x", "string", JStr "(empty)");
        ("a[1]", "object", JNull); ("a[1].x", "integer", JInt 5);
        ("a[2]", "object", JNull); ("a[2].x", "integer", marker_null)].
Proof. split; reflexivity. Qed.

(* ================================================================== *)
(** ** Schema reduction *)

Lemma schema_loop_first_occurrences seen result rows :
  schema_loop seen result rows
  = result ++ first_occurrences seen (map reduce_row rows).
Proof.
  revert seen result.
  induction rows as [|[[path type_name] value] rows IH]; intros seen result;
    simpl.
  - now rewrite app_nil_r.
  - unfold row_path, row_type. simpl.
    destruct (seen_mem (sig path, type_name) seen); [apply IH|].
    rewrite IH, <- app_assoc. reflexivity.
Qed.

(** The loop of [schema_rows] computes the reduction as the
    specification words it: wildcard the paths and hide the values that
    are not [None], ["(empty)"] or ["(null)"], then keep the first row of
    each (structural path, type) pair, in order. *)
Lemma schema_rows_first_occurrences rows :
  schema_rows rows = schema_rows_spec rows.
Proof. apply schema_loop_first_occurrences. Qed.

(** The scenario of the specification: {"a":[1,2,3]} reduces to three
    rows. *)
Lemma schema_rows_array_example :
  schema_rows
    (infer_nulls (flatten (JObj [("a", JArr [JInt 1; JInt 2; JInt 3])])
                    "root" true))
  = [("root", "object", JNull); ("a", "array", JNull);
     ("a[*]", "integer", JNull)].
Proof. reflexivity. Qed.

(** C6, where the code departs from it.  In the document
    {"a":"(empty)"} the row of a is a string primitive whose value is
    the text of the empty-container marker; schema reduction does not
    suppress it: the row keeps its value. *)
Theorem schema_rows_keeps_marker_like_string :
  flatten (JObj [("a", JStr "(empty)")]) "root" true
  = [("root", "object", JNull); ("a", "string", JStr "(empty)")]
  /\ schema_rows
       (infer_nulls (flatten (JObj [("a", JStr "(empty)")]) "root" true))
     = [("root", "object", JNull); ("a", "string", JStr "(empty)")]
  /\ schema_rows
       (infer_nulls (flatten (JObj [("a", JStr "other")]) "root" true))
     = [("root", "object", JNull); ("a", "string", JNull)].
Proof. repeat split; reflexivity. Qed.

(* ================================================================== *)
(** ** Flatten: the paths of the rows *)

Lemma flatten_object path root_level items :
  flatten (JObj items) path root_level
  = (path, "object", row_marker (JObj items))
      :: flatten_items path root_level items.
Proof.
  simpl. f_equal; try (now destruct items).
  induction items as [|[k v] items IH]; simpl; [reflexivity|].
  now rewrite IH.
Qed.

Lemma flatten_array path root_level elems :
  flatten (JArr elems) path root_level
  = (path, "array", row_marker (JArr elems)) :: flatten_elems path 0 elems.
Proof.
  simpl. f_equal; try (now destruct elems).
  generalize 0%nat.
  induction elems as [|v elems IH]; intros i; simpl; [reflexivity|].
  now rewrite IH.
Qed.

(** The first row is the row of the node itself, at the given path. *)
Lemma flatten_head data path root_level :
  exists rest,
    flatten data path root_level
    = (path, get_type_name data, row_marker data) :: rest.
Proof.
  destruct data; eexists; reflexivity.
Qed.

Lemma flatten_items_incl path root_level items k v r :
  In (k, v) items ->
  In r (flatten v (child_path path root_level (SKey k)) false) ->
  In r (flatten_items path root_level items).
Proof.
  induction items as [|[k' v'] items IH]; simpl; [tauto|].
  intros [H|H] Hr; apply in_or_app.
  - injection H as -> ->. now left.
  - right. auto.
Qed.

Lemma flatten_elems_incl path i0 elems n r :
  (n < List.length elems)%nat ->
  In r (flatten (nth n elems JNull) (bracketed path (i0 + n)) false) ->
  In r (flatten_elems path i0 elems).
Proof.
  revert i0 n. induction elems as [|v elems IH]; intros i0 n; simpl; [lia|].
  intros Hn Hr. apply in_or_app. destruct n as [|n].
  - left. now rewrite Nat.add_0_r in Hr.
  - right. apply (IH (S i0) n); [lia|].
    now replace (S i0 + n)%nat with (i0 + S n)%nat by lia.
Qed.

Lemma flatten_items_inv path root_level items r :
  In r (flatten_items path root_level items) ->
  exists k v,
    In (k, v) items
    /\ In r (flatten v (child_path path root_level (SKey k)) false).
Proof.
  induction items as [|[k v] items IH]; simpl; [tauto|].
  intros H. apply in_app_or in H as [H|H].
  - exists k, v. auto.
  - destruct (IH H) as (k' & v' & Hin & Hr). exists k', v'. auto.
Qed.

Lemma flatten_elems_inv path i0 elems r :
  In r (flatten_elems path i0 elems) ->
  exists n,
    (n < List.length elems)%nat
    /\ In r (flatten (nth n elems JNull) (bracketed path (i0 + n)) false).
Proof.
  revert i0. induction elems as [|v elems IH]; intros i0; simpl; [tauto|].
  intros H. apply in_app_or in H as [H|H].
  - exists 0%nat. rewrite Nat.add_0_r. split; [lia|assumption].
  - destruct (IH _ H) as (n & Hn & Hr). exists (S n). split; [lia|].
    now replace (i0 + S n)%nat with (S i0 + n)%nat by lia.
Qed.

Lemma distinct_cons k rest :
  distinct (k :: rest) = true -> ~ In k rest /\ distinct rest = true.
Proof.
  simpl. intros H. apply andb_true_iff in H as [H1 H2]. split; [|assumption].
  intros Hin. apply negb_true_iff in H1.
  assert (E : existsb (String.eqb k) rest = true).
  { apply existsb_exists. exists k. split; [assumption|apply String.eqb_refl]. }
  congruence.
Qed.

Lemma distinct_NoDup keys : distinct keys = true -> NoDup keys.
Proof.
  induction keys as [|k keys IH]; [constructor|].
  intros H. apply distinct_cons in H as [Hnin Hd]. constructor; auto.
Qed.

(** Every node the navigator reaches has its row, at the path composed
    from the segments. *)
Lemma flatten_contains segments :
  Forall index_nonneg segments ->
  forall data path root_level parent key p k node,
    navigate_loop parent key data segments = Ok (p, k, node) ->
    In (path_from path root_level segments, get_type_name node,
        row_marker node)
       (flatten data path root_level).
Proof.
  induction 1 as [|seg segments Hseg _ IH];
    intros data path root_level parent key p k node; simpl.
  - intros [= _ _ <-].
    destruct (flatten_head data path root_level) as [rest ->]. now left.
  - destruct (navigate_step data seg) as [child|e] eqn:Hstep; simpl;
      [|discriminate].
    intros Hnav.
    specialize (IH child (child_path path root_level seg) false _ _ _ _ _ Hnav).
    destruct seg as [key'|i]; simpl in Hstep; destruct data; try discriminate.
    + destruct (Dict.get key' items) as [v|] eqn:G; [|discriminate].
      injection Hstep as ->. rewrite flatten_object. right.
      apply dict_get_In in G. eapply flatten_items_incl; eassumption.
    + destruct (_ && _)%bool eqn:R; [|discriminate].
      injection Hstep as <-. apply in_range_spec in R.
      rewrite flatten_array. right. simpl in Hseg.
      unfold list_getitem, norm_index in IH.
      assert (E : (i <? 0)%Z = false) by (apply Z.ltb_ge; lia).
      rewrite E in IH.
      apply (flatten_elems_incl path 0 elems (Z.to_nat i));
        [unfold Zlen in R; lia|exact IH].
Qed.

(** C5, as far as it fails: the child of a root-level array carries the
    root prefix. *)
Lemma flatten_root_array_child_prefixed :
  flatten (JArr [JInt 1]) "root" true
  = [("root", "array", JNull); ("root[0]", "integer", JInt 1)]
  /\ String.prefix "root" "root[0]" = true
  /\ ~ In "0" (map row_path (flatten (JArr [JInt 1]) "root" true))
  /\ ~ In "[0]" (map row_path (flatten (JArr [JInt 1]) "root" true)).
Proof.
  split; [reflexivity|]. split; [reflexivity|].
  split; simpl; intros [H|[H|[]]]; discriminate.
Qed.

(** Every row is the row of a node the navigator reaches, at the path
    composed from the segments that reach it. *)
Lemma flatten_rows_addressed v :
  forall path root_level r,
    wf_json v = true ->
    In r (flatten v path root_level) ->
    exists segments p k node,
      Forall index_nonneg segments
      /\ navigate_loop None None v segments = Ok (p, k, node)
      /\ r = (path_from path root_level segments, get_type_name node,
              row_marker node).
Proof.
  induction v as [| | | | |items IH|elems IH] using json_nested_ind;
    intros path root_level r Hwf;
    try (simpl; intros [<-|[]]; exists [], None, None; eexists;
         repeat split; constructor).
  - rewrite flatten_object. intros [<-|H].
    { exists [], None, None, (JObj items). repeat split. constructor. }
    apply flatten_items_inv in H as (k & v & Hin & Hr).
    simpl in Hwf. apply andb_true_iff in Hwf as [Hd Hwf].
    rewrite Forall_forall in IH. rewrite forallb_forall in Hwf.
    destruct (IH (k, v) Hin _ _ _ (Hwf _ Hin) Hr)
      as (segs & p' & k' & node & Hnn & Hnav & ->).
    destruct (navigate_loop_node _ _ (Some (JObj items)) (Some (SKey k))
                _ _ _ _ _ Hnav) as (p'' & k'' & Hnav').
    exists (SKey k :: segs), p'', k'', node. split; [|split].
    + constructor; [exact I|assumption].
    + simpl. rewrite (dict_In_get k v items (distinct_NoDup _ Hd) Hin).
      exact Hnav'.
    + reflexivity.
  - rewrite flatten_array. intros [<-|H].
    { exists [], None, None, (JArr elems). repeat split. constructor. }
    apply flatten_elems_inv in H as (n & Hn & Hr).
    simpl in Hwf, Hr. rewrite Forall_forall in IH.
    rewrite forallb_forall in Hwf.
    pose proof (nth_In elems JNull Hn) as Hin.
    destruct (IH _ Hin _ _ _ (Hwf _ Hin) Hr)
      as (segs & p' & k' & node & Hnn & Hnav & ->).
    destruct (navigate_loop_node _ _ (Some (JArr elems))
                (Some (SIdx (Z.of_nat n))) _ _ _ _ _ Hnav)
      as (p'' & k'' & Hnav').
    exists (SIdx (Z.of_nat n) :: segs), p'', k'', node. split; [|split].
    + constructor; [simpl; lia|assumption].
    + simpl.
      assert (R : ((- Zlen elems <=? Z.of_nat n)
                   && (Z.of_nat n <? Zlen elems))%Z = true)
        by (apply in_range_spec; unfold Zlen; lia).
      rewrite R. simpl. unfold list_getitem, norm_index.
      assert (E : (Z.of_nat n <? 0)%Z = false) by (apply Z.ltb_ge; lia).
      rewrite E, Nat2Z.id. exact Hnav'.
    + simpl. now rewrite Nat2Z.id.
Qed.

(** C5, amended.  When flattening a well-formed value from the root,
    the rows are exactly the rows of the nodes that non-negative
    segments address, each at the path composed from its segments: a
    child of a root-level object under its bare key (no leading dot, no
    root prefix), a child of a root-level array under root[i], and a
    child of a nested container under its parent's path followed by
    .key or [i]. *)
Theorem flatten_paths_composed (data : json) :
  wf_json data = true ->
  (forall r,
      In r (flatten data "root" true) <->
      exists segments parent key node,
        Forall index_nonneg segments
        /\ navigate data segments = Ok (parent, key, node)
        /\ r = (path_of segments, get_type_name node, row_marker node))
  /\ (forall k, path_of [SKey k] = k)
  /\ (forall i, path_of [SIdx (Z.of_nat i)]
                = ("root[" ++ str_of_nat i ++ "]")%string)
  /\ (forall seg rest k,
         path_of (seg :: rest ++ [SKey k])
         = (path_of (seg :: rest) ++ "." ++ k)%string)
  /\ (forall seg rest i,
         path_of (seg :: rest ++ [SIdx (Z.of_nat i)])
         = (path_of (seg :: rest) ++ "[" ++ str_of_nat i ++ "]")%string).
Proof.
  intros Hwf. split; [|split; [|split; [|split]]].
  - intros r. split.
    + intros Hr. now apply flatten_rows_addressed.
    + intros (segments & parent & key & node & Hnn & Hnav & ->).
      unfold path_of. eapply flatten_contains; eassumption.
  - reflexivity.
  - intros i. unfold path_of. simpl. unfold bracketed.
    now rewrite Nat2Z.id.
  - intros seg rest k. unfold path_of. simpl.
    generalize (child_path "root" true seg).
    induction rest as [|s rest IH]; intros p; simpl; [reflexivity|apply IH].
  - intros seg rest i. unfold path_of. simpl.
    generalize (child_path "root" true seg).
    induction rest as [|s rest IH]; intros p; simpl; [|apply IH].
    unfold bracketed. now rewrite Nat2Z.id.
Qed.

Lemma flatten_paths_composed_witness :
  In ("a[1].x", "integer", JInt 7)
     (flatten (JObj [("a", JArr [JNull; JObj [("x", JInt 7)]])]) "root" true).
Proof.
  apply (proj1 (flatten_paths_composed
                  (JObj [("a", JArr [JNull; JObj [("x", JInt 7)]])])
                  eq_refl)).
  exists [SKey "a"; SIdx 1; SKey "x"], (Some (JObj [("x", JInt 7)])),
    (Some (SKey "x")), (JInt 7).
  split; [repeat constructor; simpl; lia|]. split; reflexivity.
Defined.

(* ================================================================== *)
(** ** Flatten: uniqueness of the paths *)

Section StringFacts.
Implicit Types a b c : string.

Lemma string_app_assoc a b c : ((a ++ b) ++ c = a ++ (b ++ c))%string.
Proof. induction a as [|x a IH]; simpl; [reflexivity|now rewrite IH]. Qed.

Lemma string_app_nil_r a : (a ++ EmptyString)%string = a.
Proof. induction a as [|x a IH]; simpl; [reflexivity|now rewrite IH]. Qed.

Lemma string_app_length a b :
  String.length (a ++ b) = (String.length a + String.length b)%nat.
Proof. induction a as [|x a IH]; simpl; [reflexivity|now rewrite IH]. Qed.

Lemma string_app_inv_head a b c : (a ++ b = a ++ c)%string -> b = c.
Proof. induction a as [|x a IH]; simpl; [auto|]. intros [= H]. auto. Qed.

End StringFacts.

Lemma extends_refl path : extends path path.
Proof. exists EmptyString. now rewrite string_app_nil_r. Qed.

Lemma extends_dotted path k q : extends (dotted path k) q -> extends path q.
Proof.
  intros (e & _ & ->). exists ("." ++ k ++ e)%string. split; [reflexivity|].
  unfold dotted. now rewrite !string_app_assoc.
Qed.

Lemma extends_bracketed path i q :
  extends (bracketed path i) q -> extends path q.
Proof.
  intros (e & _ & ->). exists ("[" ++ str_of_nat i ++ "]" ++ e)%string.
  split; [reflexivity|].
  unfold bracketed. now rewrite !string_app_assoc.
Qed.

Lemma extends_longer path x rest q :
  extends (path ++ String x rest) q -> q <> path.
Proof.
  intros (e & _ & ->) H. apply (f_equal String.length) in H.
  rewrite !string_app_length in H. simpl in H. lia.
Qed.

(** Two plain keys followed by extensions give the same text only when
    they are the same key. *)
Lemma plain_key_split k k' e e' :
  plain_key k = true -> plain_key k' = true ->
  is_extension e = true -> is_extension e' = true ->
  (k ++ e = k' ++ e')%string -> k = k'.
Proof.
  revert k'. induction k as [|c k IH]; intros [|c' k'] Hk Hk' He He'; simpl.
  - reflexivity.
  - intros ->. simpl in He, Hk'.
    apply andb_true_iff in Hk' as [Hc _]. rewrite He in Hc. discriminate.
  - intros <-. simpl in He', Hk.
    apply andb_true_iff in Hk as [Hc _]. rewrite He' in Hc. discriminate.
  - intros [= -> H]. f_equal. simpl in Hk, Hk'.
    apply andb_true_iff in Hk as [_ Hk].
    apply andb_true_iff in Hk' as [_ Hk']. eauto.
Qed.

(** Two digit strings followed by a closing bracket give the same text
    only when they are the same digits. *)
Lemma digits_split a b x y :
  all_digits a = true -> all_digits b = true ->
  (a ++ String "]" x = b ++ String "]" y)%string -> a = b.
Proof.
  revert b. induction a as [|c a IH]; intros [|c' b] Ha Hb; simpl.
  - reflexivity.
  - intros [= <- _]. simpl in Hb. discriminate.
  - intros [= -> _]. simpl in Ha. discriminate.
  - intros [= -> H]. f_equal. simpl in Ha, Hb.
    apply andb_true_iff in Ha as [_ Ha].
    apply andb_true_iff in Hb as [_ Hb]. eauto.
Qed.

Lemma string_of_uint_digits d : all_digits (NilEmpty.string_of_uint d) = true.
Proof. induction d; simpl; auto. Qed.

Lemma str_of_nat_inj i j : str_of_nat i = str_of_nat j -> i = j.
Proof.
  unfold str_of_nat. intros H.
  apply (f_equal NilEmpty.uint_of_string) in H. rewrite !NilEmpty.usu in H.
  injection H as H. apply (f_equal Nat.of_uint) in H.
  now rewrite !DecimalNat.Unsigned.of_to in H.
Qed.

Lemma bracketed_disjoint path i j q :
  extends (bracketed path i) q -> extends (bracketed path j) q -> i = j.
Proof.
  intros (e & _ & ->) (e' & _ & H). unfold bracketed in H.
  rewrite !string_app_assoc in H. apply string_app_inv_head in H.
  simpl in H. injection H as H.
  apply str_of_nat_inj. unfold str_of_nat in *.
  eapply digits_split; [apply string_of_uint_digits ..|exact H].
Qed.

Lemma child_key_disjoint path root_level k k' q :
  plain_key k = true -> plain_key k' = true ->
  extends (child_path path root_level (SKey k)) q ->
  extends (child_path path root_level (SKey k')) q -> k = k'.
Proof.
  intros Hk Hk' (e & He & ->) (e' & He' & H). simpl in H.
  destruct root_level.
  - apply (plain_key_split k k' e e'); assumption.
  - unfold dotted in H. rewrite !string_app_assoc in H.
    apply string_app_inv_head in H. simpl in H. injection H as H.
    apply (plain_key_split k k' e e'); assumption.
Qed.

(** Below the root level, the path of every row of a node extends the
    path of the node. *)
Lemma flatten_rows_extend v :
  forall path r, In r (flatten v path false) -> extends path (row_path r).
Proof.
  induction v as [| | | | |items IH|elems IH] using json_nested_ind;
    intros path r;
    try (simpl; intros [<-|[]]; apply extends_refl).
  - rewrite flatten_object. intros [<-|H]; [apply extends_refl|].
    apply flatten_items_inv in H as (k & v & Hin & Hr).
    rewrite Forall_forall in IH.
    apply (extends_dotted path k). exact (IH (k, v) Hin _ _ Hr).
  - rewrite flatten_array. intros [<-|H]; [apply extends_refl|].
    apply flatten_elems_inv in H as (n & Hn & Hr).
    rewrite Forall_forall in IH.
    apply (extends_bracketed path (0 + n)).
    exact (IH _ (nth_In _ _ Hn) _ _ Hr).
Qed.

Lemma flatten_items_nodup path root_level items :
  Forall (fun kv => paths_unique_below (snd kv)) items ->
  distinct (map fst items) = true ->
  forallb (fun kv => wf_json (snd kv)) items = true ->
  forallb (fun kv => plain_key (fst kv) && plain_keys (snd kv)) items = true ->
  NoDup (map row_path (flatten_items path root_level items)).
Proof.
  induction items as [|[k v] items IH]; simpl; [constructor|].
  intros HF Hd Hwf Hpl.
  apply Forall_cons_iff in HF as [Hv HF].
  apply distinct_cons in Hd as [Hnin Hd].
  apply andb_true_iff in Hwf as [Hwfv Hwf].
  apply andb_true_iff in Hpl as [Hplv Hpl].
  apply andb_true_iff in Hplv as [Hk Hplv]. simpl in *.
  rewrite map_app. apply NoDup_app.
  - now apply Hv.
  - now apply IH.
  - intros q Hq1 Hq2.
    apply in_map_iff in Hq1 as (r1 & <- & Hr1).
    apply in_map_iff in Hq2 as (r2 & E & Hr2).
    apply flatten_items_inv in Hr2 as (k' & v' & Hin' & Hr2).
    apply flatten_rows_extend in Hr1, Hr2. rewrite E in Hr2.
    assert (Hk' : plain_key k' = true).
    { rewrite forallb_forall in Hpl. specialize (Hpl _ Hin').
      now apply andb_true_iff in Hpl as [Hk' _]. }
    assert (k = k')
      by (eapply (child_key_disjoint path root_level); eassumption).
    subst k'. apply Hnin. change (In (fst (k, v')) (map fst items)).
    now apply in_map.
Qed.

Lemma flatten_elems_nodup path i0 elems :
  Forall paths_unique_below elems ->
  forallb wf_json elems = true ->
  forallb plain_keys elems = true ->
  NoDup (map row_path (flatten_elems path i0 elems)).
Proof.
  revert i0. induction elems as [|v elems IH]; intros i0; simpl;
    [constructor|].
  intros HF Hwf Hpl.
  apply Forall_cons_iff in HF as [Hv HF].
  apply andb_true_iff in Hwf as [Hwfv Hwf].
  apply andb_true_iff in Hpl as [Hplv Hpl].
  rewrite map_app. apply NoDup_app.
  - now apply Hv.
  - now apply IH.
  - intros q Hq1 Hq2.
    apply in_map_iff in Hq1 as (r1 & <- & Hr1).
    apply in_map_iff in Hq2 as (r2 & E & Hr2).
    apply flatten_elems_inv in Hr2 as (n & Hn & Hr2).
    apply flatten_rows_extend in Hr1, Hr2. rewrite E in Hr2.
    pose proof (bracketed_disjoint _ _ _ _ Hr1 Hr2). lia.
Qed.

Lemma flatten_nested_nodup v : paths_unique_below v.
Proof.
  induction v as [| | | | |items IH|elems IH] using json_nested_ind;
    intros path Hwf Hpl;
    try (simpl; constructor; [simpl; tauto|constructor]).
  - rewrite flatten_object. simpl map. simpl in Hwf, Hpl.
    apply andb_true_iff in Hwf as [Hd Hwf]. constructor.
    + intros Hin. apply in_map_iff in Hin as (r & E & Hr).
      apply flatten_items_inv in Hr as (k & v & _ & Hr).
      apply flatten_rows_extend in Hr.
      now apply (extends_longer path "." k) in Hr.
    + now apply flatten_items_nodup.
  - rewrite flatten_array. simpl map. simpl in Hwf, Hpl. constructor.
    + intros Hin. apply in_map_iff in Hin as (r & E & Hr).
      apply flatten_elems_inv in Hr as (n & _ & Hr).
      apply flatten_rows_extend in Hr.
      now apply (extends_longer path "[" (str_of_nat (0 + n) ++ "]")) in Hr.
    + now apply flatten_elems_nodup.
Qed.

(** C4, as far as it fails: in the well-formed document
    {"a":{"b":1},"a.b":2} two rows have the path a.b, and in {"root":1}
    two rows have the path root. *)
Lemma flatten_paths_not_unique :
  wf_json (JObj [("a", JObj [("b", JInt 1)]); ("a.b", JInt 2)]) = true
  /\ map row_path
       (flatten (JObj [("a", JObj [("b", JInt 1)]); ("a.b", JInt 2)])
          "root" true)
     = ["root"; "a"; "a.b"; "a.b"]
  /\ ~ NoDup
         (map row_path
            (flatten (JObj [("a", JObj [("b", JInt 1)]); ("a.b", JInt 2)])
               "root" true))
  /\ map row_path (flatten (JObj [("root", JInt 1)]) "root" true)
     = ["root"; "root"].
Proof.
  split; [reflexivity|]. split; [reflexivity|]. split; [|reflexivity].
  intros H. simpl in H.
  apply NoDup_cons_iff in H as [_ H]. apply NoDup_cons_iff in H as [_ H].
  apply NoDup_cons_iff in H as [H _]. apply H. now left.
Qed.

(** C4, amended.  For every JSON value, the first row of a flatten pass
    from the root is the root row.  When the value is well formed, no
    object key contains a dot or an opening bracket and no key of a
    root object is the word root, every row's path is unique. *)
Theorem flatten_root_first_paths_unique (data : json) :
  (exists rest,
      flatten data "root" true
      = ("root", get_type_name data, row_marker data) :: rest)
  /\ (wf_json data = true -> plain_keys data = true ->
      no_root_key data = true ->
      NoDup (map row_path (flatten data "root" true))).
Proof.
  split; [apply flatten_head|]. intros Hwf Hpl Hroot.
  destruct data as [| | | | |items|elems];
    try exact (flatten_nested_nodup _ "root" Hwf Hpl).
  rewrite flatten_object. simpl map. simpl in Hwf, Hpl.
  unfold no_root_key in Hroot.
  apply andb_true_iff in Hwf as [Hd Hwf]. constructor.
  - intros Hin. apply in_map_iff in Hin as (r & E & Hr).
    apply flatten_items_inv in Hr as (k & v & Hin & Hr).
    apply flatten_rows_extend in Hr. destruct Hr as (e & He & Hq).
    simpl in Hq. rewrite E in Hq.
    assert (Hk : plain_key k = true).
    { rewrite forallb_forall in Hpl. specialize (Hpl _ Hin).
      now apply andb_true_iff in Hpl as [Hk _]. }
    assert (Heq : "root" = k).
    { apply (plain_key_split "root" k EmptyString e); auto. }
    subst k. apply negb_true_iff in Hroot.
    assert (X : existsb (String.eqb "root") (map fst items) = true).
    { apply existsb_exists. exists "root". split; [|reflexivity].
      change (In (fst ("root", v)) (map fst items)). now apply in_map. }
    congruence.
  - apply flatten_items_nodup; try assumption.
    apply Forall_forall. intros kv _. apply flatten_nested_nodup.
Qed.

Lemma flatten_root_first_paths_unique_witness :
  NoDup
    (map row_path
       (flatten (JObj [("a", JArr [JInt 1; JObj [("x", JNull)]]);
                       ("b", JObj [])]) "root" true)).
Proof.
  apply (flatten_root_first_paths_unique
           (JObj [("a", JArr [JInt 1; JObj [("x", JNull)]]);
                  ("b", JObj [])])); reflexivity.
Defined.

(* ================================================================== *)
(** * Further properties of the edit operations *)

(** A non-empty walk returns the container it read the node from, and
    the segment it read it at. *)
Lemma navigate_loop_last parent key node ps seg :
  navigate_loop parent key node (ps ++ [seg]) =
    match navigate_loop parent key node ps with
    | Ok (_, _, container) =>
        child <- navigate_step container seg ;;
        Ok (Some container, Some seg, child)
    | Err e => Err e
    end.
Proof.
  rewrite navigate_loop_app.
  destruct (navigate_loop parent key node ps) as [[[p k] c]|e]; simpl; auto.
Qed.

Lemma navigate_last_inv data segments parent key node :
  segments <> [] ->
  navigate data segments = Ok (parent, key, node) ->
  exists ps seg container p' k',
    segments = ps ++ [seg]
    /\ parent = Some container /\ key = Some seg
    /\ navigate data ps = Ok (p', k', container)
    /\ navigate_step container seg = Ok node.
Proof.
  intros Hne. destruct (exists_last Hne) as (ps & seg & ->).
  unfold navigate. rewrite navigate_loop_last.
  destruct (navigate_loop None None data ps) as [[[p k] c]|e] eqn:Hps;
    [|discriminate].
  destruct (navigate_step c seg) as [child|e] eqn:Hstep; simpl;
    [|discriminate].
  intros [= <- <- <-]. exists ps, seg, c, p, k. auto.
Qed.



(** [mutate_at] on a non-empty path, in terms of [navigate]. *)
Lemma mutate_at_spec node ps seg op :
  mutate_at node (ps ++ [seg]) op =
    match navigate node ps with
    | Err e => Err e
    | Ok (_, _, container) =>
        match navigate_step container seg with
        | Err e => Err e
        | Ok _ =>
            match op container seg with
            | Err e => Err e
            | Ok _ => mutate_at node (ps ++ [seg]) op
            end
        end
    end.
Proof.
  unfold navigate.
  destruct (navigate_loop None None node ps) as [[[p k] c]|e] eqn:Hps.
  - destruct (navigate_step c seg) as [child|e] eqn:Hstep.
    + destruct (op c seg) as [c'|e] eqn:Hop; [reflexivity|].
      exact (proj1 (mutate_at_last _ _ _ _ _ op _ _ _ _ Hps Hstep) e Hop).
    + eapply mutate_at_last_step_error; eassumption.
  - apply (mutate_at_navigate_error None None).
    + now destruct ps.
    + now rewrite navigate_loop_app, Hps.
Qed.

(** When the operation on the parent cannot fail where the lookup
    succeeds, the edit fails exactly as [navigate] does. *)
Lemma mutate_at_fails_as_navigate node segments op e :
  segments <> [] ->
  (forall container seg child,
      navigate_step container seg = Ok child ->
      exists c', op container seg = Ok c') ->
  (mutate_at node segments op = Err e <-> navigate node segments = Err e).
Proof.
  intros Hne Hop. destruct (exists_last Hne) as (ps & seg & ->).
  rewrite mutate_at_spec. unfold navigate at 2. rewrite navigate_loop_last.
  unfold navigate.
  destruct (navigate_loop None None node ps) as [[[p k] c]|e0] eqn:Hps;
    [|split; intros [= ->]; reflexivity].
  destruct (navigate_step c seg) as [child|e1] eqn:Hstep; simpl;
    [|split; intros [= ->]; reflexivity].
  destruct (Hop _ _ _ Hstep) as [c' Hc']. rewrite Hc'.
  destruct (proj2 (mutate_at_last _ _ _ _ _ op _ _ _ _ Hps Hstep) c' Hc')
    as (n' & p' & k' & Hm & _).
  rewrite Hm. split; discriminate.
Qed.

Lemma store_item_total container seg child v :
  navigate_step container seg = Ok child ->
  exists c', store_item container seg v = Ok c'.
Proof.
  intros H. destruct (store_item_step _ _ _ v H) as (c' & Hc & _). eauto.
Qed.

(** After [apply_set] the path reads the new value. *)
Lemma mutate_at_store_reads_back node ps seg v p k container child :
  navigate node ps = Ok (p, k, container) ->
  navigate_step container seg = Ok child ->
  exists node' container',
    mutate_at node (ps ++ [seg]) (fun c s => store_item c s v) = Ok node'
    /\ navigate node' (ps ++ [seg]) = Ok (Some container', Some seg, v).
Proof.
  unfold navigate. intros Hps Hstep.
  destruct (store_item_step _ _ _ v Hstep) as (c' & Hst & Hget).
  destruct (proj2 (mutate_at_last _ _ _ _ _ (fun c s => store_item c s v)
                     _ _ _ _ Hps Hstep) c' Hst)
    as (n' & p' & k' & Hm & Hn).
  exists n', c'. split; [assumption|].
  rewrite navigate_loop_last, Hn, Hget. reflexivity.
Qed.

Lemma apply_set_then_navigate data segments new_val parent key node :
  navigate data segments = Ok (parent, key, node) ->
  exists data' parent',
    apply_set data segments new_val = Ok data'
    /\ navigate data' segments = Ok (parent', key, new_val).
Proof.
  destruct segments as [|s0 rest].
  - intros [= <- <- <-]. exists new_val, None. auto.
  - assert (Hne : s0 :: rest <> []) by discriminate.
    change (apply_set data (s0 :: rest) new_val)
      with (mutate_at data (s0 :: rest) (fun c s => store_item c s new_val)).
    intros Hnav.
    destruct (navigate_last_inv _ _ _ _ _ Hne Hnav)
      as (ps' & seg' & c & p' & k' & E' & -> & -> & Hps & Hstep).
    rewrite E'.
    destruct (mutate_at_store_reads_back _ _ _ new_val _ _ _ _ Hps Hstep)
      as (n' & c' & Hm & Hn).
    exists n', (Some c'). auto.
Qed.

(** X2.  [apply_set] on a path that [navigate] can walk succeeds, and walking
    the result along the same path finds the new value, under the same
    key; on a path that [navigate] cannot walk, [apply_set] fails with
    the error of [navigate]. *)
Theorem apply_set_reads_back (data : json) (segments : list segment)
  (new_val : json) :
  (forall parent key node,
      navigate data segments = Ok (parent, key, node) ->
      exists data' parent',
        apply_set data segments new_val = Ok data'
        /\ navigate data' segments = Ok (parent', key, new_val))
  /\ (forall e,
         apply_set data segments new_val = Err e
         <-> navigate data segments = Err e).
Proof.
  split; [intros parent key node; apply apply_set_then_navigate|].
  destruct segments as [|s0 rest].
  - intros e. split; discriminate.
  - intros e.
    change (apply_set data (s0 :: rest) new_val)
      with (mutate_at data (s0 :: rest) (fun c s => store_item c s new_val)).
    apply mutate_at_fails_as_navigate; [discriminate|].
    intros c s child H. eapply store_item_total; eassumption.
Qed.

Lemma apply_set_reads_back_witness :
  exists data' parent',
    apply_set (JObj [("users", JArr [JObj [("name", JStr "a")]])])
      [SKey "users"; SIdx 0; SKey "name"] (JStr "b") = Ok data'
    /\ navigate data' [SKey "users"; SIdx 0; SKey "name"]
       = Ok (parent', Some (SKey "name"), JStr "b").
Proof.
  apply (proj1 (apply_set_reads_back
                  (JObj [("users", JArr [JObj [("name", JStr "a")]])])
                  [SKey "users"; SIdx 0; SKey "name"] (JStr "b"))
           (Some (JObj [("name", JStr "a")])) (Some (SKey "name")) (JStr "a")).
  reflexivity.
Defined.

Lemma dict_set_same {V : Type} (k : string) (v : V) (d : list (string * V)) :
  Dict.get k d = Some v -> Dict.set k v d = d.
Proof.
  induction d as [|[k' v'] d IH]; simpl; [discriminate|].
  destruct (String.eqb k k') eqn:E.
  - now intros [= ->].
  - intros H. now rewrite IH.
Qed.

Lemma dict_set_set {V : Type} (k : string) (v1 v2 : V) (d : list (string * V)) :
  Dict.set k v2 (Dict.set k v1 d) = Dict.set k v2 d.
Proof.
  induction d as [|[k' v'] d IH]; simpl.
  - now rewrite String.eqb_refl.
  - destruct (String.eqb k k') eqn:E; simpl; rewrite E; [reflexivity|].
    now rewrite IH.
Qed.

Lemma list_setitem_same l i :
  (- Zlen l <= i < Zlen l)%Z -> list_setitem l i (list_getitem l i) = l.
Proof.
  intros H. apply norm_index_lt in H. unfold list_setitem, list_getitem.
  set (n := norm_index (List.length l) i) in *.
  rewrite <- (firstn_skipn n l) at 4.
  f_equal. clearbody n. revert n H.
  induction l as [|x l IH]; intros [|n] H; simpl in *; try lia; auto.
  apply IH. lia.
Qed.

Lemma list_setitem_setitem l i v1 v2 :
  (- Zlen l <= i < Zlen l)%Z ->
  list_setitem (list_setitem l i v1) i v2 = list_setitem l i v2.
Proof.
  intros H. unfold list_setitem at 1 3.
  rewrite length_list_setitem by assumption.
  apply norm_index_lt in H. unfold list_setitem.
  set (n := norm_index (List.length l) i) in *. clearbody n.
  revert n H. induction l as [|x l IH]; intros [|n] H; simpl in *; try lia;
    auto.
  f_equal. apply IH. lia.
Qed.

Lemma store_item_same node seg child :
  navigate_step node seg = Ok child -> store_item node seg child = Ok node.
Proof.
  destruct seg as [k|i]; simpl; destruct node; try discriminate.
  - destruct (Dict.get k items) as [v|] eqn:G; [|discriminate].
    intros [= <-]. simpl. now rewrite dict_set_same.
  - destruct (_ && _)%bool eqn:R; [|discriminate]. intros [= <-]. simpl.
    apply in_range_spec in R. now rewrite list_setitem_same.
Qed.

Lemma store_item_store_item node seg child v1 v2 node1 :
  navigate_step node seg = Ok child ->
  store_item node seg v1 = Ok node1 ->
  store_item node1 seg v2 = store_item node seg v2.
Proof.
  destruct seg as [k|i]; simpl; destruct node; try discriminate.
  - intros _ [= <-]. simpl. now rewrite dict_set_set.
  - destruct (_ && _)%bool eqn:R; [|discriminate]. intros _ [= <-]. simpl.
    apply in_range_spec in R. now rewrite list_setitem_setitem.
Qed.

Lemma mutate_at_store_same node segments p k reached :
  navigate_loop p k node segments = Ok reached ->
  segments <> [] ->
  mutate_at node segments (fun c s => store_item c s (snd reached)) = Ok node.
Proof.
  revert p k node. induction segments as [|seg rest IH]; intros p k node;
    [contradiction|].
  simpl. destruct (navigate_step node seg) as [child|e] eqn:Hstep; simpl;
    [|discriminate].
  destruct rest as [|seg' rest'].
  - simpl. intros [= <-] _. simpl. now apply store_item_same.
  - intros Hnav _. rewrite (IH _ _ _ Hnav) by discriminate. simpl.
    now apply store_item_same.
Qed.

(** X3.  Setting a place to the value it already holds returns the document
    unchanged. *)
Theorem apply_set_current_value
  (data : json) (segments : list segment) (parent : option json)
  (key : option segment) (node : json) :
  navigate data segments = Ok (parent, key, node) ->
  apply_set data segments node = Ok data.
Proof.
  unfold navigate. destruct segments as [|s rest].
  - now intros [= _ _ <-].
  - intros H.
    exact (mutate_at_store_same _ _ _ _ _ H ltac:(discriminate)).
Qed.

Lemma apply_set_current_value_witness :
  apply_set (JObj [("a", JArr [JInt 1; JInt 2])]) [SKey "a"; SIdx (-1)]
    (JInt 2)
  = Ok (JObj [("a", JArr [JInt 1; JInt 2])]).
Proof.
  apply (apply_set_current_value
           (JObj [("a", JArr [JInt 1; JInt 2])]) [SKey "a"; SIdx (-1)]
           (Some (JArr [JInt 1; JInt 2])) (Some (SIdx (-1))) (JInt 2)).
  reflexivity.
Defined.

Lemma mutate_at_single node seg op :
  mutate_at node [seg] op = (_ <- navigate_step node seg ;; op node seg).
Proof. reflexivity. Qed.

Lemma mutate_at_deeper node seg seg' rest op :
  mutate_at node (seg :: seg' :: rest) op =
    (child <- navigate_step node seg ;;
     child' <- mutate_at child (seg' :: rest) op ;;
     store_item node seg child').
Proof. reflexivity. Qed.

Lemma mutate_at_store_twice node segments v1 v2 node1 :
  mutate_at node segments (fun c s => store_item c s v1) = Ok node1 ->
  segments <> [] ->
  mutate_at node1 segments (fun c s => store_item c s v2)
  = mutate_at node segments (fun c s => store_item c s v2).
Proof.
  revert node node1. induction segments as [|seg rest IH]; intros node node1;
    [contradiction|].
  destruct rest as [|seg' rest'].
  - rewrite !mutate_at_single.
    destruct (navigate_step node seg) as [child|e] eqn:Hstep;
      [|discriminate].
    unfold bind. intros H1 _.
    destruct (store_item_step _ _ _ v1 Hstep) as (n' & Hst & Hget).
    rewrite Hst in H1. injection H1 as <-. rewrite Hget.
    eapply store_item_store_item; eassumption.
  - rewrite !mutate_at_deeper.
    destruct (navigate_step node seg) as [child|e] eqn:Hstep;
      [|discriminate].
    unfold bind at 1 2.
    destruct (mutate_at child (seg' :: rest') (fun c s => store_item c s v1))
      as [child1|e] eqn:Hm1; [|discriminate].
    intros Hst _.
    destruct (store_item_step _ _ _ child1 Hstep) as (n' & Hst' & Hget).
    rewrite Hst in Hst'. injection Hst' as <-. rewrite Hget.
    unfold bind at 1 3. rewrite (IH _ _ Hm1) by discriminate.
    destruct (mutate_at child (seg' :: rest') (fun c s => store_item c s v2))
      as [child2|e]; [|reflexivity].
    unfold bind. eapply store_item_store_item; eassumption.
Qed.

(** X4.  Two assignments to the same place: the second one wins, as if the
    first had not happened. *)
Theorem apply_set_last_wins
  (data data1 : json) (segments : list segment) (v1 v2 : json) :
  apply_set data segments v1 = Ok data1 ->
  apply_set data1 segments v2 = apply_set data segments v2.
Proof.
  destruct segments as [|s rest]; [reflexivity|].
  intros H. exact (mutate_at_store_twice _ _ _ _ _ H ltac:(discriminate)).
Qed.

Lemma apply_set_last_wins_witness :
  apply_set (JObj [("a", JArr [JInt 9; JInt 2])]) [SKey "a"; SIdx 0] (JStr "z")
  = apply_set (JObj [("a", JArr [JInt 1; JInt 2])]) [SKey "a"; SIdx 0]
      (JStr "z").
Proof.
  apply (apply_set_last_wins (JObj [("a", JArr [JInt 1; JInt 2])])
           (JObj [("a", JArr [JInt 9; JInt 2])]) [SKey "a"; SIdx 0]
           (JInt 9) (JStr "z")).
  reflexivity.
Defined.

Section DictDelFacts.
Context {V : Type}.
Implicit Types (d : list (string * V)) (k : string).

Lemma dict_get_del_other k k' d :
  k' <> k -> Dict.get k' (Dict.del k d) = Dict.get k' d.
Proof.
  intros Hne. induction d as [|[k0 v0] d IH]; simpl; [reflexivity|].
  destruct (String.eqb k k0) eqn:E; simpl.
  - apply String.eqb_eq in E. subst k0.
    destruct (String.eqb k' k) eqn:E'; [|reflexivity].
    apply String.eqb_eq in E'. contradiction.
  - now rewrite IH.
Qed.

Lemma dict_get_del_same k d :
  NoDup (Dict.keys d) -> Dict.get k (Dict.del k d) = None.
Proof.
  induction d as [|[k0 v0] d IH]; simpl; [reflexivity|].
  intros Hnd. apply NoDup_cons_iff in Hnd as [Hnin Hnd].
  destruct (String.eqb k k0) eqn:E; simpl.
  - apply String.eqb_eq in E. subst k0. now apply dict_get_None.
  - rewrite E. auto.
Qed.

Lemma dict_keys_del k d :
  NoDup (Dict.keys d) ->
  Dict.keys (Dict.del k d)
  = filter (fun x => negb (String.eqb k x)) (Dict.keys d).
Proof.
  induction d as [|[k0 v0] d IH]; simpl; [reflexivity|].
  intros Hnd. apply NoDup_cons_iff in Hnd as [Hnin Hnd].
  destruct (String.eqb k k0) eqn:E; simpl.
  - apply String.eqb_eq in E. subst k0. symmetry.
    apply forallb_filter_id. apply forallb_forall. intros x Hx.
    apply negb_true_iff. apply String.eqb_neq. intros <-. contradiction.
  - now rewrite IH.
Qed.

End DictDelFacts.

Lemma apply_set_unfold data ps seg v :
  apply_set data (ps ++ [seg]) v
  = mutate_at data (ps ++ [seg]) (fun c s => store_item c s v).
Proof. now destruct ps. Qed.

(** X5.  Deleting a key of an object (a Python dict: distinct keys).  When
    the key is absent the deletion fails with key-not-found; otherwise
    it succeeds, the object loses exactly that key, keeps every other
    key with its value and the keys keep their order, and the deleted
    path no longer resolves. *)
Theorem apply_del_removes_key
  (data : json) (ps : list segment) (parent : option json)
  (key : option segment) (d : list (string * json)) (k : string) :
  navigate data ps = Ok (parent, key, JObj d) ->
  NoDup (Dict.keys d) ->
  (Dict.get k d = None ->
   apply_del data (ps ++ [SKey k]) = Err (KeyNotFound k))
  /\ (Dict.get k d <> None ->
      exists data' parent' key',
        apply_del data (ps ++ [SKey k]) = Ok data'
        /\ navigate data' ps = Ok (parent', key', JObj (Dict.del k d))
        /\ navigate data' (ps ++ [SKey k]) = Err (KeyNotFound k)
        /\ Dict.keys (Dict.del k d)
           = filter (fun x => negb (String.eqb k x)) (Dict.keys d)
        /\ forall k', k' <> k ->
             Dict.get k' (Dict.del k d) = Dict.get k' d).
Proof.
  unfold navigate. intros Hps Hnd. rewrite apply_del_unfold. split.
  - intros G. eapply mutate_at_last_step_error; [eassumption|].
    simpl. now rewrite G.
  - intros G. destruct (Dict.get k d) as [child|] eqn:Hget; [|contradiction].
    assert (Hstep : navigate_step (JObj d) (SKey k) = Ok child)
      by (simpl; now rewrite Hget).
    destruct (proj2 (mutate_at_last _ _ _ _ _ del_item _ _ _ _ Hps Hstep)
                (JObj (Dict.del k d)) eq_refl)
      as (data' & p' & k' & Hm & Hn).
    exists data', p', k'. split; [assumption|]. split; [assumption|].
    split; [|split].
    + rewrite navigate_loop_last, Hn. simpl.
      now rewrite dict_get_del_same.
    + now apply dict_keys_del.
    + intros k'' Hne. now apply dict_get_del_other.
Qed.

Lemma apply_del_removes_key_witness :
  exists data' parent' key',
    apply_del (JObj [("a", JInt 1); ("b", JInt 2); ("c", JInt 3)])
      ([] ++ [SKey "b"]) = Ok data'
    /\ navigate data' [] = Ok (parent', key',
                               JObj (Dict.del "b"
                                       [("a", JInt 1); ("b", JInt 2);
                                        ("c", JInt 3)]))
    /\ navigate data' ([] ++ [SKey "b"]) = Err (KeyNotFound "b")
    /\ Dict.keys (Dict.del "b" [("a", JInt 1); ("b", JInt 2); ("c", JInt 3)])
       = filter (fun x => negb (String.eqb "b" x))
           (Dict.keys [("a", JInt 1); ("b", JInt 2); ("c", JInt 3)])
    /\ forall k', k' <> "b" ->
         Dict.get k' (Dict.del "b"
                        [("a", JInt 1); ("b", JInt 2); ("c", JInt 3)])
         = Dict.get k' [("a", JInt 1); ("b", JInt 2); ("c", JInt 3)].
Proof.
  apply (proj2 (apply_del_removes_key
                  (JObj [("a", JInt 1); ("b", JInt 2); ("c", JInt 3)]) []
                  None None [("a", JInt 1); ("b", JInt 2); ("c", JInt 3)] "b"
                  eq_refl
                  ltac:(repeat constructor; simpl; intuition discriminate))).
  discriminate.
Defined.

Lemma nth_list_pop (l : list json) (n j : nat) :
  (n < List.length l)%nat ->
  nth j (firstn n l ++ skipn (S n) l) JNull
  = if (j <? n)%nat then nth j l JNull else nth (S j) l JNull.
Proof.
  revert n j. induction l as [|x l IH]; intros n j Hn; simpl in Hn; [lia|].
  destruct n as [|n].
  - reflexivity.
  - destruct j as [|j]; [reflexivity|].
    change (nth (S j) (firstn (S n) (x :: l) ++ skipn (S (S n)) (x :: l)) JNull)
      with (nth j (firstn n l ++ skipn (S n) l) JNull).
    rewrite IH by lia.
    change (S j <? S n)%nat with (j <? n)%nat. reflexivity.
Qed.

(** X6.  Deleting an element of an array at an index in range: the deletion
    succeeds, the array is one element shorter, the elements before the
    deleted position stay and the later ones move down by one. *)
Theorem apply_del_shifts_elements
  (data : json) (ps : list segment) (parent : option json)
  (key : option segment) (l : list json) (i : Z) :
  navigate data ps = Ok (parent, key, JArr l) ->
  (- Zlen l <= i < Zlen l)%Z ->
  exists data' parent' key' l',
    apply_del data (ps ++ [SIdx i]) = Ok data'
    /\ navigate data' ps = Ok (parent', key', JArr l')
    /\ S (List.length l') = List.length l
    /\ forall j,
        nth j l' JNull
        = if (j <? norm_index (List.length l) i)%nat
          then nth j l JNull else nth (S j) l JNull.
Proof.
  unfold navigate. intros Hps Hin. rewrite apply_del_unfold.
  assert (Hstep : navigate_step (JArr l) (SIdx i) = Ok (list_getitem l i)).
  { simpl. apply in_range_spec in Hin. now rewrite Hin. }
  destruct (proj2 (mutate_at_last _ _ _ _ _ del_item _ _ _ _ Hps Hstep)
              (JArr (list_pop l i)) eq_refl)
    as (data' & p' & k' & Hm & Hn).
  exists data', p', k', (list_pop l i). split; [assumption|].
  split; [assumption|]. split.
  - pose proof (length_list_pop l i Hin) as H. unfold Zlen in H. lia.
  - intros j. unfold list_pop. apply nth_list_pop.
    now apply norm_index_lt.
Qed.

Lemma apply_del_shifts_elements_witness :
  exists data' parent' key' l',
    apply_del (JArr [JInt 10; JInt 11; JInt 12]) ([] ++ [SIdx 1]) = Ok data'
    /\ navigate data' [] = Ok (parent', key', JArr l')
    /\ S (List.length l') = List.length [JInt 10; JInt 11; JInt 12]
    /\ forall j,
        nth j l' JNull
        = if (j <? norm_index (List.length [JInt 10; JInt 11; JInt 12]) 1)%nat
          then nth j [JInt 10; JInt 11; JInt 12] JNull
          else nth (S j) [JInt 10; JInt 11; JInt 12] JNull.
Proof.
  apply (apply_del_shifts_elements (JArr [JInt 10; JInt 11; JInt 12]) []
           None None [JInt 10; JInt 11; JInt 12] 1).
  - reflexivity.
  - unfold Zlen. simpl. lia.
Defined.

Lemma list_insert_in_range l i v :
  (- Zlen l <= i < Zlen l)%Z ->
  list_insert l i v
  = firstn (norm_index (List.length l) i) l
      ++ v :: skipn (norm_index (List.length l) i) l.
Proof.
  intros H. unfold list_insert, norm_index, Zlen in *.
  destruct (i <? 0)%Z eqn:E;
    [apply Z.ltb_lt in E; rewrite Z.max_r by lia
    |apply Z.ltb_ge in E; rewrite Z.min_l by lia]; reflexivity.
Qed.

Lemma list_insert_after_in_range l i v :
  (- Zlen l <= i < Zlen l)%Z -> i <> (-1)%Z ->
  list_insert l (i + 1) v
  = firstn (S (norm_index (List.length l) i)) l
      ++ v :: skipn (S (norm_index (List.length l) i)) l.
Proof.
  intros H Hi. unfold list_insert, norm_index, Zlen in *.
  destruct (i <? 0)%Z eqn:E; [apply Z.ltb_lt in E | apply Z.ltb_ge in E].
  - assert (E1 : (i + 1 <? 0)%Z = true) by (apply Z.ltb_lt; lia).
    rewrite E1, Z.max_r by lia.
    replace (Z.to_nat (Z.of_nat (List.length l) + (i + 1)))
      with (S (Z.to_nat (Z.of_nat (List.length l) + i))) by lia.
    reflexivity.
  - assert (E1 : (i + 1 <? 0)%Z = false) by (apply Z.ltb_ge; lia).
    rewrite E1, Z.min_l by lia.
    replace (Z.to_nat (i + 1)) with (S (Z.to_nat i)) by lia.
    reflexivity.
Qed.

Lemma nth_insert_at (l : list json) (m : nat) (v : json) :
  (m <= List.length l)%nat ->
  nth m (firstn m l ++ v :: skipn m l) JNull = v
  /\ forall j, (j < m)%nat ->
       nth j (firstn m l ++ v :: skipn m l) JNull = nth j l JNull.
Proof.
  intros Hm. split.
  - rewrite app_nth2; rewrite length_firstn; [|lia].
    replace (m - Nat.min m (List.length l))%nat with 0%nat by lia.
    reflexivity.
  - intros j Hj. rewrite app_nth1 by (rewrite length_firstn; lia).
    rewrite nth_firstn.
    assert (E : (j <? m)%nat = true) by (apply Nat.ltb_lt; lia).
    now rewrite E.
Qed.

Lemma nth_insert_after (l : list json) (m j : nat) (v : json) :
  (m <= List.length l)%nat -> (m <= j)%nat ->
  nth (S j) (firstn m l ++ v :: skipn m l) JNull = nth j l JNull.
Proof.
  intros Hm Hj. rewrite app_nth2; rewrite length_firstn; [|lia].
  replace (S j - Nat.min m (List.length l))%nat with (S (j - m)) by lia.
  simpl. rewrite nth_skipn. f_equal. lia.
Qed.

Lemma apply_after_unfold data ps seg v :
  apply_after data (ps ++ [seg]) v
  = mutate_at data (ps ++ [seg]) (insert_item 1 AfterOnlyArrays v).
Proof. now destruct ps. Qed.

(** X7.  Inserting before an element of an array, at an index in range
    (negative indices count from the end): the insertion succeeds, the
    new value stands at the position the index denoted, the element
    that was there and all later ones move up by one, and the earlier
    ones stay. *)
Theorem apply_before_inserts_at_index
  (data : json) (ps : list segment) (parent : option json)
  (key : option segment) (l : list json) (i : Z) (v : json) :
  navigate data ps = Ok (parent, key, JArr l) ->
  (- Zlen l <= i < Zlen l)%Z ->
  exists data' parent' key' l',
    apply_before data (ps ++ [SIdx i]) v = Ok data'
    /\ navigate data' ps = Ok (parent', key', JArr l')
    /\ List.length l' = S (List.length l)
    /\ nth (norm_index (List.length l) i) l' JNull = v
    /\ (forall j, (j < norm_index (List.length l) i)%nat ->
                  nth j l' JNull = nth j l JNull)
    /\ (forall j, (norm_index (List.length l) i <= j)%nat ->
                  nth (S j) l' JNull = nth j l JNull).
Proof.
  unfold navigate. intros Hps Hin. rewrite apply_before_unfold.
  assert (Hstep : navigate_step (JArr l) (SIdx i) = Ok (list_getitem l i)).
  { simpl. apply in_range_spec in Hin. now rewrite Hin. }
  destruct (proj2 (mutate_at_last _ _ _ _ _
                     (insert_item 0 BeforeOnlyArrays v) _ _ _ _ Hps Hstep)
              (JArr (list_insert l (i + 0) v)) eq_refl)
    as (data' & p' & k' & Hm & Hn).
  rewrite Z.add_0_r in Hn. rewrite list_insert_in_range in Hn by assumption.
  pose proof (norm_index_lt l i Hin) as Hlt.
  eexists data', p', k', _. split; [eassumption|]. split; [eassumption|].
  split; [|split; [|split]].
  - rewrite length_app, length_firstn, length_cons, length_skipn. lia.
  - apply nth_insert_at. lia.
  - apply nth_insert_at. lia.
  - intros j Hj. apply nth_insert_after; lia.
Qed.

Lemma apply_before_inserts_at_index_witness :
  exists data' parent' key' l',
    apply_before (JArr [JInt 10; JInt 11]) ([] ++ [SIdx (-1)]) (JStr "x")
    = Ok data'
    /\ navigate data' [] = Ok (parent', key', JArr l')
    /\ List.length l' = S (List.length [JInt 10; JInt 11])
    /\ nth (norm_index (List.length [JInt 10; JInt 11]) (-1)) l' JNull
       = JStr "x"
    /\ (forall j, (j < norm_index (List.length [JInt 10; JInt 11]) (-1))%nat ->
                  nth j l' JNull = nth j [JInt 10; JInt 11] JNull)
    /\ (forall j, (norm_index (List.length [JInt 10; JInt 11]) (-1) <= j)%nat ->
                  nth (S j) l' JNull = nth j [JInt 10; JInt 11] JNull).
Proof.
  apply (apply_before_inserts_at_index (JArr [JInt 10; JInt 11]) [] None None
           [JInt 10; JInt 11] (-1) (JStr "x")).
  - reflexivity.
  - unfold Zlen. simpl. lia.
Defined.

(** X8.  Inserting after an element of an array, at an index in range.  For
    every index but -1 the new value stands right after the addressed
    element.  For the index -1, which addresses the last element,
    [insert(key + 1)] is [insert(0)]: the new value goes to the front of
    the array, not behind the last element. *)
Theorem apply_after_inserts_behind
  (data : json) (ps : list segment) (parent : option json)
  (key : option segment) (l : list json) (i : Z) (v : json) :
  navigate data ps = Ok (parent, key, JArr l) ->
  (- Zlen l <= i < Zlen l)%Z ->
  exists data' parent' key' l',
    apply_after data (ps ++ [SIdx i]) v = Ok data'
    /\ navigate data' ps = Ok (parent', key', JArr l')
    /\ List.length l' = S (List.length l)
    /\ (i <> (-1)%Z ->
        nth (S (norm_index (List.length l) i)) l' JNull = v
        /\ (forall j, (j <= norm_index (List.length l) i)%nat ->
                      nth j l' JNull = nth j l JNull)
        /\ (forall j, (norm_index (List.length l) i < j)%nat ->
                      nth (S j) l' JNull = nth j l JNull))
    /\ (i = (-1)%Z -> l' = v :: l).
Proof.
  unfold navigate. intros Hps Hin. rewrite apply_after_unfold.
  assert (Hstep : navigate_step (JArr l) (SIdx i) = Ok (list_getitem l i)).
  { simpl. apply in_range_spec in Hin. now rewrite Hin. }
  destruct (proj2 (mutate_at_last _ _ _ _ _
                     (insert_item 1 AfterOnlyArrays v) _ _ _ _ Hps Hstep)
              (JArr (list_insert l (i + 1) v)) eq_refl)
    as (data' & p' & k' & Hm & Hn).
  pose proof (norm_index_lt l i Hin) as Hlt.
  exists data', p', k', (list_insert l (i + 1) v).
  split; [assumption|]. split; [assumption|]. split; [|split].
  - pose proof (length_list_insert l (i + 1) v) as H. unfold Zlen in H. lia.
  - intros Hi. rewrite list_insert_after_in_range by assumption.
    split; [|split].
    + apply nth_insert_at. lia.
    + intros j Hj. apply nth_insert_at; lia.
    + intros j Hj. apply nth_insert_after; lia.
  - intros ->. unfold list_insert. change (-1 + 1)%Z with 0%Z.
    change (0 <? 0)%Z with false. cbv iota.
    rewrite Z.min_l by (unfold Zlen; lia). reflexivity.
Qed.

Lemma apply_after_inserts_behind_witness :
  exists data' parent' key' l',
    apply_after (JArr [JInt 10; JInt 11]) ([] ++ [SIdx (-1)]) (JStr "x")
    = Ok data'
    /\ navigate data' [] = Ok (parent', key', JArr l')
    /\ List.length l' = S (List.length [JInt 10; JInt 11])
    /\ ((-1)%Z <> (-1)%Z ->
        nth (S (norm_index (List.length [JInt 10; JInt 11]) (-1))) l' JNull
        = JStr "x"
        /\ (forall j,
               (j <= norm_index (List.length [JInt 10; JInt 11]) (-1))%nat ->
               nth j l' JNull = nth j [JInt 10; JInt 11] JNull)
        /\ (forall j,
               (norm_index (List.length [JInt 10; JInt 11]) (-1) < j)%nat ->
               nth (S j) l' JNull = nth j [JInt 10; JInt 11] JNull))
    /\ ((-1)%Z = (-1)%Z -> l' = JStr "x" :: [JInt 10; JInt 11]).
Proof.
  apply (apply_after_inserts_behind (JArr [JInt 10; JInt 11]) [] None None
           [JInt 10; JInt 11] (-1) (JStr "x")).
  - reflexivity.
  - unfold Zlen. simpl. lia.
Defined.

Lemma del_item_total container seg child :
  navigate_step container seg = Ok child ->
  exists c', del_item container seg = Ok c'.
Proof.
  destruct seg as [k|i]; simpl; destruct container; try discriminate;
    intros _; eexists; reflexivity.
Qed.

Lemma insert_fails shift not_array v node segments e :
  segments <> [] ->
  (mutate_at node segments (insert_item shift not_array v) = Err e <->
   navigate node segments = Err e
   \/ (e = not_array
       /\ exists ps k r,
           segments = ps ++ [SKey k] /\ navigate node segments = Ok r)).
Proof.
  intros Hne. destruct (exists_last Hne) as (ps & seg & ->).
  rewrite mutate_at_spec. unfold navigate at 2 3. rewrite navigate_loop_last.
  unfold navigate.
  destruct (navigate_loop None None node ps) as [[[p k] c]|e0] eqn:Hps.
  - destruct (navigate_step c seg) as [child|e1] eqn:Hstep; simpl.
    + destruct seg as [key|i]; simpl in Hstep; destruct c; try discriminate.
      * simpl. split.
        -- intros [= <-]. right. split; [reflexivity|].
           exists ps, key. eexists. split; reflexivity.
        -- intros [H|[-> _]]; [discriminate|reflexivity].
      * simpl.
        assert (Hstep' : navigate_step (JArr elems) (SIdx i) = Ok child)
          by exact Hstep.
        destruct (proj2 (mutate_at_last _ _ _ _ _
                           (insert_item shift not_array v) _ _ _ _ Hps
                           Hstep')
                    _ eq_refl) as (n' & p' & k' & Hm & _).
        rewrite Hm. split; [discriminate|].
        intros [H|[_ (ps' & key & r & E & _)]]; [discriminate|].
        apply app_inj_tail in E as [_ E]. discriminate.
    + split; [intros [= ->]; now left|].
      intros [[= ->]|[_ (ps' & key & r & _ & H)]]; [reflexivity|discriminate].
  - split; [intros [= ->]; now left|].
    intros [[= ->]|[_ (ps' & key & r & _ & H)]]; [reflexivity|discriminate].
Qed.

(** X9.  When the edit operations fail.  [apply_del] fails on the root with
    its own error and otherwise exactly as [navigate] fails.
    [apply_before] and [apply_after] fail on the root with their own
    errors, as [navigate] fails when the path does not resolve, and with
    the only-array-elements error exactly when the path resolves and its
    last segment is a key (the parent is an object); a navigation error
    comes before the only-array-elements error. *)
Theorem edit_failures (data : json) (segments : list segment) (v : json)
  (e : error) :
  (apply_del data segments = Err e <->
   (segments = [] /\ e = CannotDeleteRoot)
   \/ (segments <> [] /\ navigate data segments = Err e))
  /\ (apply_before data segments v = Err e <->
      (segments = [] /\ e = CannotInsertBeforeRoot)
      \/ (segments <> [] /\ navigate data segments = Err e)
      \/ (e = BeforeOnlyArrays
          /\ exists ps k r,
              segments = ps ++ [SKey k] /\ navigate data segments = Ok r))
  /\ (apply_after data segments v = Err e <->
      (segments = [] /\ e = CannotInsertAfterRoot)
      \/ (segments <> [] /\ navigate data segments = Err e)
      \/ (e = AfterOnlyArrays
          /\ exists ps k r,
              segments = ps ++ [SKey k] /\ navigate data segments = Ok r)).
Proof.
  destruct segments as [|s rest].
  - simpl. repeat split;
      try (intros [= <-]; left; split; reflexivity);
      try (intros [[_ ->]|[[H _]|[_ (ps & k & r & E & _)]]];
           [reflexivity|contradiction|destruct ps; discriminate]).
    intros [[_ ->]|[H _]]; [reflexivity|contradiction].
  - assert (Hne : s :: rest <> []) by discriminate.
    change (apply_del data (s :: rest))
      with (mutate_at data (s :: rest) del_item).
    change (apply_before data (s :: rest) v)
      with (mutate_at data (s :: rest) (insert_item 0 BeforeOnlyArrays v)).
    change (apply_after data (s :: rest) v)
      with (mutate_at data (s :: rest) (insert_item 1 AfterOnlyArrays v)).
    split; [|split].
    + rewrite (mutate_at_fails_as_navigate _ _ _ e Hne del_item_total).
      split; [intros H; right; auto|].
      intros [[H _]|[_ H]]; [discriminate|assumption].
    + rewrite (insert_fails _ _ _ _ _ e Hne). split.
      * intros [H|H]; [right; left; auto|right; right; assumption].
      * intros [[H _]|[[_ H]|H]]; [discriminate|now left|now right].
    + rewrite (insert_fails _ _ _ _ _ e Hne). split.
      * intros [H|H]; [right; left; auto|right; right; assumption].
      * intros [[H _]|[[_ H]|H]]; [discriminate|now left|now right].
Qed.

Lemma edit_failures_witness :
  apply_before (JObj [("a", JInt 1)]) [SKey "a"] JNull = Err BeforeOnlyArrays.
Proof.
  apply (proj1 (proj2 (edit_failures (JObj [("a", JInt 1)]) [SKey "a"] JNull
                         BeforeOnlyArrays))).
  right. right. split; [reflexivity|].
  exists [], "a". eexists. split; reflexivity.
Defined.

(** X10.  Copy reads the source before it touches the destination: a source
    path that does not resolve fails the copy with the error of its
    walk, whatever the destination; otherwise the copy behaves as
    [apply_set] of the source value at the destination, so the
    destination path then reads the value the source held. *)
Theorem apply_copy_reads_source
  (data : json) (src_segs dst_segs : list segment) :
  (forall e, navigate data src_segs = Err e ->
             apply_copy data src_segs dst_segs = Err e)
  /\ (forall ps ks src_val,
         navigate data src_segs = Ok (ps, ks, src_val) ->
         apply_copy data src_segs dst_segs = apply_set data dst_segs src_val
         /\ (forall pd kd old,
                navigate data dst_segs = Ok (pd, kd, old) ->
                exists data' parent',
                  apply_copy data src_segs dst_segs = Ok data'
                  /\ navigate data' dst_segs = Ok (parent', kd, src_val))).
Proof.
  unfold apply_copy. split.
  - intros e ->. reflexivity.
  - intros ps ks src_val ->. simpl. split; [reflexivity|].
    intros pd kd old Hdst.
    exact (apply_set_then_navigate data dst_segs src_val pd kd old Hdst).
Qed.

Lemma apply_copy_reads_source_witness :
  exists data' parent',
    apply_copy (JObj [("a", JInt 1); ("b", JArr [JNull])])
      [SKey "a"] [SKey "b"; SIdx 0] = Ok data'
    /\ navigate data' [SKey "b"; SIdx 0] = Ok (parent', Some (SIdx 0), JInt 1).
Proof.
  apply (proj2 (proj2 (apply_copy_reads_source
                         (JObj [("a", JInt 1); ("b", JArr [JNull])])
                         [SKey "a"] [SKey "b"; SIdx 0])
                  (Some (JObj [("a", JInt 1); ("b", JArr [JNull])]))
                  (Some (SKey "a")) (JInt 1) eq_refl)
           (Some (JArr [JNull])) (Some (SIdx 0)) JNull).
  reflexivity.
Defined.

Lemma apply_merge_reads
  (data : json) (segs : list segment) (patch : json) :
  (forall parent key node,
      navigate data segs = Ok (parent, key, node) ->
      exists data' parent',
        apply_merge data segs patch = Ok data'
        /\ navigate data' segs = Ok (parent', key, deep_merge node patch))
  /\ (forall e,
         navigate data segs = Err e -> apply_merge data segs patch = Err e).
Proof.
  destruct segs as [|s0 rest].
  - split; [|discriminate].
    intros parent key node [= <- <- <-].
    exists (deep_merge data patch), None. auto.
  - assert (Hne : s0 :: rest <> []) by discriminate.
    set (op := fun parent key =>
                 node <- navigate_step parent key ;;
                 store_item parent key (deep_merge node patch)).
    change (apply_merge data (s0 :: rest) patch)
      with (mutate_at data (s0 :: rest) op).
    split.
    + intros parent key node Hnav.
      destruct (navigate_last_inv _ _ _ _ _ Hne Hnav)
        as (ps & seg & c & p' & k' & E & -> & -> & Hps & Hstep).
      rewrite E.
      destruct (store_item_step _ _ _ (deep_merge node patch) Hstep)
        as (c' & Hst & Hget).
      assert (Hop : op c seg = Ok c').
      { unfold op. rewrite Hstep. exact Hst. }
      destruct (proj2 (mutate_at_last _ _ _ _ _ op _ _ _ _ Hps Hstep) c' Hop)
        as (n' & p'' & k'' & Hm & Hn).
      exists n', (Some c'). split; [assumption|].
      unfold navigate. now rewrite navigate_loop_last, Hn, Hget.
    + intros e Herr. eapply mutate_at_navigate_error; eassumption.
Qed.

(** X11.  Merge at a path: where the path resolves to a node, [apply_merge]
    succeeds and the path then reads the deep merge of that node with
    the patch (for the root path the result is the merged document);
    where it does not resolve, [apply_merge] fails as [navigate]. *)
Theorem apply_merge_at_path
  (data : json) (segs : list segment) (patch : json) :
  (forall parent key node,
      navigate data segs = Ok (parent, key, node) ->
      exists data' parent',
        apply_merge data segs patch = Ok data'
        /\ navigate data' segs = Ok (parent', key, deep_merge node patch))
  /\ (forall e,
         navigate data segs = Err e -> apply_merge data segs patch = Err e).
Proof. apply apply_merge_reads. Qed.

Lemma apply_merge_at_path_witness :
  exists data' parent',
    apply_merge (JObj [("cfg", JObj [("a", JInt 1)])]) [SKey "cfg"]
      (JObj [("b", JInt 2)]) = Ok data'
    /\ navigate data' [SKey "cfg"]
       = Ok (parent', Some (SKey "cfg"),
             deep_merge (JObj [("a", JInt 1)]) (JObj [("b", JInt 2)])).
Proof.
  apply (proj1 (apply_merge_at_path (JObj [("cfg", JObj [("a", JInt 1)])])
                  [SKey "cfg"] (JObj [("b", JInt 2)]))
           (Some (JObj [("cfg", JObj [("a", JInt 1)])])) (Some (SKey "cfg"))
           (JObj [("a", JInt 1)])).
  reflexivity.
Defined.

(* ================================================================== *)
(** * Further properties of deep merge *)

(** A pass of the merge loop changes nothing when every patch key holds,
    in the running result, a value that absorbs the patch value. *)
Lemma merge_loop_fixed result items :
  (forall k v, In (k, v) items ->
               exists y, Dict.get k result = Some y /\ deep_merge y v = y) ->
  merge_loop result items = result.
Proof.
  induction items as [|[k v] items IH]; intros H; simpl; [reflexivity|].
  destruct (H k v (or_introl eq_refl)) as (y & Hy & Hm).
  rewrite Hy, Hm, (dict_set_same _ _ _ Hy).
  apply IH. intros k' v' Hin. apply H. now right.
Qed.

Lemma wf_json_object items :
  wf_json (JObj items) = true ->
  NoDup (Dict.keys items)
  /\ forall k v, In (k, v) items -> wf_json v = true.
Proof.
  simpl. intros H. apply andb_true_iff in H as [Hd Hwf]. split.
  - now apply distinct_NoDup.
  - intros k v Hin. rewrite forallb_forall in Hwf. exact (Hwf _ Hin).
Qed.

Lemma deep_merge_self v : wf_json v = true -> deep_merge v v = v.
Proof.
  induction v as [| | | | |items IH|elems IH] using json_nested_ind;
    intros Hwf; try reflexivity.
  rewrite deep_merge_objects. f_equal.
  apply wf_json_object in Hwf as [Hnd Hwf].
  apply merge_loop_fixed. intros k v Hin. exists v. split.
  - now apply dict_In_get.
  - rewrite Forall_forall in IH. apply (IH (k, v) Hin). eauto.
Qed.

Lemma deep_merge_twice patch :
  wf_json patch = true ->
  forall base, deep_merge (deep_merge base patch) patch = deep_merge base patch.
Proof.
  induction patch as [| | | | |items IH|elems IH] using json_nested_ind;
    intros Hwf base; try (destruct base; reflexivity).
  destruct base as [| | | | |b|];
      try (change (deep_merge (JObj items) (JObj items) = JObj items);
           now apply deep_merge_self).
    rewrite !deep_merge_objects. f_equal.
    apply wf_json_object in Hwf as [Hnd Hwf].
    apply merge_loop_fixed. intros k v Hin.
    rewrite merge_loop_get by assumption.
    rewrite (dict_In_get _ _ _ Hnd Hin).
    eexists. split; [reflexivity|].
    rewrite Forall_forall in IH.
    destruct (Dict.get k b) as [x|].
    + apply (IH (k, v) Hin). eauto.
    + apply deep_merge_self. eauto.
Qed.

(** X12.  Merging is idempotent: applying a patch (a JSON value, so with
    distinct keys in every object) to the result of applying it gives
    that result again; in particular a value merged into itself is
    unchanged. *)
Theorem deep_merge_idempotent (base patch : json) :
  wf_json patch = true ->
  deep_merge (deep_merge base patch) patch = deep_merge base patch
  /\ deep_merge patch patch = patch.
Proof.
  intros Hwf. split; [now apply deep_merge_twice|now apply deep_merge_self].
Qed.

Lemma deep_merge_idempotent_witness :
  deep_merge
    (deep_merge (JObj [("a", JInt 1); ("b", JObj [("c", JInt 2)])])
       (JObj [("b", JObj [("d", JInt 3)]); ("e", JArr [JInt 4])]))
    (JObj [("b", JObj [("d", JInt 3)]); ("e", JArr [JInt 4])])
  = deep_merge (JObj [("a", JInt 1); ("b", JObj [("c", JInt 2)])])
      (JObj [("b", JObj [("d", JInt 3)]); ("e", JArr [JInt 4])]).
Proof.
  apply (proj1 (deep_merge_idempotent
                  (JObj [("a", JInt 1); ("b", JObj [("c", JInt 2)])])
                  (JObj [("b", JObj [("d", JInt 3)]); ("e", JArr [JInt 4])])
                  eq_refl)).
Defined.

(* ================================================================== *)
(** * Further properties of the next issue id *)

Lemma digit_prefix_le_max names name n :
  In name names -> digit_prefix name = Some n ->
  (n <= max_prefix (digit_prefixes names))%Z.
Proof.
  induction names as [|x names IH]; simpl; [tauto|].
  intros [->|Hin] Hn.
  - rewrite Hn. simpl. lia.
  - specialize (IH Hin Hn). destruct (digit_prefix x); simpl; lia.
Qed.

(** X13.  The id is free: it reads as a number greater than the digit prefix
    of every name in open/ and closed/. *)
Theorem next_issue_id_is_fresh (dir : issues_dir) (name : string) (n : Z) :
  In name (all_names dir) ->
  digit_prefix name = Some n ->
  (n < int_of_digits (next_issue_id dir))%Z.
Proof.
  intros Hin Hn. rewrite next_issue_id_max.
  pose proof (max_prefix_nonneg (digit_prefixes (all_names dir))).
  rewrite int_of_digits_pad3 by lia.
  pose proof (digit_prefix_le_max _ _ _ Hin Hn). lia.
Qed.

Lemma next_issue_id_is_fresh_witness :
  (41 < int_of_digits
          (next_issue_id {| open_entries := Some ["007-a.md"; "x"];
                            closed_entries := Some ["041-b.md"] |}))%Z.
Proof.
  apply (next_issue_id_is_fresh
           {| open_entries := Some ["007-a.md"; "x"];
              closed_entries := Some ["041-b.md"] |} "041-b.md" 41).
  - simpl. auto.
  - reflexivity.
Defined.

Lemma digit_prefixes_perm a b :
  Permutation a b -> Permutation (digit_prefixes a) (digit_prefixes b).
Proof.
  induction 1 as [|x a b _ IH|x y a|a b c _ IH1 _ IH2]; simpl.
  - constructor.
  - destruct (digit_prefix x); [now constructor|assumption].
  - destruct (digit_prefix x), (digit_prefix y);
      try apply Permutation_refl. apply perm_swap.
  - eapply Permutation_trans; eassumption.
Qed.

Lemma max_prefix_perm a b :
  Permutation a b -> max_prefix a = max_prefix b.
Proof.
  induction 1 as [|x a b _ IH|x y a|a b c _ IH1 _ IH2]; simpl; lia.
Qed.

(** X14.  The id depends on the names only as a collection: neither the order
    in which [iterdir] yields them nor the subdirectory a name is in
    matters, so moving an issue from open/ to closed/ leaves the next
    id unchanged. *)
Theorem next_issue_id_order_independent (dir dir' : issues_dir) :
  Permutation (all_names dir) (all_names dir') ->
  next_issue_id dir = next_issue_id dir'.
Proof.
  intros H. rewrite !next_issue_id_max.
  now rewrite (max_prefix_perm _ _ (digit_prefixes_perm _ _ H)).
Qed.

Lemma next_issue_id_order_independent_witness :
  next_issue_id {| open_entries := Some ["001-a"; "002-b"];
                   closed_entries := Some [] |}
  = next_issue_id {| open_entries := Some ["001-a"];
                     closed_entries := Some ["002-b"] |}.
Proof.
  apply (next_issue_id_order_independent
           {| open_entries := Some ["001-a"; "002-b"];
              closed_entries := Some [] |}
           {| open_entries := Some ["001-a"];
              closed_entries := Some ["002-b"] |}).
  apply Permutation_refl.
Defined.

(* ================================================================== *)
(** * The paths of the flat view, read back by the path parser *)

Lemma path_from_suffix path segments :
  path_from path false segments = (path ++ path_suffix segments)%string.
Proof.
  revert path. induction segments as [|[k|i] rest IH]; intros path; simpl.
  - now rewrite string_app_nil_r.
  - rewrite IH. unfold dotted. now rewrite !string_app_assoc.
  - rewrite IH. unfold bracketed. now rewrite !string_app_assoc.
Qed.

Lemma path_suffix_extension segments :
  is_extension (path_suffix segments) = true.
Proof. destruct segments as [|[k|i] rest]; reflexivity. Qed.

Lemma span_key_plain k e :
  plain_key k = true -> is_extension e = true ->
  span_key (k ++ e) = (k, e).
Proof.
  intros Hk He. induction k as [|c k IH]; simpl.
  - destruct e as [|c e]; [reflexivity|]. simpl in *. now rewrite He.
  - simpl in Hk. apply andb_true_iff in Hk as [Hc Hk].
    apply negb_true_iff in Hc. rewrite Hc. now rewrite IH.
Qed.

Lemma split_at_close_digits d e :
  all_digits d = true ->
  split_at_close (d ++ String "]" e) = Some (d, e).
Proof.
  intros Hd. induction d as [|c d IH]; simpl; [reflexivity|].
  simpl in Hd. apply andb_true_iff in Hd as [Hc Hd].
  destruct (Ascii.eqb c "]") eqn:E.
  - apply Ascii.eqb_eq in E. subst c. discriminate.
  - now rewrite IH.
Qed.

Lemma str_of_nat_digits n : isdigit (str_of_nat n) = true.
Proof.
  unfold isdigit, str_of_nat.
  destruct (NilEmpty.string_of_uint (Nat.to_uint n)) eqn:E.
  - exfalso.
    assert (H : NilEmpty.uint_of_string
                  (NilEmpty.string_of_uint (Nat.to_uint n)) = Some Nil)
      by now rewrite E.
    rewrite NilEmpty.usu in H. injection H as H.
    apply (f_equal Nat.of_uint) in H.
    rewrite DecimalNat.Unsigned.of_to in H. simpl in H. subst n.
    discriminate.
  - rewrite <- E. apply string_of_uint_digits.
Qed.

Lemma of_lu_nat_N d :
  N.of_nat (DecimalNat.Unsigned.of_lu d) = DecimalPos.Unsigned.of_lu d.
Proof.
  induction d; cbn [DecimalNat.Unsigned.of_lu DecimalPos.Unsigned.of_lu];
    rewrite ?Nat2N.inj_add, ?Nat2N.inj_mul, ?IHd; reflexivity.
Qed.

Lemma int_of_digits_str_of_nat n : int_of_digits (str_of_nat n) = Z.of_nat n.
Proof.
  unfold int_of_digits, str_of_nat. rewrite NilEmpty.usu.
  unfold N.of_uint. rewrite DecimalPos.Unsigned.of_uint_alt, <- of_lu_nat_N.
  rewrite <- DecimalNat.Unsigned.of_uint_alt, DecimalNat.Unsigned.of_to. lia.
Qed.

Lemma parse_loop_suffix path_str segments :
  Forall printable segments ->
  forall fuel,
    (String.length (skip_dot (path_suffix segments)) < fuel)%nat ->
    parse_loop fuel path_str (skip_dot (path_suffix segments))
    = Some (Ok segments).
Proof.
  induction 1 as [|seg rest Hseg _ IH]; intros fuel Hfuel.
  - destruct fuel; [simpl in Hfuel; lia|reflexivity].
  - destruct fuel as [|fuel]; [lia|].
    destruct seg as [k|i].
    + destruct Hseg as [Hk Hne].
      change (skip_dot (path_suffix (SKey k :: rest)))
        with (k ++ path_suffix rest)%string in *.
      destruct k as [|c k]; [contradiction|].
      assert (Hc : Ascii.eqb c "." || Ascii.eqb c "[" = false).
      { simpl in Hk. apply andb_true_iff in Hk as [Hc _].
        now apply negb_true_iff in Hc. }
      apply orb_false_iff in Hc as [_ Hb].
      change (parse_loop (S fuel) path_str
                (String c k ++ path_suffix rest)%string)
        with (if Ascii.eqb c "[" then
                match split_at_close (k ++ path_suffix rest)%string with
                | None => Some (Err SubstringNotFound)
                | Some (idx_str, rest0) =>
                    if isdigit idx_str then
                      match parse_loop fuel path_str (skip_dot rest0) with
                      | Some (Ok segments) =>
                          Some (Ok (SIdx (int_of_digits idx_str) :: segments))
                      | other => other
                      end
                    else
                      Some (Err (NonIntegerIndex
                                   ("[" ++ idx_str ++ "]")%string))
                end
              else
                let (key, rest0) :=
                  span_key (String c k ++ path_suffix rest)%string in
                match key with
                | EmptyString => Some (Err (EmptyKey path_str))
                | _ =>
                    match parse_loop fuel path_str (skip_dot rest0) with
                    | Some (Ok segments) => Some (Ok (SKey key :: segments))
                    | other => other
                    end
                end).
      rewrite Hb.
      rewrite (span_key_plain (String c k) _ Hk (path_suffix_extension rest)).
      rewrite IH; [reflexivity|].
      pose proof (skip_dot_length (path_suffix rest)).
      rewrite string_app_length in Hfuel. simpl in Hfuel. lia.
    + simpl in Hseg.
      change (skip_dot (path_suffix (SIdx i :: rest)))
        with (String "[" (str_of_nat (Z.to_nat i)
                            ++ String "]" (path_suffix rest)))%string in *.
      simpl parse_loop.
      rewrite split_at_close_digits
        by (unfold str_of_nat; apply string_of_uint_digits).
      rewrite str_of_nat_digits, int_of_digits_str_of_nat.
      rewrite IH.
      * now rewrite Z2Nat.id by assumption.
      * pose proof (skip_dot_length (path_suffix rest)).
        simpl in Hfuel. rewrite string_app_length in Hfuel.
        simpl in Hfuel. lia.
Qed.

Lemma prefix_root_dot s :
  String.prefix "root." s = true ->
  exists x, s = String "r" (String "o" (String "o" (String "t" (String "." x)))).
Proof.
  intros H. apply prefix_correct in H. simpl in H.
  repeat (destruct s as [|? s]; [discriminate|]). simpl in H.
  injection H as -> -> -> -> -> _. eauto.
Qed.

Lemma prefix_root_bracket s :
  String.prefix "root[" s = true ->
  exists x, s = String "r" (String "o" (String "o" (String "t" (String "[" x)))).
Proof.
  intros H. apply prefix_correct in H. simpl in H.
  repeat (destruct s as [|? s]; [discriminate|]). simpl in H.
  injection H as -> -> -> -> -> _. eauto.
Qed.

Lemma parse_root_bracket x path_str :
  (exists y, x = String "[" y) ->
  (let s := String "r" (String "o" (String "o" (String "t" x))) in
   if String.eqb s "root" then Some (Ok [])
   else
     let s :=
       if String.prefix "root." s then string_drop 5 s
       else if String.prefix "root[" s then string_drop 4 s
       else s in
     parse_loop (S (String.length s)) path_str s)
  = parse_loop (S (String.length x)) path_str x.
Proof.
  intros [y ->]. cbv zeta.
  change (String.eqb (String "r" (String "o" (String "o" (String "t"
                        (String "[" y))))) "root") with false.
  change (String.prefix "root." (String "r" (String "o" (String "o"
                        (String "t" (String "[" y)))))) with false.
  cbv iota.
  assert (E : String.prefix "root[" (String "r" (String "o" (String "o"
                        (String "t" (String "[" y))))) = true)
    by (simpl; now destruct y).
  rewrite E. reflexivity.
Qed.

(** X15.  The paths the flat view prints parse back to the segments they were
    composed from.  For segments with non-negative indices and
    non-empty keys free of dots and opening brackets, whose first key
    is not the word root, and whose path has no white space at either
    end (which [strip] would remove): parse_path of the composed path
    returns exactly the segments. *)
Theorem parse_path_of_composed_path (segments : list segment) :
  Forall printable segments ->
  first_not_root segments ->
  strip (path_of segments) = path_of segments ->
  parse_path (path_of segments) = Some (Ok segments).
Proof.
  intros Hp Hroot Hstrip. unfold parse_path. rewrite Hstrip.
  destruct segments as [|[k|i] rest].
  - reflexivity.
  - unfold path_of in *. simpl path_from in *. rewrite path_from_suffix.
    apply Forall_cons_iff in Hp as [[Hk Hne] Hrest]. simpl in Hroot.
    pose proof (path_suffix_extension rest) as Hext.
    destruct (String.eqb (k ++ path_suffix rest) "root") eqn:E1.
    { apply String.eqb_eq in E1. exfalso. apply Hroot.
      apply (plain_key_split k "root" (path_suffix rest) EmptyString);
        auto. }
    destruct (String.prefix "root." (k ++ path_suffix rest)) eqn:E2.
    { apply prefix_root_dot in E2 as [x Hx]. exfalso. apply Hroot.
      apply (plain_key_split k "root" (path_suffix rest) (String "." x));
        auto. }
    destruct (String.prefix "root[" (k ++ path_suffix rest)) eqn:E3.
    { apply prefix_root_bracket in E3 as [x Hx]. exfalso. apply Hroot.
      apply (plain_key_split k "root" (path_suffix rest) (String "[" x));
        auto. }
    apply (parse_loop_suffix _ (SKey k :: rest)).
    + constructor; [split|]; assumption.
    + apply Nat.lt_succ_diag_r.
  - unfold path_of in *. simpl path_from in *. rewrite path_from_suffix.
    unfold bracketed. rewrite !string_app_assoc.
    change ("root" ++ "[" ++ str_of_nat (Z.to_nat i) ++ "]" ++ path_suffix rest)%string
      with (String "r" (String "o" (String "o" (String "t"
              (skip_dot (path_suffix (SIdx i :: rest))))))).
    rewrite parse_root_bracket by (eexists; reflexivity).
    apply (parse_loop_suffix _ (SIdx i :: rest) Hp).
    apply Nat.lt_succ_diag_r.
Qed.

Lemma parse_path_of_composed_path_witness :
  parse_path (path_of [SKey "users"; SIdx 12; SKey "first name"])
  = Some (Ok [SKey "users"; SIdx 12; SKey "first name"]).
Proof.
  apply (parse_path_of_composed_path
           [SKey "users"; SIdx 12; SKey "first name"]).
  - repeat constructor; simpl; try discriminate; lia.
  - simpl. discriminate.
  - reflexivity.
Defined.

(* ================================================================== *)
(** * The row filter on the rows of a document *)

Lemma prefix_app_iff a s :
  String.prefix a s = true <-> exists x, s = (a ++ x)%string.
Proof.
  revert s. induction a as [|c a IH]; intros s.
  - split; [intros _; exists s; reflexivity|]. intros _. now destruct s.
  - destruct s as [|c' s]; simpl.
    + split; [discriminate|]. intros [x H]. discriminate.
    + destruct (ascii_dec c c') as [->|Hne].
      * rewrite IH. split; intros [x H]; exists x;
          [now rewrite H|now injection H].
      * split; [discriminate|]. intros [x [= H _]]. congruence.
Qed.

(** The filter keeps a path exactly when it is the prefix or continues
    it with a dot or an opening bracket. *)
Lemma filter_match_extends prefix p :
  filter_match prefix p = true <-> extends prefix p.
Proof.
  unfold filter_match, extends. rewrite !orb_true_iff, String.eqb_eq.
  rewrite !prefix_app_iff. split.
  - intros [[->|[x ->]]|[x ->]].
    + exists EmptyString. now rewrite string_app_nil_r.
    + exists ("." ++ x)%string. now rewrite string_app_assoc.
    + exists ("[" ++ x)%string. now rewrite string_app_assoc.
  - intros (e & He & ->). destruct e as [|c e].
    + left. left. apply string_app_nil_r.
    + simpl in He. apply orb_true_iff in He as [E|E];
        apply Ascii.eqb_eq in E; subst c.
      * left. right. exists e. now rewrite string_app_assoc.
      * right. exists e. now rewrite string_app_assoc.
Qed.

Lemma is_extension_app e0 e :
  is_extension e0 = true -> is_extension e = true ->
  is_extension (e0 ++ e) = true.
Proof. destruct e0; simpl; auto. Qed.

Lemma extends_trans path e0 q :
  is_extension e0 = true -> extends (path ++ e0) q -> extends path q.
Proof.
  intros He0 (e & He & ->). exists (e0 ++ e)%string.
  split; [now apply is_extension_app|apply string_app_assoc].
Qed.

Lemma filter_rows_all prefix rows :
  (forall r, In r rows -> extends prefix (row_path r)) ->
  filter_rows rows prefix = rows.
Proof.
  intros H. unfold filter_rows. apply forallb_filter_id.
  apply forallb_forall. intros r Hr. apply filter_match_extends. auto.
Qed.

Lemma filter_rows_none prefix rows :
  (forall r, In r rows -> ~ extends prefix (row_path r)) ->
  filter_rows rows prefix = [].
Proof.
  intros H. unfold filter_rows. induction rows as [|r rows IH]; simpl;
    [reflexivity|].
  destruct (filter_match prefix (row_path r)) eqn:E.
  - apply filter_match_extends in E. exfalso. apply (H r); simpl; auto.
  - apply IH. intros r' Hr'. apply H. now right.
Qed.

Lemma filter_rows_app prefix a b :
  filter_rows (a ++ b) prefix = filter_rows a prefix ++ filter_rows b prefix.
Proof. apply filter_app. Qed.

(** Among the rows of the children of an object, the filter at a path
    below the child under [k] keeps rows of that child only. *)
Lemma filter_items_select path root_level items k child e0 :
  NoDup (Dict.keys items) ->
  forallb (fun kv => plain_key (fst kv) && plain_keys (snd kv)) items = true ->
  In (k, child) items ->
  is_extension e0 = true ->
  filter_rows (flatten_items path root_level items)
    (child_path path root_level (SKey k) ++ e0)
  = filter_rows (flatten child (child_path path root_level (SKey k)) false)
      (child_path path root_level (SKey k) ++ e0).
Proof.
  intros Hnd Hpl Hin He0.
  assert (Hk : plain_key k = true).
  { rewrite forallb_forall in Hpl. specialize (Hpl _ Hin).
    now apply andb_true_iff in Hpl as [Hk _]. }
  assert (Hother : forall k' v',
             In (k', v') items -> k' <> k ->
             filter_rows
               (flatten v' (child_path path root_level (SKey k')) false)
               (child_path path root_level (SKey k) ++ e0) = []).
  { intros k' v' Hin' Hne. apply filter_rows_none. intros r Hr Hext.
    apply flatten_rows_extend in Hr. apply extends_trans in Hext; auto.
    assert (Hk' : plain_key k' = true).
    { rewrite forallb_forall in Hpl. specialize (Hpl _ Hin').
      now apply andb_true_iff in Hpl as [Hk' _]. }
    apply Hne. symmetry.
    eapply (child_key_disjoint path root_level); eassumption. }
  clear Hpl. induction items as [|[k0 v0] items IH]; [contradiction|].
  simpl flatten_items. rewrite filter_rows_app.
  simpl in Hnd. apply NoDup_cons_iff in Hnd as [Hnin Hnd].
  destruct Hin as [[= -> ->]|Hin].
  - assert (Hrest : filter_rows (flatten_items path root_level items)
                      (child_path path root_level (SKey k) ++ e0) = []).
    { apply filter_rows_none. intros r Hr Hext.
      apply flatten_items_inv in Hr as (k' & v' & Hin' & Hr).
      assert (Hne : k' <> k).
      { intros ->. apply Hnin. change (In (fst (k, v')) (map fst items)).
        now apply in_map. }
      pose proof (Hother k' v' (or_intror Hin') Hne) as Hnone.
      unfold filter_rows in Hnone.
      assert (Hin2 : In r (filter
                             (fun r => filter_match
                                (child_path path root_level (SKey k) ++ e0)
                                (row_path r))
                             (flatten v'
                                (child_path path root_level (SKey k')) false))).
      { apply filter_In. split; [assumption|].
        now apply filter_match_extends. }
      rewrite Hnone in Hin2. contradiction. }
    simpl child_path in *. rewrite Hrest. apply app_nil_r.
  - assert (Hne : k0 <> k).
    { intros ->. apply Hnin. change (In (fst (k, child)) (map fst items)).
      now apply in_map. }
    pose proof (Hother k0 v0 (or_introl eq_refl) Hne) as Hnone.
    simpl child_path in *. rewrite Hnone. simpl.
    apply IH; auto. intros k' v' Hin' Hne'. apply Hother; auto. now right.
Qed.

(** The same for the elements of an array. *)
Lemma filter_elems_select path i0 elems n e0 :
  (n < List.length elems)%nat ->
  is_extension e0 = true ->
  filter_rows (flatten_elems path i0 elems) (bracketed path (i0 + n) ++ e0)
  = filter_rows (flatten (nth n elems JNull) (bracketed path (i0 + n)) false)
      (bracketed path (i0 + n) ++ e0).
Proof.
  intros Hn He0. revert i0 n Hn.
  induction elems as [|v elems IH]; intros i0 n Hn; simpl in Hn; [lia|].
  simpl flatten_elems. rewrite filter_rows_app.
  destruct n as [|n].
  - rewrite Nat.add_0_r.
    assert (Hrest : filter_rows (flatten_elems path (S i0) elems)
                      (bracketed path i0 ++ e0) = []).
    { apply filter_rows_none. intros r Hr Hext.
      apply flatten_elems_inv in Hr as (m & Hm & Hr).
      apply flatten_rows_extend in Hr. apply extends_trans in Hext; auto.
      pose proof (bracketed_disjoint _ _ _ _ Hext Hr). lia. }
    simpl nth. rewrite Hrest. apply app_nil_r.
  - assert (Hfirst : filter_rows (flatten v (bracketed path i0) false)
                       (bracketed path (i0 + S n) ++ e0) = []).
    { apply filter_rows_none. intros r Hr Hext.
      apply flatten_rows_extend in Hr. apply extends_trans in Hext; auto.
      pose proof (bracketed_disjoint _ _ _ _ Hext Hr). lia. }
    rewrite Hfirst. simpl.
    replace (i0 + S n)%nat with (S i0 + n)%nat by lia.
    apply IH. lia.
Qed.

Lemma filter_rows_header prefix hdr rows :
  ~ extends prefix (row_path hdr) ->
  filter_rows (hdr :: rows) prefix = filter_rows rows prefix.
Proof.
  intros H. unfold filter_rows. simpl.
  destruct (filter_match prefix (row_path hdr)) eqn:E; [|reflexivity].
  apply filter_match_extends in E. contradiction.
Qed.

Lemma plain_keys_object items k v :
  plain_keys (JObj items) = true -> In (k, v) items ->
  plain_key k = true /\ plain_keys v = true.
Proof.
  simpl. intros H Hin. rewrite forallb_forall in H.
  specialize (H _ Hin). now apply andb_true_iff in H.
Qed.

Lemma child_path_longer path seg e0 :
  is_extension e0 = true ->
  ~ extends (child_path path false seg ++ e0) path.
Proof.
  intros He0 H. apply extends_trans in H; [|assumption].
  destruct seg as [k|i].
  - now apply (extends_longer path "." k) in H.
  - now apply (extends_longer path "["
                 (str_of_nat (Z.to_nat i) ++ "]")) in H.
Qed.

(** Below the root level: the filter at the path of a node keeps the
    rows of that node and nothing else. *)
Lemma filter_subtree_below segments :
  Forall index_nonneg segments ->
  forall v path p k p' k' node,
    wf_json v = true -> plain_keys v = true ->
    navigate_loop p k v segments = Ok (p', k', node) ->
    filter_rows (flatten v path false) (path_from path false segments)
    = flatten node (path_from path false segments) false.
Proof.
  induction 1 as [|seg rest Hseg _ IH];
    intros v path p k p' k' node Hwf Hpl.
  - intros [= _ _ <-]. apply filter_rows_all.
    intros r Hr. now apply flatten_rows_extend in Hr.
  - cbn [navigate_loop path_from].
    destruct (navigate_step v seg) as [child|e] eqn:Hstep;
      [|discriminate].
    unfold bind. intros Hnav.
    specialize (IH child (child_path path false seg) (Some v) (Some seg)
                  p' k' node).
    rewrite path_from_suffix in *.
    pose proof (path_suffix_extension rest) as Hext.
    destruct seg as [key|i]; simpl in Hstep; destruct v; try discriminate.
    + destruct (Dict.get key items) as [c|] eqn:G; [|discriminate].
      injection Hstep as ->. apply dict_get_In in G.
      apply wf_json_object in Hwf as [Hnd Hwf].
      destruct (plain_keys_object _ _ _ Hpl G) as [_ Hplc].
      rewrite flatten_object.
      rewrite filter_rows_header by now apply child_path_longer.
      rewrite (filter_items_select path false items key child
                 (path_suffix rest) Hnd Hpl G Hext).
      apply IH; eauto.
    + destruct (_ && _)%bool eqn:R; [|discriminate].
      injection Hstep as <-. apply in_range_spec in R. simpl in Hseg.
      assert (Hn : (Z.to_nat i < List.length elems)%nat)
        by (unfold Zlen in R; lia).
      assert (Hget : list_getitem elems i = nth (Z.to_nat i) elems JNull).
      { unfold list_getitem, norm_index.
        assert (E : (i <? 0)%Z = false) by (apply Z.ltb_ge; lia).
        now rewrite E. }
      rewrite Hget in *.
      pose proof (nth_In elems JNull Hn) as Hin.
      simpl in Hwf, Hpl. rewrite forallb_forall in Hwf, Hpl.
      rewrite flatten_array.
      rewrite filter_rows_header by now apply child_path_longer.
      change (child_path path false (SIdx i))
        with (bracketed path (0 + Z.to_nat i)) in *.
      rewrite (filter_elems_select path 0 elems (Z.to_nat i)
                 (path_suffix rest) Hn Hext).
      apply IH; eauto.
Qed.

Lemma filter_rows_subtree
  (data : json) (segments : list segment) (parent : option json)
  (key : option segment) (node : json) :
  wf_json data = true -> plain_keys data = true ->
  no_root_key data = true ->
  Forall index_nonneg segments -> segments <> [] ->
  navigate data segments = Ok (parent, key, node) ->
  filter_rows (flatten data "root" true) (path_of segments)
  = flatten node (path_of segments) false.
Proof.
  intros Hwf Hpl Hroot Hnn Hne. unfold navigate, path_of.
  destruct segments as [|seg rest]; [contradiction|].
  apply Forall_cons_iff in Hnn as [Hseg Hnn].
  cbn [navigate_loop path_from].
  destruct (navigate_step data seg) as [child|e] eqn:Hstep; [|discriminate].
  unfold bind. intros Hnav.
  pose proof (path_suffix_extension rest) as Hext.
  destruct seg as [k|i]; simpl in Hstep; destruct data; try discriminate.
  - destruct (Dict.get k items) as [c|] eqn:G; [|discriminate].
    injection Hstep as ->. apply dict_get_In in G.
    apply wf_json_object in Hwf as [Hnd Hwf].
    destruct (plain_keys_object _ _ _ Hpl G) as [Hk Hplc].
    pose proof (filter_subtree_below rest Hnn child
                  (child_path "root" true (SKey k)) _ _ _ _ _
                  (Hwf _ _ G) Hplc Hnav) as Hsub.
    rewrite path_from_suffix in *.
    rewrite flatten_object. rewrite filter_rows_header.
    + rewrite (filter_items_select "root" true items k child
                 (path_suffix rest) Hnd Hpl G Hext).
      exact Hsub.
    + intros Hx. apply extends_trans in Hx; [|assumption].
      destruct Hx as (e & He & Hx). simpl in Hx.
      assert (Heq : "root" = k)
        by (apply (plain_key_split "root" k EmptyString e); auto).
      subst k. unfold no_root_key in Hroot. apply negb_true_iff in Hroot.
      assert (X : existsb (String.eqb "root") (map fst items) = true).
      { apply existsb_exists. exists "root". split; [|reflexivity].
        change (In (fst ("root", child)) (map fst items)). now apply in_map. }
      congruence.
  - exact (filter_subtree_below (SIdx i :: rest)
             (Forall_cons _ Hseg Hnn) (JArr elems) "root" None None _ _ _
             Hwf Hpl
             ltac:(cbn [navigate_loop]; simpl navigate_step;
                   rewrite Hstep; exact Hnav)).
Qed.

(** X16.  Filtering the flat view of a document at the path of a node below
    the root shows the node's subtree and nothing else: for a
    well-formed document whose keys have neither dots nor opening
    brackets and whose root object has no key root, the rows kept at
    the composed path of non-negative segments that resolve are
    exactly the rows of flattening the node they resolve to, at that
    path. *)
Theorem filter_rows_shows_subtree
  (data : json) (segments : list segment) (parent : option json)
  (key : option segment) (node : json) :
  wf_json data = true -> plain_keys data = true ->
  no_root_key data = true ->
  Forall index_nonneg segments -> segments <> [] ->
  navigate data segments = Ok (parent, key, node) ->
  filter_rows (flatten data "root" true) (path_of segments)
  = flatten node (path_of segments) false.
Proof. apply filter_rows_subtree. Qed.

Lemma filter_rows_shows_subtree_witness :
  filter_rows
    (flatten (JObj [("a", JArr [JInt 1; JObj [("x", JInt 7)]]);
                    ("ab", JInt 2)]) "root" true)
    (path_of [SKey "a"; SIdx 1])
  = flatten (JObj [("x", JInt 7)]) (path_of [SKey "a"; SIdx 1]) false.
Proof.
  apply (filter_rows_shows_subtree
           (JObj [("a", JArr [JInt 1; JObj [("x", JInt 7)]]); ("ab", JInt 2)])
           [SKey "a"; SIdx 1]
           (Some (JArr [JInt 1; JObj [("x", JInt 7)]])) (Some (SIdx 1))
           (JObj [("x", JInt 7)])); try reflexivity.
  - repeat constructor; simpl; lia.
  - discriminate.
Defined.

(** X17.  Filtering at the root.  For an array or a primitive document every
    row is kept.  For an object document whose keys have neither dots
    nor opening brackets and none of which is root, only the root row
    is kept: the children carry bare keys, which the prefix root does
    not match. *)
Theorem filter_rows_at_root (data : json) :
  plain_keys data = true -> no_root_key data = true ->
  filter_rows (flatten data "root" true) "root"
  = match data with
    | JObj _ => [("root", "object", row_marker data)]
    | _ => flatten data "root" true
    end.
Proof.
  intros Hpl Hroot.
  destruct data as [| | | | |items|elems];
    try (match goal with
         | |- filter_rows (flatten ?d _ _) _ = flatten _ _ _ =>
             apply filter_rows_all; intros r Hr;
             exact (flatten_rows_extend d "root" r Hr)
         end).
  rewrite flatten_object. unfold filter_rows. simpl filter.
  change (filter_match "root" (row_path ("root", "object",
                                         row_marker (JObj items))))
    with true. cbv iota. f_equal.
  apply filter_rows_none. intros r Hr Hext.
  apply flatten_items_inv in Hr as (k & v & Hin & Hr).
  apply flatten_rows_extend in Hr. destruct Hr as (e & He & Hq).
  destruct Hext as (e' & He' & Hq'). simpl in Hq. rewrite Hq in Hq'.
  destruct (plain_keys_object _ _ _ Hpl Hin) as [Hk _].
  assert (Heq : k = "root")
    by (apply (plain_key_split k "root" e e'); auto).
  subst k. unfold no_root_key in Hroot. apply negb_true_iff in Hroot.
  assert (X : existsb (String.eqb "root") (map fst items) = true).
  { apply existsb_exists. exists "root". split; [|reflexivity].
    change (In (fst ("root", v)) (map fst items)). now apply in_map. }
  congruence.
Qed.

Lemma filter_rows_at_root_witness :
  filter_rows (flatten (JObj [("a", JInt 1); ("b", JArr [])]) "root" true)
    "root"
  = [("root", "object", row_marker (JObj [("a", JInt 1); ("b", JArr [])]))].
Proof.
  apply (filter_rows_at_root (JObj [("a", JInt 1); ("b", JArr [])]));
    reflexivity.
Defined.

(* ================================================================== *)
(** * Element paging *)

Lemma groups_get_None idx groups :
  groups_get idx groups = None
  <-> existsb (Z.eqb idx) (map fst groups) = false.
Proof.
  induction groups as [|[i rs] groups IH]; simpl; [tauto|].
  destruct (Z.eqb idx i); simpl; [split; discriminate|exact IH].
Qed.

Lemma groups_append_keys idx r groups :
  map fst (groups_append idx r groups) = map fst groups.
Proof.
  induction groups as [|[i rs] groups IH]; simpl; [reflexivity|].
  destruct (Z.eqb idx i); simpl; [reflexivity|now rewrite IH].
Qed.

Lemma groups_get_append idx j r groups :
  groups_get j (groups_append idx r groups)
  = match groups_get j groups with
    | Some rs => Some (if Z.eqb j idx then rs ++ [r] else rs)
    | None => None
    end.
Proof.
  induction groups as [|[i rs] groups IH]; simpl; [reflexivity|].
  destruct (Z.eqb idx i) eqn:E; simpl.
  - apply Z.eqb_eq in E. subst i.
    destruct (Z.eqb j idx); [reflexivity|].
    now destruct (groups_get j groups).
  - destruct (Z.eqb j i) eqn:E'; [|exact IH].
    apply Z.eqb_eq in E'. subst i.
    rewrite Z.eqb_sym, E. reflexivity.
Qed.

Lemma groups_get_new idx j groups :
  groups_get j (groups ++ [(idx, [])])
  = match groups_get j groups with
    | Some rs => Some rs
    | None => if Z.eqb j idx then Some [] else None
    end.
Proof.
  induction groups as [|[i rs] groups IH]; simpl; [reflexivity|].
  destruct (Z.eqb j i); [reflexivity|exact IH].
Qed.

(** What the loop leaves behind, for any state it starts from in which
    the keys of [groups] are the indices of [order]. *)
Lemma group_elements_spec filter_path rows :
  forall header_rows groups order,
    map fst groups = order ->
    let '(header_rows', groups', order') :=
      group_elements filter_path rows header_rows groups order in
    header_rows' = header_rows ++ header_rows_of filter_path rows
    /\ order' = order ++ element_order filter_path order rows
    /\ forall idx,
        groups_get idx groups' =
          match groups_get idx groups with
          | Some rs => Some (rs ++ rows_of_element filter_path idx rows)
          | None =>
              if existsb (Z.eqb idx) (element_order filter_path order rows)
              then Some (rows_of_element filter_path idx rows)
              else None
          end.
Proof.
  induction rows as [|r rows IH]; intros header_rows groups order Hkeys.
  - simpl. rewrite !app_nil_r. repeat split.
    intros idx. destruct (groups_get idx groups); [|reflexivity].
    now rewrite app_nil_r.
  - simpl group_elements. unfold header_rows_of, rows_of_element.
    simpl element_order. simpl filter.
    destruct (elem_index filter_path (row_path r)) as [i|] eqn:Hidx.
    + destruct (groups_get i groups) as [rs0|] eqn:Hget.
      * assert (Hseen : existsb (Z.eqb i) order = true).
        { destruct (existsb (Z.eqb i) order) eqn:E; [reflexivity|].
          rewrite <- Hkeys in E. apply groups_get_None in E. congruence. }
        rewrite Hseen.
        specialize (IH header_rows (groups_append i r groups) order).
        rewrite groups_append_keys in IH. specialize (IH Hkeys).
        destruct (group_elements filter_path rows header_rows
                    (groups_append i r groups) order) as [[h' g'] o'].
        destruct IH as (Hh & Ho & Hg). split; [exact Hh|].
        split; [exact Ho|]. intros idx. rewrite Hg, groups_get_append.
        destruct (Z.eqb idx i) eqn:E.
        -- apply Z.eqb_eq in E. subst idx. rewrite Hget.
           now rewrite <- app_assoc.
        -- destruct (groups_get idx groups); reflexivity.
      * assert (Hseen : existsb (Z.eqb i) order = false).
        { rewrite <- Hkeys. now apply groups_get_None. }
        rewrite Hseen.
        specialize (IH header_rows
                      (groups_append i r (groups ++ [(i, [])]))
                      (order ++ [i])).
        rewrite groups_append_keys, map_app, Hkeys in IH.
        specialize (IH eq_refl).
        destruct (group_elements filter_path rows header_rows
                    (groups_append i r (groups ++ [(i, [])]))
                    (order ++ [i])) as [[h' g'] o'].
        destruct IH as (Hh & Ho & Hg). split; [exact Hh|].
        split; [now rewrite Ho, <- app_assoc|].
        intros idx. rewrite Hg, groups_get_append, groups_get_new.
        simpl existsb.
        destruct (Z.eqb idx i) eqn:E.
        -- apply Z.eqb_eq in E. subst idx. rewrite Hget. reflexivity.
        -- destruct (groups_get idx groups); reflexivity.
    + specialize (IH (header_rows ++ [r]) groups order Hkeys).
      destruct (group_elements filter_path rows (header_rows ++ [r])
                  groups order) as [[h' g'] o'].
      destruct IH as (Hh & Ho & Hg). split; [|split; assumption].
      now rewrite Hh, <- app_assoc.
Qed.

Lemma collect_groups_spec filter_path rows groups header_rows kept :
  (forall idx, In idx kept ->
               groups_get idx groups
               = Some (rows_of_element filter_path idx rows)) ->
  collect_groups header_rows groups kept
  = header_rows
      ++ flat_map (fun idx => rows_of_element filter_path idx rows) kept.
Proof.
  intros H. unfold collect_groups. f_equal.
  induction kept as [|i kept IH]; simpl; [reflexivity|].
  rewrite (H i) by now left. f_equal. apply IH.
  intros idx Hin. apply H. now right.
Qed.

Lemma In_existsb_Z idx l : In idx l -> existsb (Z.eqb idx) l = true.
Proof.
  intros H. apply existsb_exists. exists idx. split; [assumption|].
  apply Z.eqb_refl.
Qed.

Lemma elem_rows_eq (rows : list row) (filter_path : string) (k : Z) :
  elem_limit_rows rows filter_path k
  = (header_rows_of filter_path rows
       ++ flat_map (fun idx => rows_of_element filter_path idx rows)
            (slice_to (element_order filter_path [] rows) k),
     List.length (element_order filter_path [] rows))
  /\ elem_offset_rows rows filter_path k
     = (header_rows_of filter_path rows
          ++ flat_map (fun idx => rows_of_element filter_path idx rows)
               (slice_from (element_order filter_path [] rows) k),
        List.length (element_order filter_path [] rows)).
Proof.
  unfold elem_limit_rows, elem_offset_rows.
  pose proof (group_elements_spec filter_path rows [] [] [] eq_refl) as H.
  destruct (group_elements filter_path rows [] [] []) as [[h g] o].
  destruct H as (-> & -> & Hg). simpl app in *.
  assert (Hin : forall idx,
             In idx (element_order filter_path [] rows) ->
             groups_get idx g = Some (rows_of_element filter_path idx rows)).
  { intros idx Hidx. rewrite Hg. simpl. now rewrite In_existsb_Z. }
  split; f_equal; apply collect_groups_spec; intros idx Hidx; apply Hin.
  - unfold slice_to in Hidx.
    rewrite <- (firstn_skipn
                  (slice_bound
                     (List.length (element_order filter_path [] rows)) k)).
    apply in_or_app. now left.
  - unfold slice_from in Hidx.
    rewrite <- (firstn_skipn
                  (slice_bound
                     (List.length (element_order filter_path [] rows)) k)).
    apply in_or_app. now right.
Qed.

(** X18.  The two paging functions, said at once.  Both return the rows that
    are no element rows of the filter path, in their order, followed by
    the rows of the kept elements, element by element in the order in
    which the element indices first appear and each element's rows in
    their order; [elem_limit_rows] keeps the first [elem_count] of these
    indices and [elem_offset_rows] drops the first [elem_skip] (with
    Python's slice rules for any integer), and both report the number
    of distinct element indices. *)
Theorem elem_paging_spec (rows : list row) (filter_path : string) (k : Z) :
  elem_limit_rows rows filter_path k
  = (header_rows_of filter_path rows
       ++ flat_map (fun idx => rows_of_element filter_path idx rows)
            (slice_to (element_order filter_path [] rows) k),
     List.length (element_order filter_path [] rows))
  /\ elem_offset_rows rows filter_path k
     = (header_rows_of filter_path rows
          ++ flat_map (fun idx => rows_of_element filter_path idx rows)
               (slice_from (element_order filter_path [] rows) k),
        List.length (element_order filter_path [] rows)).
Proof. exact (elem_rows_eq rows filter_path k). Qed.

(* ================================================================== *)
(** * Command suggestion *)

Lemma edit_nil_r a : edit a [] = List.length a.
Proof. destruct a; reflexivity. Qed.

Lemma edit_cons x a y b :
  edit (x :: a) (y :: b)
  = if Ascii.eqb x y then edit a b
    else S (Nat.min (Nat.min (edit a b) (edit a (y :: b))) (edit (x :: a) b)).
Proof. reflexivity. Qed.

Lemma lev_row_spec ai ra b :
  forall rb,
    lev_row ai b (edit ra rb) (edit (ai :: ra) rb) (row_from ra rb b)
    = row_from (ai :: ra) rb b.
Proof.
  induction b as [|bj b IH]; intros rb; [reflexivity|].
  cbn [row_from lev_row]. rewrite edit_cons.
  destruct (Ascii.eqb ai bj) eqn:E.
  - f_equal. rewrite <- IH. rewrite edit_cons, E. reflexivity.
  - f_equal. rewrite <- IH. rewrite edit_cons, E. reflexivity.
Qed.

Lemma lev_rows_spec a b :
  forall ra,
    lev_rows a b (S (List.length ra)) (edit ra [] :: row_from ra [] b)
    = edit (List.rev (list_ascii_of_string a) ++ ra) []
        :: row_from (List.rev (list_ascii_of_string a) ++ ra) [] b.
Proof.
  induction a as [|ai a IH]; intros ra; [reflexivity|].
  cbn [lev_rows list_ascii_of_string List.rev].
  rewrite <- app_assoc.
  change ([ai] ++ ra) with (ai :: ra).
  rewrite <- (IH (ai :: ra)).
  rewrite <- lev_row_spec, !edit_nil_r. reflexivity.
Qed.

Lemma row_from_nil rb b :
  row_from [] rb b = seq (S (List.length rb)) (String.length b).
Proof.
  revert rb. induction b as [|bj b IH]; intros rb; [reflexivity|].
  simpl. f_equal. apply IH.
Qed.

Lemma row_from_last ra b :
  forall rb,
    nth (String.length b) (edit ra rb :: row_from ra rb b) 0%nat
    = edit ra (List.rev (list_ascii_of_string b) ++ rb).
Proof.
  induction b as [|bj b IH]; intros rb; [reflexivity|].
  cbn [String.length nth row_from list_ascii_of_string List.rev].
  rewrite <- app_assoc. apply IH.
Qed.

(** The table computes the edit distance of the recurrence, on the two
    strings read from their last character. *)
Lemma levenshtein_edit a b :
  _levenshtein a b
  = edit (List.rev (list_ascii_of_string a)) (List.rev (list_ascii_of_string b)).
Proof.
  unfold _levenshtein.
  assert (E : seq 0 (S (String.length b)) = edit [] [] :: row_from [] [] b)
    by (rewrite row_from_nil; reflexivity).
  rewrite E.
  change 1%nat with (S (@List.length ascii [])).
  rewrite (lev_rows_spec a b []). rewrite row_from_last.
  now rewrite !app_nil_r.
Qed.

Lemma edit_refl a : edit a a = 0%nat.
Proof.
  induction a as [|x a IH]; [reflexivity|].
  rewrite edit_cons, Ascii.eqb_refl. exact IH.
Qed.

Lemma edit_zero a : forall b, edit a b = 0%nat -> a = b.
Proof.
  induction a as [|x a IH]; intros [|y b].
  - reflexivity.
  - discriminate.
  - discriminate.
  - rewrite edit_cons. destruct (Ascii.eqb x y) eqn:E; [|discriminate].
    apply Ascii.eqb_eq in E. subst y. intros H. f_equal. now apply IH.
Qed.

Lemma edit_le_max a :
  forall b, (edit a b <= Nat.max (List.length a) (List.length b))%nat.
Proof.
  induction a as [|x a IH]; intros b; [simpl; lia|].
  induction b as [|y b IHb]; [simpl; lia|].
  rewrite edit_cons. specialize (IH b). simpl List.length in *.
  destruct (Ascii.eqb x y); lia.
Qed.

Lemma edit_ge_diff a :
  forall b,
    (List.length a - List.length b <= edit a b)%nat
    /\ (List.length b - List.length a <= edit a b)%nat.
Proof.
  induction a as [|x a IH]; intros b; [simpl; lia|].
  induction b as [|y b IHb]; [simpl; lia|].
  rewrite edit_cons. pose proof (IH b). pose proof (IH (y :: b)).
  simpl List.length in *.
  destruct (Ascii.eqb x y); lia.
Qed.

Lemma list_ascii_of_string_inj a b :
  list_ascii_of_string a = list_ascii_of_string b -> a = b.
Proof.
  intros H. apply (f_equal string_of_list_ascii) in H.
  now rewrite !string_of_list_ascii_of_string in H.
Qed.

Lemma length_list_ascii s :
  List.length (list_ascii_of_string s) = String.length s.
Proof. induction s; simpl; auto. Qed.

Lemma levenshtein_zero a b : _levenshtein a b = 0%nat <-> a = b.
Proof.
  rewrite levenshtein_edit. split.
  - intros H. apply edit_zero in H. apply (f_equal (@List.rev ascii)) in H.
    rewrite !rev_involutive in H. now apply list_ascii_of_string_inj.
  - intros ->. apply edit_refl.
Qed.

(** X19.  The distance the suggestion uses is 0 exactly for equal strings, is
    the length of one string when the other is empty, never exceeds
    the longer length and is at least the difference of the lengths. *)
Theorem levenshtein_facts (a b : string) :
  (_levenshtein a b = 0%nat <-> a = b)
  /\ _levenshtein a EmptyString = String.length a
  /\ _levenshtein EmptyString b = String.length b
  /\ (_levenshtein a b <= Nat.max (String.length a) (String.length b))%nat
  /\ (String.length a - String.length b <= _levenshtein a b)%nat
  /\ (String.length b - String.length a <= _levenshtein a b)%nat.
Proof.
  split; [apply levenshtein_zero|].
  rewrite !levenshtein_edit. split; [|split; [|split]].
  - simpl. now rewrite edit_nil_r, length_rev, length_list_ascii.
  - simpl. now rewrite length_rev, length_list_ascii.
  - pose proof (edit_le_max (List.rev (list_ascii_of_string a))
                  (List.rev (list_ascii_of_string b))) as H.
    now rewrite !length_rev, !length_list_ascii in H.
  - pose proof (edit_ge_diff (List.rev (list_ascii_of_string a))
                  (List.rev (list_ascii_of_string b))) as H.
    now rewrite !length_rev, !length_list_ascii in H.
Qed.

Lemma insert_by_distance_perm x l :
  Permutation (insert_by_distance x l) (x :: l).
Proof.
  induction l as [|y l IH]; simpl; [apply Permutation_refl|].
  destruct (snd x <=? snd y)%nat; [apply Permutation_refl|].
  eapply Permutation_trans; [apply perm_skip, IH|apply perm_swap].
Qed.

Lemma sort_by_distance_perm l : Permutation (sort_by_distance l) l.
Proof.
  induction l as [|x l IH]; simpl; [constructor|].
  eapply Permutation_trans; [apply insert_by_distance_perm|].
  now apply perm_skip.
Qed.

Lemma insert_by_distance_sorted x l :
  StronglySorted (fun a b => (snd a <= snd b)%nat) l ->
  StronglySorted (fun a b => (snd a <= snd b)%nat) (insert_by_distance x l).
Proof.
  induction 1 as [|y l Hl IH Hy]; simpl; [repeat constructor|].
  destruct (snd x <=? snd y)%nat eqn:E.
  - apply Nat.leb_le in E. constructor; [now constructor|].
    constructor; [assumption|].
    eapply Forall_impl; [|exact Hy]. simpl. intros a Ha. lia.
  - apply Nat.leb_gt in E. constructor; [assumption|].
    eapply Permutation_Forall;
      [apply Permutation_sym, insert_by_distance_perm|].
    constructor; [lia|assumption].
Qed.

Lemma sort_by_distance_sorted l :
  StronglySorted (fun a b => (snd a <= snd b)%nat) (sort_by_distance l).
Proof.
  induction l as [|x l IH]; simpl; [constructor|].
  now apply insert_by_distance_sorted.
Qed.

Lemma sorted_map_fst (dist : string -> nat) l :
  Forall (fun cd => snd cd = dist (fst cd)) l ->
  StronglySorted (fun a b => (snd a <= snd b)%nat) l ->
  StronglySorted (fun c1 c2 => (dist c1 <= dist c2)%nat) (map fst l).
Proof.
  intros Hd Hs. induction Hs as [|x l Hl IH Hx]; simpl; [constructor|].
  apply Forall_cons_iff in Hd as [Hx0 Hd]. constructor; [auto|].
  apply Forall_map. rewrite Forall_forall in *.
  intros y Hy. rewrite <- Hx0, <- (Hd y Hy). auto.
Qed.

(** X20.  The suggestions for an unknown command.  They are exactly the
    known commands whose edit distance to the lower-cased input is at
    most max(2, len(input) // 2); they come in order of non-decreasing
    distance; and when the lower-cased input is itself a command, that
    command is the first suggestion. *)
Theorem suggest_commands_spec (typo : string) :
  let dist := _levenshtein (lower typo) in
  (forall c,
      In c (suggest_commands typo) <->
      In c COMMANDS
      /\ (dist c <= Nat.max 2 (String.length typo / 2))%nat)
  /\ StronglySorted (fun c1 c2 => (dist c1 <= dist c2)%nat)
       (suggest_commands typo)
  /\ (In (lower typo) COMMANDS ->
      exists rest, suggest_commands typo = lower typo :: rest).
Proof.
  intros dist. unfold suggest_commands. fold dist.
  set (threshold := Nat.max 2 (String.length typo / 2)).
  set (close := filter (fun cd => (snd cd <=? threshold)%nat)
                  (map (fun c => (c, dist c)) COMMANDS)).
  assert (Hform : Forall (fun cd => snd cd = dist (fst cd))
                    (sort_by_distance close)).
  { eapply Permutation_Forall;
      [apply Permutation_sym, sort_by_distance_perm|].
    apply Forall_forall. intros cd Hcd. unfold close in Hcd.
    apply filter_In in Hcd as [Hcd _].
    apply in_map_iff in Hcd as (c & <- & _). reflexivity. }
  assert (Hmem : forall c,
             In c (map fst (sort_by_distance close)) <->
             In c COMMANDS /\ (dist c <= threshold)%nat).
  { intros c. rewrite in_map_iff. split.
    - intros (cd & <- & Hcd).
      apply (Permutation_in _ (sort_by_distance_perm close)) in Hcd.
      unfold close in Hcd. apply filter_In in Hcd as [Hcd Hle].
      apply in_map_iff in Hcd as (c & <- & Hc). simpl in *.
      apply Nat.leb_le in Hle. auto.
    - intros [Hc Hle]. exists (c, dist c). split; [reflexivity|].
      apply (Permutation_in _ (Permutation_sym (sort_by_distance_perm close))).
      unfold close. apply filter_In. split.
      + apply in_map_iff. exists c. auto.
      + simpl. now apply Nat.leb_le. }
  assert (Hsorted : StronglySorted (fun c1 c2 => (dist c1 <= dist c2)%nat)
                      (map fst (sort_by_distance close))).
  { apply sorted_map_fst; [assumption|apply sort_by_distance_sorted]. }
  split; [exact Hmem|]. split; [exact Hsorted|].
  intros Hcmd.
  assert (H0 : dist (lower typo) = 0%nat).
  { unfold dist. now apply levenshtein_zero. }
  assert (Hin : In (lower typo) (map fst (sort_by_distance close))).
  { apply Hmem. split; [assumption|]. rewrite H0. lia. }
  destruct (map fst (sort_by_distance close)) as [|h rest] eqn:E;
    [contradiction|].
  exists rest. f_equal.
  apply StronglySorted_inv in Hsorted as [_ Hh].
  destruct Hin as [->|Hin]; [reflexivity|].
  rewrite Forall_forall in Hh. specialize (Hh _ Hin). rewrite H0 in Hh.
  assert (Hz : dist h = 0%nat) by lia.
  unfold dist in Hz. apply levenshtein_zero in Hz.
  now symmetry.
Qed.

Lemma suggest_commands_spec_witness :
  exists rest, suggest_commands "SET-Null" = lower "SET-Null" :: rest.
Proof.
  apply (proj2 (proj2 (suggest_commands_spec "SET-Null"))).
  simpl. tauto.
Defined.

(* ================================================================== *)
(** ** Schema inference *)

(** *** Sorting and sets of strings *)

Lemma ascii_compare_lt_trans a b c :
  Ascii.compare a b = Lt -> Ascii.compare b c = Lt -> Ascii.compare a c = Lt.
Proof.
  unfold Ascii.compare. rewrite !N.compare_lt_iff. lia.
Qed.

Lemma string_compare_lt_trans s1 : forall s2 s3,
  String.compare s1 s2 = Lt -> String.compare s2 s3 = Lt ->
  String.compare s1 s3 = Lt.
Proof.
  induction s1 as [|a s1 IH]; intros [|b s2] [|c s3]; simpl;
    try discriminate; try reflexivity.
  destruct (Ascii.compare a b) eqn:Eab; try discriminate.
  - apply Ascii.compare_eq_iff in Eab. subst b.
    destruct (Ascii.compare a c) eqn:Eac; try discriminate; auto.
    apply IH.
  - intros _. destruct (Ascii.compare b c) eqn:Ebc; try discriminate.
    + apply Ascii.compare_eq_iff in Ebc. subst c. now rewrite Eab.
    + intros _. now rewrite (ascii_compare_lt_trans a b c).
Qed.

Lemma string_leb_trans s1 s2 s3 :
  String.leb s1 s2 = true -> String.leb s2 s3 = true ->
  String.leb s1 s3 = true.
Proof.
  unfold String.leb.
  destruct (String.compare s1 s2) eqn:E12; try discriminate; intros _;
    destruct (String.compare s2 s3) eqn:E23; try discriminate; intros _.
  - apply String.compare_eq_iff in E12. subst. now rewrite E23.
  - apply String.compare_eq_iff in E12. subst. now rewrite E23.
  - apply String.compare_eq_iff in E23. subst. now rewrite E12.
  - now rewrite (string_compare_lt_trans _ _ _ E12 E23).
Qed.

Lemma insert_sorted_perm k l : Permutation (k :: l) (insert_sorted k l).
Proof.
  induction l as [|k' l IH]; simpl; [reflexivity|].
  destruct (String.leb k k'); [reflexivity|].
  rewrite perm_swap. now apply perm_skip.
Qed.

Lemma sorted_perm l : Permutation l (sorted l).
Proof.
  induction l as [|k l IH]; simpl; [constructor|].
  rewrite <- insert_sorted_perm. now apply perm_skip.
Qed.

Lemma sorted_In k l : In k (sorted l) <-> In k l.
Proof.
  split; apply Permutation_in;
    [apply Permutation_sym|]; apply sorted_perm.
Qed.

Lemma insert_sorted_sorted k l :
  StronglySorted str_le l -> StronglySorted str_le (insert_sorted k l).
Proof.
  induction 1 as [|k' l Hs IH Hall]; simpl.
  - repeat constructor.
  - destruct (String.leb k k') eqn:E.
    + constructor; [now constructor|]. constructor; [exact E|].
      eapply Forall_impl; [|exact Hall].
      intros x Hx. eapply string_leb_trans; eassumption.
    + constructor; [exact IH|].
      eapply Permutation_Forall; [apply insert_sorted_perm|].
      constructor; [|exact Hall].
      destruct (String.leb_total k k') as [H|H]; [congruence|exact H].
Qed.

Lemma sorted_sorted l : StronglySorted str_le (sorted l).
Proof.
  induction l; simpl; [constructor|now apply insert_sorted_sorted].
Qed.

Lemma sorted_nil l : sorted l = [] -> l = [].
Proof.
  intros H. apply Permutation_nil. rewrite <- H. apply Permutation_sym, sorted_perm.
Qed.

Lemma sorted_NoDup l : NoDup l -> NoDup (sorted l).
Proof. apply Permutation_NoDup, sorted_perm. Qed.

Lemma set_in_In t s : set_in t s = true <-> In t s.
Proof.
  unfold set_in. rewrite existsb_exists. split.
  - intros (x & Hx & E). apply String.eqb_eq in E. now subst.
  - intros H. exists t. split; [exact H|apply String.eqb_refl].
Qed.

Lemma set_add_In t k s : In t (set_add k s) <-> t = k \/ In t s.
Proof.
  unfold set_add. destruct (set_in k s) eqn:E.
  - apply set_in_In in E. split; [auto|]. intros [->|H]; auto.
  - rewrite in_app_iff. simpl. intuition congruence.
Qed.

Lemma set_add_NoDup k s : NoDup s -> NoDup (set_add k s).
Proof.
  intros H. unfold set_add. destruct (set_in k s) eqn:E; [exact H|].
  apply NoDup_app; [exact H|repeat constructor; intros []|].
  intros x Hx [<-|[]]. apply set_in_In in Hx. congruence.
Qed.

Lemma set_of_acc l : forall acc t,
  In t (fold_left (fun s k => set_add k s) l acc) <-> In t acc \/ In t l.
Proof.
  induction l as [|k l IH]; intros acc t; simpl; [tauto|].
  rewrite IH, set_add_In. intuition congruence.
Qed.

Lemma set_of_In t l : In t (set_of l) <-> In t l.
Proof. unfold set_of. rewrite set_of_acc. simpl. tauto. Qed.

Lemma set_of_acc_NoDup l : forall acc,
  NoDup acc -> NoDup (fold_left (fun s k => set_add k s) l acc).
Proof.
  induction l as [|k l IH]; intros acc H; simpl; [exact H|].
  apply IH, set_add_NoDup, H.
Qed.

Lemma set_of_NoDup l : NoDup (set_of l).
Proof. apply set_of_acc_NoDup. constructor. Qed.

Lemma collect_types_In schemas : forall types t,
  In t (collect_types types schemas)
  <-> In t types \/ exists s, In s schemas /\ schema_type s = Some t.
Proof.
  induction schemas as [|s rest IH]; intros types t; simpl.
  - split; [auto|]. intros [H|(s & [] & _)]. exact H.
  - rewrite IH. destruct (schema_type s) as [t'|] eqn:E.
    + rewrite set_add_In. split.
      * intros [[->|H]|(s' & Hs' & Ht)]; eauto.
      * intros [H|(s' & [<-|Hs'] & Ht)]; eauto.
        left. left. congruence.
    + split.
      * intros [H|(s' & Hs' & Ht)]; eauto.
      * intros [H|(s' & [<-|Hs'] & Ht)]; eauto. congruence.
Qed.

Lemma collect_types_NoDup schemas : forall types,
  NoDup types -> NoDup (collect_types types schemas).
Proof.
  induction schemas as [|s rest IH]; intros types H; simpl; [exact H|].
  apply IH. destruct (schema_type s); [now apply set_add_NoDup|exact H].
Qed.

(** *** The depth of a schema bounds the recursion of the merge *)

Lemma json_depth_get k d v :
  Dict.get k d = Some v -> (S (json_depth v) <= json_depth (JObj d))%nat.
Proof.
  induction d as [|[k' v'] d IH]; cbn -[Nat.max]; [discriminate|].
  destruct (String.eqb k k').
  - intros [= ->]. apply Nat.le_max_l.
  - intros H. specialize (IH H). cbn -[Nat.max] in IH. lia.
Qed.

Lemma schema_items_depth s :
  (json_depth (schema_items s) <= pred (json_depth s))%nat.
Proof.
  destruct s as [| | | | |d|]; simpl; try lia.
  destruct (Dict.get "items" d) as [i|] eqn:E; [|simpl; lia].
  apply json_depth_get in E. simpl in E. lia.
Qed.

Lemma schema_type_depth s t :
  schema_type s = Some t -> (1 <= json_depth s)%nat.
Proof.
  destruct s as [| | | | |d|]; simpl; try discriminate.
  destruct (Dict.get "type" d) as [v|] eqn:E; [|discriminate].
  intros _. apply json_depth_get in E. simpl in E. lia.
Qed.

Lemma schemas_depth_In s schemas :
  In s schemas -> (json_depth s <= schemas_depth schemas)%nat.
Proof.
  unfold schemas_depth. intros H.
  assert (Hm := list_max_le (map json_depth schemas)
                  (list_max (map json_depth schemas))).
  apply proj1 in Hm. specialize (Hm (Nat.le_refl _)).
  rewrite Forall_forall in Hm. apply Hm, in_map, H.
Qed.

Lemma schemas_depth_items schemas n :
  (schemas_depth schemas <= S n)%nat ->
  (schemas_depth (map schema_items schemas) <= n)%nat.
Proof.
  unfold schemas_depth. rewrite !list_max_le, !Forall_forall.
  intros H d Hd. rewrite map_map in Hd. apply in_map_iff in Hd.
  destruct Hd as (s & <- & Hs).
  specialize (H (json_depth s) (in_map _ _ _ Hs)).
  pose proof (schema_items_depth s). lia.
Qed.

Lemma collect_types_depth schemas t types :
  collect_types [] schemas = t :: types ->
  (1 <= schemas_depth schemas)%nat.
Proof.
  intros E.
  assert (Hin : In t (collect_types [] schemas)) by (rewrite E; now left).
  apply collect_types_In in Hin. destruct Hin as [[]|(s & Hs & Ht)].
  apply schema_type_depth in Ht. apply schemas_depth_In in Hs. lia.
Qed.

Lemma merge_schemas_fuel_enough fuel : forall schemas,
  (schemas_depth schemas < fuel)%nat ->
  exists s, merge_schemas_fuel fuel schemas = Some s.
Proof.
  induction fuel as [|fuel IH]; intros schemas Hd; [lia|].
  simpl. destruct schemas as [|s1 [|s2 rest]]; eauto.
  destruct (collect_types [] (s1 :: s2 :: rest)) as [|t [|t' types]] eqn:Et;
    eauto.
  destruct (String.eqb t "object"); eauto.
  destruct (String.eqb t "array"); eauto.
  apply collect_types_depth in Et.
  destruct fuel as [|fuel]; [lia|].
  destruct (IH (map schema_items (s1 :: s2 :: rest))) as (m & ->); eauto.
  apply Nat.lt_succ_r, schemas_depth_items. lia.
Qed.

Lemma merge_schemas_fuel_more fuel : forall schemas s,
  merge_schemas_fuel fuel schemas = Some s ->
  merge_schemas_fuel (S fuel) schemas = Some s.
Proof.
  induction fuel as [|fuel IH]; intros schemas s; [discriminate|].
  intros H. change (merge_schemas_fuel (S (S fuel)) schemas)
    with (match schemas with
          | [] => Some (JObj [])
          | [s] => Some s
          | _ =>
              match collect_types [] schemas with
              | [] => Some (JObj [])
              | [t] =>
                  if String.eqb t "object"
                  then Some (merge_object_schemas schemas)
                  else if String.eqb t "array" then
                    match merge_schemas_fuel (S fuel)
                            (map schema_items schemas) with
                    | Some items =>
                        Some (JObj [("type", JStr "array"); ("items", items)])
                    | None => None
                    end
                  else Some (JObj [("type", JStr t)])
              | types => Some (merge_type_names types)
              end
          end).
  simpl in H. destruct schemas as [|s1 [|s2 rest]]; try exact H.
  destruct (collect_types [] (s1 :: s2 :: rest)) as [|t [|t' types]];
    try exact H.
  destruct (String.eqb t "object"); [exact H|].
  destruct (String.eqb t "array"); [|exact H].
  destruct (merge_schemas_fuel fuel (map schema_items (s1 :: s2 :: rest)))
    as [m|] eqn:Em; [|discriminate].
  now rewrite (IH _ _ Em).
Qed.

Lemma merge_schemas_fuel_ge fuel fuel' schemas s :
  (fuel <= fuel')%nat ->
  merge_schemas_fuel fuel schemas = Some s ->
  merge_schemas_fuel fuel' schemas = Some s.
Proof.
  induction 1 as [|fuel' _ IH]; [auto|].
  intros H. apply merge_schemas_fuel_more, IH, H.
Qed.

Lemma merge_schemas_run fuel schemas :
  (schemas_depth schemas < fuel)%nat ->
  merge_schemas_fuel fuel schemas = Some (_merge_schemas schemas).
Proof.
  intros Hd. unfold _merge_schemas.
  destruct (merge_schemas_fuel_enough (S (schemas_depth schemas)) schemas)
    as (s & Es); [lia|].
  rewrite Es. eapply merge_schemas_fuel_ge; [|exact Es]. lia.
Qed.

(** The equation of the source function. *)
Lemma merge_schemas_eq schemas :
  _merge_schemas schemas =
  match schemas with
  | [] => JObj []
  | [s] => s
  | _ =>
      match collect_types [] schemas with
      | [] => JObj []
      | [t] =>
          if String.eqb t "object" then merge_object_schemas schemas
          else if String.eqb t "array" then
            JObj [("type", JStr "array");
                  ("items", _merge_schemas (map schema_items schemas))]
          else JObj [("type", JStr t)]
      | types => merge_type_names types
      end
  end.
Proof.
  assert (H := merge_schemas_run (S (S (schemas_depth schemas))) schemas).
  specialize (H ltac:(lia)).
  change (merge_schemas_fuel (S (S (schemas_depth schemas))) schemas)
    with (match schemas with
          | [] => Some (JObj [])
          | [s] => Some s
          | _ =>
              match collect_types [] schemas with
              | [] => Some (JObj [])
              | [t] =>
                  if String.eqb t "object"
                  then Some (merge_object_schemas schemas)
                  else if String.eqb t "array" then
                    match merge_schemas_fuel (S (schemas_depth schemas))
                            (map schema_items schemas) with
                    | Some items =>
                        Some (JObj [("type", JStr "array"); ("items", items)])
                    | None => None
                    end
                  else Some (JObj [("type", JStr t)])
              | types => Some (merge_type_names types)
              end
          end) in H.
  destruct schemas as [|s1 [|s2 rest]]; try congruence.
  destruct (collect_types [] (s1 :: s2 :: rest)) as [|t [|t' types]] eqn:Et;
    try congruence.
  destruct (String.eqb t "object"); [congruence|].
  destruct (String.eqb t "array"); [|congruence].
  rewrite (merge_schemas_run (S (schemas_depth (s1 :: s2 :: rest)))) in H.
  - congruence.
  - apply collect_types_depth in Et.
    apply Nat.lt_succ_r.
    destruct (schemas_depth (s1 :: s2 :: rest)) as [|n] eqn:En; [lia|].
    etransitivity; [apply (schemas_depth_items _ n); lia|lia].
Qed.

(** *** The schema of a value, field by field *)

Lemma infer_sample_firstn n : forall l,
  infer_sample n l = map _infer (firstn n l).
Proof.
  induction n as [|n IH]; intros [|x l]; simpl; auto. now rewrite IH.
Qed.

Lemma infer_items_map l :
  infer_items l = map (fun kv => (fst kv, _infer (snd kv))) l.
Proof.
  induction l as [|[k v] l IH]; simpl; auto. now rewrite IH.
Qed.

Lemma infer_array elems :
  _infer (JArr elems)
  = JObj [("type", JStr "array");
          ("items", _merge_schemas (map _infer (firstn _SCHEMA_SAMPLE elems)))].
Proof.
  rewrite <- infer_sample_firstn. destruct elems; reflexivity.
Qed.

Lemma infer_object items :
  _infer (JObj items) = object_schema (infer_items items) (required_keys items).
Proof.
  unfold object_schema. destruct items as [|kv items]; [reflexivity|].
  change (_infer (JObj (kv :: items)))
    with (match required_keys (kv :: items) with
          | [] => JObj [("type", JStr "object");
                        ("properties", JObj (infer_items (kv :: items)))]
          | required =>
              JObj (Dict.set "required" (JArr (map JStr required))
                      [("type", JStr "object");
                       ("properties", JObj (infer_items (kv :: items)))])
          end).
  now destruct (required_keys (kv :: items)).
Qed.

Lemma key_names_strings l : key_names (map JStr l) = l.
Proof. induction l; simpl; congruence. Qed.

Lemma object_schema_fields props required :
  schema_type (object_schema props required) = Some "object"
  /\ schema_properties (object_schema props required) = props
  /\ schema_required (object_schema props required) = required
  /\ schema_items (object_schema props required) = JObj [].
Proof.
  unfold object_schema. destruct required as [|r required].
  - repeat split.
  - repeat split. unfold schema_required.
    cbn [List.app Dict.get String.eqb Ascii.eqb Bool.eqb].
    apply key_names_strings.
Qed.

Lemma schema_type_infer data :
  schema_type (_infer data) = Some (get_type_name data).
Proof.
  destruct data as [| | | | |items|elems]; try reflexivity.
  - rewrite infer_object. apply object_schema_fields.
  - now rewrite infer_array.
Qed.

Lemma schema_properties_infer items :
  schema_properties (_infer (JObj items)) = infer_items items.
Proof. rewrite infer_object. apply object_schema_fields. Qed.

Lemma schema_required_infer items :
  schema_required (_infer (JObj items)) = required_keys items.
Proof. rewrite infer_object. apply object_schema_fields. Qed.

Lemma infer_items_get k items :
  Dict.get k (infer_items items) = option_map _infer (Dict.get k items).
Proof.
  induction items as [|[k' v] items IH]; simpl; [reflexivity|].
  now destruct (String.eqb k k').
Qed.

Lemma infer_items_keys items :
  Dict.keys (infer_items items) = Dict.keys items.
Proof.
  unfold Dict.keys. rewrite infer_items_map, map_map. reflexivity.
Qed.

Lemma required_keys_In k items :
  NoDup (Dict.keys items) ->
  In k (required_keys items)
  <-> exists v, Dict.get k items = Some v /\ is_filled v = true.
Proof.
  intros Hnd. unfold required_keys. rewrite sorted_In, in_map_iff. split.
  - intros ([k' v] & <- & Hin). apply filter_In in Hin as [Hin Hf].
    exists v. split; [now apply dict_In_get|exact Hf].
  - intros (v & Hget & Hf). exists (k, v). split; [reflexivity|].
    apply filter_In. split; [now apply dict_get_In|exact Hf].
Qed.

Lemma required_keys_NoDup items :
  NoDup (Dict.keys items) -> NoDup (required_keys items).
Proof.
  intros Hnd. apply sorted_NoDup.
  induction items as [|[k v] items IH]; simpl; [constructor|].
  inversion Hnd as [|? ? Hnin Hnd']; subst.
  destruct (is_filled v); simpl; [|auto].
  constructor; [|auto].
  intros Hin. apply Hnin. apply in_map_iff in Hin as (kv & E & Hin).
  apply filter_In in Hin as [Hin _]. apply in_map_iff. eauto.
Qed.

(** *** Every inferred schema is well formed *)

Lemma schema_ok_empty : schema_ok (JObj []).
Proof. schema_fields. Qed.

Lemma schema_ok_type s t :
  schema_ok s -> schema_type s = Some t -> In t TYPE_NAMES.
Proof.
  intros [d Ht _ _ _]. unfold schema_type.
  destruct (Dict.get "type" d) as [v|]; [|discriminate].
  destruct (Ht v eq_refl) as (t' & -> & Hin).
  destruct (String.eqb t' EmptyString); [discriminate|]. now intros [= <-].
Qed.

Lemma schema_ok_items s : schema_ok s -> schema_ok (schema_items s).
Proof.
  intros [d _ _ _ Hi]. unfold schema_items.
  destruct (Dict.get "items" d) as [v|]; [now apply Hi|apply schema_ok_empty].
Qed.

Lemma schema_ok_properties s k (p : json) :
  schema_ok s -> In (k, p) (schema_properties s) -> schema_ok p.
Proof.
  intros [d _ Hp _ _]. unfold schema_properties.
  destruct (Dict.get "properties" d) as [v|]; [|intros []].
  destruct (Hp v eq_refl) as (props & -> & Hall). apply Hall.
Qed.

Lemma schema_ok_required s k :
  schema_ok s -> In k (schema_required s) ->
  Dict.mem k (schema_properties s) = true.
Proof.
  intros [d _ _ Hr _]. unfold schema_required.
  destruct (Dict.get "required" d) as [v|]; [|intros []].
  destruct (Hr v eq_refl) as (names & -> & _ & _ & _ & Hin).
  rewrite key_names_strings. apply Hin.
Qed.

Lemma add_props_get k items : forall all_props,
  Dict.get k (add_props all_props items)
  = match Dict.get k all_props with
    | Some v => Some v
    | None => Dict.get k items
    end.
Proof.
  induction items as [|[k0 v0] items IH]; intros all_props; simpl.
  - now destruct (Dict.get k all_props).
  - rewrite IH. unfold Dict.mem.
    destruct (String.eqb k k0) eqn:E.
    + apply String.eqb_eq in E. subst k0.
      destruct (Dict.get k all_props) eqn:G; [now rewrite G|].
      now rewrite dict_get_set_same.
    + apply String.eqb_neq in E.
      destruct (Dict.get k0 all_props); [reflexivity|].
      rewrite dict_get_set_other by congruence. reflexivity.
Qed.

Lemma dict_set_In k (v : json) d k' v' :
  In (k', v') (Dict.set k v d) -> In (k', v') d \/ (k', v') = (k, v).
Proof.
  induction d as [|[k0 v0] d IH]; simpl.
  - intros [H|[]]. now right.
  - destruct (String.eqb k k0) eqn:E; simpl.
    + apply String.eqb_eq in E. subst k0.
      intros [H|H]; [now right|now left; right].
    + intros [H|H]; [now left; left|].
      destruct (IH H); [left; now right|now right].
Qed.

Lemma add_props_In k (v : json) items : forall all_props,
  In (k, v) (add_props all_props items) ->
  In (k, v) all_props \/ In (k, v) items.
Proof.
  induction items as [|[k0 v0] items IH]; intros all_props; simpl; [auto|].
  intros H. apply IH in H as [H|H]; [|auto].
  destruct (Dict.mem k0 all_props); [auto|].
  apply dict_set_In in H as [H|H]; auto.
Qed.

Lemma merge_object_loop_eq schemas : forall all_props required_sets,
  merge_object_loop all_props required_sets schemas
  = (fold_left (fun acc s => add_props acc (schema_properties s))
       schemas all_props,
     required_sets ++ map (fun s => set_of (schema_required s)) schemas).
Proof.
  induction schemas as [|s rest IH]; intros all_props required_sets; simpl.
  - now rewrite app_nil_r.
  - now rewrite IH, <- app_assoc.
Qed.

Lemma merged_props_get k schemas : forall all_props,
  Dict.get k (fold_left (fun acc s => add_props acc (schema_properties s))
                schemas all_props)
  = match Dict.get k all_props with
    | Some v => Some v
    | None => first_get k (map schema_properties schemas)
    end.
Proof.
  induction schemas as [|s rest IH]; intros all_props; simpl.
  - now destruct (Dict.get k all_props).
  - rewrite IH, add_props_get. now destruct (Dict.get k all_props).
Qed.

Lemma merged_props_In k (v : json) schemas : forall all_props,
  In (k, v) (fold_left (fun acc s => add_props acc (schema_properties s))
               schemas all_props) ->
  In (k, v) all_props
  \/ exists s, In s schemas /\ In (k, v) (schema_properties s).
Proof.
  induction schemas as [|s rest IH]; intros all_props; simpl; [auto|].
  intros H. apply IH in H as [H|(s' & Hs' & H)]; [|eauto].
  apply add_props_In in H as [H|H]; eauto.
Qed.

Lemma intersection_In k first others :
  In k (intersection first others)
  <-> In k first /\ forall s, In s others -> In k s.
Proof.
  unfold intersection. rewrite filter_In, forallb_forall.
  split; intros [H1 H2]; (split; [exact H1|]); intros s Hs.
  - apply set_in_In. auto.
  - apply set_in_In. auto.
Qed.

Lemma intersection_NoDup first others :
  NoDup first -> NoDup (intersection first others).
Proof. apply NoDup_filter. Qed.

Lemma add_props_keys items : forall all_props,
  NoDup (Dict.keys all_props) ->
  NoDup (Dict.keys (add_props all_props items)).
Proof.
  induction items as [|[k v] items IH]; intros all_props Hnd; simpl; [auto|].
  apply IH. destruct (Dict.mem k all_props) eqn:E; [exact Hnd|].
  rewrite dict_keys_set, E.
  apply NoDup_app; [exact Hnd|repeat constructor; intros []|].
  intros x Hx [<-|[]]. unfold Dict.mem in E.
  destruct (Dict.get k all_props) eqn:G; [discriminate|].
  now apply dict_get_None in G.
Qed.

Lemma merged_props_keys schemas : forall all_props,
  NoDup (Dict.keys all_props) ->
  NoDup (Dict.keys
           (fold_left (fun acc s => add_props acc (schema_properties s))
              schemas all_props)).
Proof.
  induction schemas as [|s rest IH]; intros all_props Hnd; simpl; [auto|].
  apply IH, add_props_keys, Hnd.
Qed.

(** The merged object schema: the properties of the first schema that
    has the key, and the keys that every schema requires. *)
Lemma merge_object_schemas_shape s0 schemas :
  exists props,
    merge_object_schemas (s0 :: schemas)
    = object_schema props
        (sorted (intersection (set_of (schema_required s0))
                   (map (fun s => set_of (schema_required s)) schemas)))
    /\ NoDup (Dict.keys props)
    /\ forall k, Dict.get k props
                 = first_get k (map schema_properties (s0 :: schemas)).
Proof.
  unfold merge_object_schemas. rewrite merge_object_loop_eq.
  cbn [List.app map].
  set (props := fold_left _ (s0 :: schemas) []).
  set (common := intersection _ _).
  exists props. split; [|split].
  - unfold object_schema. destruct common as [|c common'] eqn:Ec;
      [reflexivity|].
    rewrite <- Ec. destruct (sorted common) eqn:Es; [|reflexivity].
    apply sorted_nil in Es. congruence.
  - apply merged_props_keys. constructor.
  - intros k. unfold props. now rewrite merged_props_get.
Qed.

Lemma type_name_object : In "object" TYPE_NAMES.
Proof. simpl. tauto. Qed.

Lemma type_name_array : In "array" TYPE_NAMES.
Proof. simpl. tauto. Qed.

Lemma merge_object_schemas_ok s0 schemas :
  Forall schema_ok (s0 :: schemas) ->
  schema_ok (merge_object_schemas (s0 :: schemas)).
Proof.
  intros Hall. rewrite Forall_forall in Hall.
  unfold merge_object_schemas. rewrite merge_object_loop_eq.
  cbn [List.app map].
  set (props := fold_left _ (s0 :: schemas) []).
  set (common := intersection _ _).
  assert (Hprops : forall k s, In (k, s) props -> schema_ok s).
  { intros k s H. apply merged_props_In in H as [[]|(s' & Hs' & H)].
    eapply schema_ok_properties; [apply Hall, Hs'|exact H]. }
  destruct common as [|c common'] eqn:Ec.
  - schema_fields.
    + eexists. split; [reflexivity|apply type_name_object].
    + eexists. split; [reflexivity|exact Hprops].
  - rewrite <- Ec. cbn [Dict.set String.eqb Ascii.eqb Bool.eqb].
    schema_fields.
    + eexists. split; [reflexivity|apply type_name_object].
    + eexists. split; [reflexivity|exact Hprops].
    + exists (sorted common). split; [reflexivity|].
      split; [intros H; apply sorted_nil in H; congruence|].
      split; [apply sorted_sorted|].
      split; [apply sorted_NoDup, intersection_NoDup, set_of_NoDup|].
      intros k Hk. apply (proj1 (sorted_In _ _)) in Hk. unfold common in Hk.
      apply intersection_In in Hk as [Hk _].
      apply (proj1 (set_of_In _ _)) in Hk.
      apply schema_ok_required in Hk; [|apply Hall; now left].
      unfold schema_properties.
      cbn [Dict.get String.eqb Ascii.eqb Bool.eqb].
      unfold Dict.mem in *. unfold props. rewrite merged_props_get.
      cbn [Dict.get map first_get].
      now destruct (Dict.get k (schema_properties s0)).
Qed.

Lemma one_of_ok types :
  schema_ok
    (JObj [("oneOf",
            JArr (map (fun t => JObj [("type", JStr t)]) (sorted types)))]).
Proof. schema_fields. Qed.

Lemma merge_type_names_ok types :
  (forall t, In t types -> In t TYPE_NAMES) ->
  schema_ok (merge_type_names types).
Proof.
  intros Hall. unfold merge_type_names.
  destruct (filter _ types) as [|t [|t' rest]] eqn:Ef;
    try apply one_of_ok.
  destruct (set_in "null" types); [|apply one_of_ok].
  schema_fields. exists t. split; [reflexivity|].
  apply Hall. eapply proj1. apply filter_In. rewrite Ef. now left.
Qed.

Lemma collect_types_ok schemas t :
  Forall schema_ok schemas ->
  In t (collect_types [] schemas) -> In t TYPE_NAMES.
Proof.
  intros Hall Hin. rewrite Forall_forall in Hall.
  apply collect_types_In in Hin as [[]|(s & Hs & Ht)].
  eapply schema_ok_type; [apply Hall, Hs|exact Ht].
Qed.

Lemma merge_schemas_ok schemas :
  Forall schema_ok schemas -> schema_ok (_merge_schemas schemas).
Proof.
  remember (schemas_depth schemas) as n eqn:En.
  revert schemas En.
  induction n as [n IH] using lt_wf_ind. intros schemas -> Hall.
  rewrite merge_schemas_eq.
  destruct schemas as [|s1 [|s2 rest]].
  - apply schema_ok_empty.
  - now inversion Hall.
  - assert (Hty : forall t, In t (collect_types [] (s1 :: s2 :: rest)) ->
                     In t TYPE_NAMES)
      by (intros t; now apply collect_types_ok).
    destruct (collect_types [] (s1 :: s2 :: rest)) as [|t [|t' types]] eqn:Et.
    + apply schema_ok_empty.
    + destruct (String.eqb t "object"); [now apply merge_object_schemas_ok|].
      destruct (String.eqb t "array").
      * schema_fields.
        -- eexists. split; [reflexivity|apply type_name_array].
        -- eapply IH; [|reflexivity|].
           ++ apply collect_types_depth in Et.
              destruct (schemas_depth (s1 :: s2 :: rest)) as [|m] eqn:Em;
                [lia|].
              apply Nat.lt_succ_r.
              apply (schemas_depth_items (s1 :: s2 :: rest)). lia.
           ++ change (Forall schema_ok
                        (map schema_items (s1 :: s2 :: rest))).
              apply Forall_map. eapply Forall_impl; [|exact Hall].
              intros s. apply schema_ok_items.
      * schema_fields. exists t. split; [reflexivity|]. apply Hty. now left.
    + apply merge_type_names_ok. exact Hty.
Qed.

Lemma In_firstn {A : Type} n (l : list A) x : In x (firstn n l) -> In x l.
Proof.
  intros H. rewrite <- (firstn_skipn n l). apply in_or_app. now left.
Qed.

Lemma infer_items_ok items :
  Forall (fun kv => wf_json (snd kv) = true -> schema_ok (_infer (snd kv)))
    items ->
  (forall k v, In (k, v) items -> wf_json v = true) ->
  forall k s, In (k, s) (infer_items items) -> schema_ok s.
Proof.
  intros IH Hwf k s Hin. rewrite infer_items_map in Hin.
  apply in_map_iff in Hin as ([k' v] & [= <- <-] & Hin).
  rewrite Forall_forall in IH. apply (IH _ Hin). simpl. eauto.
Qed.

(** X21.  Every schema that [_infer] returns for a document is well formed,
    at every depth: a ["type"] entry holds one of the seven type names,
    a ["properties"] entry a dict of well-formed schemas, an ["items"]
    entry a well-formed schema, and a ["required"] entry a non-empty
    list of key names, in sorted order without duplicates, each of them
    a key of the ["properties"] beside it. *)
Theorem infer_schema_well_formed (data : json) :
  wf_json data = true -> schema_ok (_infer data).
Proof.
  induction data as [| | | | |items IH|elems IH] using json_nested_ind;
    intros Hwf;
    try (schema_fields; eexists; split; [reflexivity|simpl; tauto]).
  - apply wf_json_object in Hwf as [Hnd Hwf].
    pose proof (infer_items_ok items IH Hwf) as Hprops.
    rewrite infer_object. unfold object_schema.
    destruct (required_keys items) as [|r required] eqn:Er.
    + cbn [List.app]. schema_fields.
      * eexists. split; [reflexivity|apply type_name_object].
      * eexists. split; [reflexivity|exact Hprops].
    + rewrite <- Er. cbn [List.app]. schema_fields.
      * eexists. split; [reflexivity|apply type_name_object].
      * eexists. split; [reflexivity|exact Hprops].
      * exists (required_keys items). split; [reflexivity|].
        split; [congruence|].
        split; [apply sorted_sorted|].
        split; [now apply required_keys_NoDup|].
        intros k Hk. apply required_keys_In in Hk as (v & Hv & _); [|exact Hnd].
        unfold schema_properties, Dict.mem.
        cbn [Dict.get String.eqb Ascii.eqb Bool.eqb].
        now rewrite infer_items_get, Hv.
  - rewrite infer_array.
    assert (Hsample : Forall schema_ok
                        (map _infer (firstn _SCHEMA_SAMPLE elems))).
    { apply Forall_map. simpl in Hwf. rewrite forallb_forall in Hwf.
      rewrite Forall_forall in *. intros x Hx.
      apply In_firstn in Hx. auto. }
    apply merge_schemas_ok in Hsample.
    set (m := _merge_schemas _) in *. schema_fields.
    + eexists. split; [reflexivity|apply type_name_array].
    + exact Hsample.
Qed.

Lemma infer_schema_well_formed_witness :
  schema_ok
    (_infer (JObj [("users", JArr [JObj [("name", JStr "a"); ("age", JNull)];
                                   JObj [("name", JStr "b"); ("age", JInt 3)]]);
                   ("tags", JArr [JStr "x"; JNull; JInt 1])])).
Proof.
  apply (infer_schema_well_formed
           (JObj [("users", JArr [JObj [("name", JStr "a"); ("age", JNull)];
                                  JObj [("name", JStr "b"); ("age", JInt 3)]]);
                  ("tags", JArr [JStr "x"; JNull; JInt 1])])).
  reflexivity.
Defined.

(** X22.  The schema of an object: an object schema with one property per
    key, in the order of the document, each with the schema of its
    value; it requires the keys whose value is not null, the empty
    string, the empty list or the empty dict, in sorted order, and has
    no ["required"] entry when there is no such key. *)
Theorem infer_object_fields (items : list (string * json)) :
  wf_json (JObj items) = true ->
  exists props required,
    _infer (JObj items) = object_schema props required
    /\ Dict.keys props = Dict.keys items
    /\ (forall k, Dict.get k props = option_map _infer (Dict.get k items))
    /\ (forall k,
          In k required
          <-> exists v, Dict.get k items = Some v /\ is_filled v = true)
    /\ StronglySorted str_le required
    /\ NoDup required.
Proof.
  intros Hwf. apply wf_json_object in Hwf as [Hnd _].
  exists (infer_items items), (required_keys items).
  split; [apply infer_object|].
  split; [apply infer_items_keys|].
  split; [intros k; apply infer_items_get|].
  split; [intros k; now apply required_keys_In|].
  split; [apply sorted_sorted|now apply required_keys_NoDup].
Qed.

Lemma infer_object_fields_witness :
  exists props required,
    _infer (JObj [("b", JInt 1); ("a", JArr []); ("A", JBool false)])
    = object_schema props required
    /\ Dict.keys props = ["b"; "a"; "A"]
    /\ (forall k,
          Dict.get k props
          = option_map _infer
              (Dict.get k [("b", JInt 1); ("a", JArr []); ("A", JBool false)]))
    /\ (forall k,
          In k required
          <-> exists v,
                Dict.get k [("b", JInt 1); ("a", JArr []); ("A", JBool false)]
                = Some v
                /\ is_filled v = true)
    /\ StronglySorted str_le required
    /\ NoDup required.
Proof.
  apply (infer_object_fields
           [("b", JInt 1); ("a", JArr []); ("A", JBool false)]).
  reflexivity.
Defined.

(** *** Arrays: the schema of the items *)

Lemma schema_items_infer_array elems :
  schema_items (_infer (JArr elems))
  = _merge_schemas (map _infer (firstn _SCHEMA_SAMPLE elems)).
Proof. now rewrite infer_array. Qed.

Lemma collect_types_infer l : forall acc,
  collect_types acc (map _infer l)
  = fold_left (fun s k => set_add k s) (map get_type_name l) acc.
Proof.
  induction l as [|x l IH]; intros acc; simpl; [reflexivity|].
  now rewrite schema_type_infer, IH.
Qed.

Lemma set_add_same t : set_add t [t] = [t].
Proof. unfold set_add, set_in. simpl. now rewrite String.eqb_refl. Qed.

Lemma collect_types_same_acc t schemas :
  (forall s, In s schemas -> schema_type s = Some t) ->
  collect_types [t] schemas = [t].
Proof.
  induction schemas as [|s rest IH]; intros H; simpl; [reflexivity|].
  rewrite (H s) by now left. rewrite set_add_same. apply IH.
  intros s' Hs'. apply H. now right.
Qed.

Lemma collect_types_same t schemas :
  schemas <> [] ->
  (forall s, In s schemas -> schema_type s = Some t) ->
  collect_types [] schemas = [t].
Proof.
  destruct schemas as [|s rest]; [congruence|]. intros _ H. simpl.
  rewrite (H s) by now left.
  change (set_add t []) with [t]. apply collect_types_same_acc.
  intros s' Hs'. apply H. now right.
Qed.

Lemma NoDup_all_same (t : string) l :
  NoDup l -> In t l -> (forall u, In u l -> u = t) -> l = [t].
Proof.
  intros Hnd Hin Hall. destruct l as [|a [|b l]].
  - destruct Hin.
  - rewrite (Hall a) by now left. reflexivity.
  - exfalso. inversion Hnd as [|? ? Hnin _]; subst. apply Hnin.
    rewrite (Hall a), (Hall b); simpl; auto.
Qed.

Lemma merge_type_names_nullable types t :
  NoDup types -> In "null" types -> In t types -> t <> "null" ->
  (forall u, In u types -> u = t \/ u = "null") ->
  merge_type_names types = JObj [("type", JStr t); ("nullable", JBool true)].
Proof.
  intros Hnd Hnull Ht Hne Hall. unfold merge_type_names.
  rewrite (NoDup_all_same t (filter _ types)).
  - apply set_in_In in Hnull. now rewrite Hnull.
  - now apply NoDup_filter.
  - apply filter_In. split; [exact Ht|].
    apply negb_true_iff, String.eqb_neq, Hne.
  - intros u Hu. apply filter_In in Hu as [Hu Hn].
    apply negb_true_iff, String.eqb_neq in Hn.
    destruct (Hall u Hu); congruence.
Qed.

Lemma merge_type_names_one_of types a b :
  In a types -> In b types -> a <> b -> a <> "null" -> b <> "null" ->
  merge_type_names types = one_of_schema (sorted types).
Proof.
  intros Ha Hb Hab Han Hbn. unfold merge_type_names.
  assert (Hf : forall u, In u types -> u <> "null" ->
                 In u (filter (fun t => negb (String.eqb t "null")) types)).
  { intros u Hu Hn. apply filter_In. split; [exact Hu|].
    apply negb_true_iff, String.eqb_neq, Hn. }
  pose proof (Hf a Ha Han) as Ha'. pose proof (Hf b Hb Hbn) as Hb'.
  destruct (filter _ types) as [|x [|y r]]; [destruct Ha'| |reflexivity].
  destruct Ha' as [<-|[]]. destruct Hb' as [<-|[]]. congruence.
Qed.

Lemma infer_primitive x :
  get_type_name x <> "object" -> get_type_name x <> "array" ->
  _infer x = JObj [("type", JStr (get_type_name x))].
Proof. destruct x; simpl; congruence. Qed.

Lemma type_name_null x : get_type_name x = "null" <-> x = JNull.
Proof. destruct x; simpl; split; congruence. Qed.

Lemma sample_types_In u sample :
  In u (collect_types [] (map _infer sample))
  <-> exists x, In x sample /\ get_type_name x = u.
Proof.
  rewrite collect_types_infer.
  change (fold_left _ _ []) with (set_of (map get_type_name sample)).
  rewrite set_of_In, in_map_iff. split; intros (x & H1 & H2); eauto.
Qed.

Lemma sample_types_NoDup sample :
  NoDup (collect_types [] (map _infer sample)).
Proof. apply collect_types_NoDup. constructor. Qed.

(** Two different type names in the sample: the last branch. *)
Lemma merge_schemas_several sample x y :
  In x sample -> In y sample -> get_type_name x <> get_type_name y ->
  _merge_schemas (map _infer sample)
  = merge_type_names (collect_types [] (map _infer sample)).
Proof.
  intros Hx Hy Hne. rewrite merge_schemas_eq.
  assert (Tx : In (get_type_name x) (collect_types [] (map _infer sample)))
    by (apply sample_types_In; eauto).
  assert (Ty : In (get_type_name y) (collect_types [] (map _infer sample)))
    by (apply sample_types_In; eauto).
  destruct sample as [|a [|b rest]].
  - destruct Hx.
  - destruct Hx as [<-|[]]. destruct Hy as [<-|[]]. congruence.
  - cbn [map].
    change (_infer a :: _infer b :: map _infer rest)
      with (map _infer (a :: b :: rest)).
    destruct (collect_types [] (map _infer (a :: b :: rest)))
      as [|u [|u' types]]; [destruct Tx| |reflexivity].
    destruct Tx as [E|[]]. destruct Ty as [E'|[]]. congruence.
Qed.

(** One type name in a sample of two or more. *)
Lemma merge_schemas_one_type schemas t :
  (2 <= List.length schemas)%nat ->
  (forall s, In s schemas -> schema_type s = Some t) ->
  _merge_schemas schemas
  = if String.eqb t "object" then merge_object_schemas schemas
    else if String.eqb t "array" then
      JObj [("type", JStr "array");
            ("items", _merge_schemas (map schema_items schemas))]
    else JObj [("type", JStr t)].
Proof.
  intros Hlen Hall. rewrite merge_schemas_eq.
  rewrite (collect_types_same t schemas);
    [|destruct schemas; [simpl in Hlen; lia|discriminate]|exact Hall].
  destruct schemas as [|s1 [|s2 rest]]; simpl in Hlen; try lia. reflexivity.
Qed.

Lemma first_get_infer k ds :
  first_get k (map infer_items ds) = option_map _infer (first_get k ds).
Proof.
  induction ds as [|d ds IH]; simpl; [reflexivity|].
  rewrite infer_items_get. now destruct (Dict.get k d).
Qed.

Lemma common_required_In k s0 schemas :
  In k (intersection (set_of (schema_required s0))
          (map (fun s => set_of (schema_required s)) schemas))
  <-> forall s, In s (s0 :: schemas) -> In k (schema_required s).
Proof.
  rewrite intersection_In, set_of_In. split.
  - intros [H0 H] s [<-|Hs]; [exact H0|].
    apply set_of_In, H, in_map_iff. eauto.
  - intros H. split; [apply H; now left|].
    intros S HS. apply in_map_iff in HS as (s & <- & Hs).
    apply set_of_In, H. now right.
Qed.

Lemma sample_objects_wf elems ds :
  wf_json (JArr elems) = true ->
  firstn _SCHEMA_SAMPLE elems = map JObj ds ->
  forall d, In d ds -> NoDup (Dict.keys d).
Proof.
  intros Hwf Hs d Hd. simpl in Hwf. rewrite forallb_forall in Hwf.
  apply (wf_json_object d), Hwf, (In_firstn _SCHEMA_SAMPLE).
  rewrite Hs. now apply in_map.
Qed.

(** X23.  The items of an array of objects: the item schema is an object
    schema; it lists every key of the sampled objects, with the schema
    of the value that the first object with this key holds; it requires
    the keys that every sampled object holds with a value other than
    null, the empty string, the empty list and the empty dict, in sorted
    order; and it has no ["required"] entry when there is no such
    key. *)
Theorem infer_array_of_objects
  (elems : list json) (ds : list (list (string * json))) :
  wf_json (JArr elems) = true ->
  firstn _SCHEMA_SAMPLE elems = map JObj ds ->
  ds <> [] ->
  exists props required,
    _infer (JArr elems)
    = JObj [("type", JStr "array"); ("items", object_schema props required)]
    /\ NoDup (Dict.keys props)
    /\ (forall k,
          Dict.get k props = option_map _infer (first_get k ds))
    /\ (forall k,
          In k required
          <-> forall d, In d ds ->
                exists v, Dict.get k d = Some v /\ is_filled v = true)
    /\ StronglySorted str_le required
    /\ NoDup required.
Proof.
  intros Hwf Hs Hne.
  pose proof (sample_objects_wf elems ds Hwf Hs) as Hnd.
  rewrite infer_array, Hs.
  destruct ds as [|d0 [|d1 rest]]; [congruence| |].
  - exists (infer_items d0), (required_keys d0).
    assert (Hd0 : NoDup (Dict.keys d0)) by (apply Hnd; now left).
    split; [|split; [|split; [|split; [|split]]]].
    + rewrite merge_schemas_eq. cbn [map]. now rewrite infer_object.
    + now rewrite infer_items_keys.
    + intros k. rewrite infer_items_get. simpl.
      now destruct (Dict.get k d0).
    + intros k. rewrite required_keys_In by exact Hd0. split.
      * intros H d [<-|[]]. exact H.
      * intros H. apply H. now left.
    + apply sorted_sorted.
    + now apply required_keys_NoDup.
  - set (ds := d0 :: d1 :: rest) in *.
    assert (Hm : _merge_schemas (map _infer (map JObj ds))
                 = merge_object_schemas (map _infer (map JObj ds))).
    { rewrite (merge_schemas_one_type _ "object"); [reflexivity| |].
      - unfold ds. simpl. lia.
      - intros s Hs'. apply in_map_iff in Hs' as (x & <- & Hx).
        apply in_map_iff in Hx as (d & <- & _). apply schema_type_infer. }
    rewrite Hm.
    change (map _infer (map JObj ds))
      with (_infer (JObj d0) :: map _infer (map JObj (d1 :: rest))).
    destruct (merge_object_schemas_shape (_infer (JObj d0))
                (map _infer (map JObj (d1 :: rest))))
      as (props & Eq & Hkeys & Hget).
    rewrite Eq.
    eexists props, _. split; [reflexivity|].
    split; [exact Hkeys|]. split; [|split; [|split]].
    + intros k. rewrite Hget, <- first_get_infer.
      change (_infer (JObj d0) :: map _infer (map JObj (d1 :: rest)))
        with (map _infer (map JObj ds)).
      rewrite !map_map. f_equal. apply map_ext.
      intros d. apply schema_properties_infer.
    + intros k. rewrite sorted_In, common_required_In.
      change (_infer (JObj d0) :: map _infer (map JObj (d1 :: rest)))
        with (map _infer (map JObj ds)).
      split.
      * intros H d Hd. apply required_keys_In; [now apply Hnd|].
        rewrite <- schema_required_infer. apply H.
        rewrite map_map. apply in_map_iff. eauto.
      * intros H s Hs'. rewrite map_map in Hs'.
        apply in_map_iff in Hs' as (d & <- & Hd).
        rewrite schema_required_infer.
        apply required_keys_In; [now apply Hnd|]. now apply H.
    + apply sorted_sorted.
    + apply sorted_NoDup, intersection_NoDup, set_of_NoDup.
Qed.

Lemma infer_array_of_objects_witness :
  exists props required,
    _infer (JArr [JObj [("id", JInt 1); ("tag", JNull)];
                  JObj [("name", JStr "n"); ("id", JStr "x")]])
    = JObj [("type", JStr "array"); ("items", object_schema props required)]
    /\ NoDup (Dict.keys props)
    /\ (forall k,
          Dict.get k props
          = option_map _infer
              (first_get k [[("id", JInt 1); ("tag", JNull)];
                            [("name", JStr "n"); ("id", JStr "x")]]))
    /\ (forall k,
          In k required
          <-> forall d,
                In d [[("id", JInt 1); ("tag", JNull)];
                      [("name", JStr "n"); ("id", JStr "x")]] ->
                exists v, Dict.get k d = Some v /\ is_filled v = true)
    /\ StronglySorted str_le required
    /\ NoDup required.
Proof.
  apply (infer_array_of_objects
           [JObj [("id", JInt 1); ("tag", JNull)];
            JObj [("name", JStr "n"); ("id", JStr "x")]]
           [[("id", JInt 1); ("tag", JNull)];
            [("name", JStr "n"); ("id", JStr "x")]]).
  - reflexivity.
  - reflexivity.
  - discriminate.
Defined.

Lemma items_one_primitive sample t :
  sample <> [] -> t <> "object" -> t <> "array" ->
  (forall x, In x sample -> get_type_name x = t) ->
  _merge_schemas (map _infer sample) = JObj [("type", JStr t)].
Proof.
  intros Hne Hobj Harr Hall.
  destruct sample as [|a [|b rest]]; [congruence| |].
  - rewrite merge_schemas_eq. cbn [map].
    rewrite <- (Hall a) by now left.
    apply infer_primitive; rewrite (Hall a); auto; now left.
  - rewrite (merge_schemas_one_type _ t).
    + apply String.eqb_neq in Hobj, Harr. now rewrite Hobj, Harr.
    + simpl. lia.
    + intros s Hs. apply in_map_iff in Hs as (x & <- & Hx).
      rewrite schema_type_infer. f_equal. auto.
Qed.

Lemma items_nullable sample t :
  t <> "null" -> In JNull sample ->
  (exists x, In x sample /\ get_type_name x = t) ->
  (forall x, In x sample -> get_type_name x = t \/ x = JNull) ->
  _merge_schemas (map _infer sample)
  = JObj [("type", JStr t); ("nullable", JBool true)].
Proof.
  intros Hne Hnull (x & Hx & Ht) Hall.
  rewrite (merge_schemas_several sample x JNull Hx Hnull)
    by (rewrite Ht; exact Hne).
  apply merge_type_names_nullable.
  - apply sample_types_NoDup.
  - apply sample_types_In. exists JNull. auto.
  - apply sample_types_In. eauto.
  - exact Hne.
  - intros u Hu. apply sample_types_In in Hu as (y & Hy & <-).
    destruct (Hall y Hy) as [H| ->]; auto.
Qed.

Lemma schema_type_named x rest :
  schema_type (JObj (("type", JStr (get_type_name x)) :: rest))
  = Some (get_type_name x).
Proof. now destruct x. Qed.

(** X24.  The items of an array, by the type names of its first twenty
    elements, the sample.  Later elements have no influence.  An empty
    array has the items [{}], an array of one element the schema of this
    element.  When the sampled elements share a type other than object
    and array, the items have this type alone.  When they are nulls and
    values of one other type, the items have that type and are
    nullable, whatever else the schemas of the values held.  When two
    types other than null occur, the items are a ["oneOf"] of the bare
    type names in sorted order. *)
Theorem infer_array_item_types (elems : list json) :
  let sample := firstn _SCHEMA_SAMPLE elems in
  let items := schema_items (_infer (JArr elems)) in
  _infer (JArr elems) = _infer (JArr sample)
  /\ _infer (JArr elems) = JObj [("type", JStr "array"); ("items", items)]
  /\ (sample = [] -> items = JObj [])
  /\ (forall x, sample = [x] -> items = _infer x)
  /\ (forall t,
        sample <> [] -> t <> "object" -> t <> "array" ->
        (forall x, In x sample -> get_type_name x = t) ->
        items = JObj [("type", JStr t)])
  /\ (forall t,
        t <> "null" -> In JNull sample ->
        (exists x, In x sample /\ get_type_name x = t) ->
        (forall x, In x sample -> get_type_name x = t \/ x = JNull) ->
        items = JObj [("type", JStr t); ("nullable", JBool true)])
  /\ (forall x y,
        In x sample -> In y sample ->
        get_type_name x <> get_type_name y -> x <> JNull -> y <> JNull ->
        items = one_of_schema (sorted (set_of (map get_type_name sample)))).
Proof.
  intros sample items. unfold items. rewrite schema_items_infer_array.
  fold sample. split; [|split; [|split; [|split; [|split; [|split]]]]].
  - rewrite !infer_array. unfold sample.
    now rewrite firstn_firstn, Nat.min_id.
  - now rewrite infer_array.
  - intros ->. now rewrite merge_schemas_eq.
  - intros x ->. now rewrite merge_schemas_eq.
  - intros t. apply items_one_primitive.
  - intros t. apply items_nullable.
  - intros x y Hx Hy Hne Hxn Hyn.
    rewrite (merge_schemas_several sample x y Hx Hy Hne).
    rewrite (merge_type_names_one_of _ (get_type_name x) (get_type_name y)).
    + now rewrite collect_types_infer.
    + apply sample_types_In. eauto.
    + apply sample_types_In. eauto.
    + exact Hne.
    + now rewrite type_name_null.
    + now rewrite type_name_null.
Qed.

Lemma row_items_type r t :
  t <> "null" -> t <> "object" -> t <> "array" ->
  (exists x, In x (firstn _SCHEMA_SAMPLE r) /\ get_type_name x = t) ->
  (forall x, In x (firstn _SCHEMA_SAMPLE r) ->
     get_type_name x = t \/ x = JNull) ->
  schema_type (schema_items (_infer (JArr r))) = Some t.
Proof.
  intros Hn Ho Ha Hex Hall. rewrite schema_items_infer_array.
  set (sample := firstn _SCHEMA_SAMPLE r) in *.
  destruct Hex as (x & Hx & <-).
  destruct (existsb is_none sample) eqn:E.
  - apply existsb_exists in E as (y & Hy & Hnone).
    assert (y = JNull) as -> by (destruct y; simpl in Hnone; congruence).
    rewrite (items_nullable sample (get_type_name x)); eauto.
    apply schema_type_named.
  - rewrite (items_one_primitive sample (get_type_name x)); auto.
    + apply schema_type_named.
    + intros ->. destruct Hx.
    + intros y Hy. destruct (Hall y Hy) as [H| ->]; [exact H|].
      exfalso. assert (existsb is_none sample = true); [|congruence].
      apply existsb_exists. exists JNull. auto.
Qed.

(** X25.  An array of two or more arrays that hold nulls and values of one
    primitive type is typed as an array of arrays of that type: the
    merge of the item schemas keeps the type name alone, so that the
    nulls do not show in the result, while one such array alone has
    nullable items. *)
Theorem infer_nested_arrays_lose_nullable
  (elems : list json) (rows : list (list json)) (t : string) :
  firstn _SCHEMA_SAMPLE elems = map JArr rows ->
  (2 <= List.length rows)%nat ->
  t <> "null" -> t <> "object" -> t <> "array" ->
  (forall r, In r rows ->
     exists x, In x (firstn _SCHEMA_SAMPLE r) /\ get_type_name x = t) ->
  (forall r x, In r rows -> In x (firstn _SCHEMA_SAMPLE r) ->
     get_type_name x = t \/ x = JNull) ->
  _infer (JArr elems)
  = JObj [("type", JStr "array");
          ("items", JObj [("type", JStr "array");
                          ("items", JObj [("type", JStr t)])])].
Proof.
  intros Hs Hlen Hn Ho Ha Hex Hall.
  rewrite infer_array, Hs.
  rewrite (merge_schemas_one_type _ "array").
  - cbn [String.eqb Ascii.eqb Bool.eqb].
    rewrite (merge_schemas_one_type _ t).
    + apply String.eqb_neq in Ho, Ha. now rewrite Ho, Ha.
    + now rewrite !length_map.
    + intros s Hin. rewrite !map_map in Hin.
      apply in_map_iff in Hin as (r & <- & Hr).
      apply row_items_type; auto. intros x. now apply Hall.
  - now rewrite !length_map.
  - intros s Hin. rewrite map_map in Hin.
    apply in_map_iff in Hin as (r & <- & _). apply schema_type_infer.
Qed.

Lemma infer_nested_arrays_lose_nullable_witness :
  _infer (JArr [JArr [JInt 1; JNull]; JArr [JNull; JInt 2]])
  = JObj [("type", JStr "array");
          ("items", JObj [("type", JStr "array");
                          ("items", JObj [("type", JStr "integer")])])].
Proof.
  apply (infer_nested_arrays_lose_nullable
           [JArr [JInt 1; JNull]; JArr [JNull; JInt 2]]
           [[JInt 1; JNull]; [JNull; JInt 2]] "integer").
  - reflexivity.
  - simpl. lia.
  - discriminate.
  - discriminate.
  - discriminate.
  - intros r [<-|[<-|[]]]; [exists (JInt 1)|exists (JInt 2)];
      simpl; auto.
  - intros r x [<-|[<-|[]]] [<-|[<-|[]]]; simpl; auto.
Defined.

(* ================================================================== *)
(** ** The view command *)

Lemma elem_index_rows_of_element p idx rows r :
  In r (rows_of_element p idx rows) ->
  elem_index p (row_path r) = Some idx.
Proof.
  unfold rows_of_element. intros H. apply filter_In in H as [_ H].
  destruct (elem_index p (row_path r)) as [i|]; [|discriminate].
  apply Z.eqb_eq in H. now subst.
Qed.

Lemma elem_index_header_rows p rows r :
  In r (header_rows_of p rows) -> elem_index p (row_path r) = None.
Proof.
  unfold header_rows_of. intros H. apply filter_In in H as [_ H].
  now destruct (elem_index p (row_path r)).
Qed.

Lemma filter_all {A : Type} (f : A -> bool) l :
  (forall x, In x l -> f x = true) -> filter f l = l.
Proof.
  induction l as [|a l IH]; intros H; simpl; [reflexivity|].
  rewrite (H a) by now left. f_equal. apply IH. intros x Hx. apply H.
  now right.
Qed.

Lemma filter_nothing {A : Type} (f : A -> bool) l :
  (forall x, In x l -> f x = false) -> filter f l = [].
Proof.
  induction l as [|a l IH]; intros H; simpl; [reflexivity|].
  rewrite (H a) by now left. apply IH. intros x Hx. apply H. now right.
Qed.

Lemma element_order_In p rows : forall seen idx,
  In idx (element_order p seen rows)
  <-> ~ In idx seen /\ exists r, In r rows /\ elem_index p (row_path r) = Some idx.
Proof.
  induction rows as [|r rows IH]; intros seen idx; simpl.
  - split; [intros []|intros (_ & r & [] & _)].
  - destruct (elem_index p (row_path r)) as [i|] eqn:E.
    + destruct (existsb (Z.eqb i) seen) eqn:Es.
      * rewrite IH. split; intros (Hn & r' & Hr' & He).
        -- split; [exact Hn|]. eauto.
        -- split; [exact Hn|]. destruct Hr' as [<-|Hr']; [|eauto].
           exfalso. apply Hn. apply existsb_exists in Es as (j & Hj & Ej).
           apply Z.eqb_eq in Ej. congruence.
      * simpl. rewrite IH. split.
        -- intros [<-|(Hn & r' & Hr' & He)].
           ++ split; [|eauto]. intros Hin.
              assert (existsb (Z.eqb i) seen = true); [|congruence].
              apply existsb_exists. exists i. split; [exact Hin|].
              apply Z.eqb_refl.
           ++ split; [|eauto]. intros Hin. apply Hn, in_or_app. now left.
        -- intros (Hn & r' & Hr' & He).
           destruct (Z.eq_dec i idx) as [->|Hne]; [now left|]. right.
           split.
           ++ intros Hin. apply in_app_or in Hin as [Hin|[Hin|[]]]; auto.
           ++ destruct Hr' as [<-|Hr']; [congruence|eauto].
    + rewrite IH. split; intros (Hn & r' & Hr' & He).
      * split; [exact Hn|]. eauto.
      * split; [exact Hn|]. destruct Hr' as [<-|Hr']; [congruence|eauto].
Qed.

Lemma element_order_NoDup p rows : forall seen,
  NoDup (element_order p seen rows).
Proof.
  induction rows as [|r rows IH]; intros seen; simpl; [constructor|].
  destruct (elem_index p (row_path r)) as [i|]; [|apply IH].
  destruct (existsb (Z.eqb i) seen); [apply IH|].
  constructor; [|apply IH]. intros Hin.
  apply element_order_In in Hin as [Hn _]. apply Hn, in_or_app.
  right. now left.
Qed.

Lemma rows_of_element_nonempty p rows idx :
  In idx (element_order p [] rows) -> rows_of_element p idx rows <> [].
Proof.
  intros H. apply element_order_In in H as (_ & r & Hr & He).
  intros E. assert (Hin : In r (rows_of_element p idx rows)).
  { unfold rows_of_element. apply filter_In. split; [exact Hr|].
    rewrite He. apply Z.eqb_refl. }
  rewrite E in Hin. destruct Hin.
Qed.

(** The rows of the elements [kept], grouped. *)
Lemma element_order_skip p : forall rs seen rest,
  (forall r, In r rs ->
     exists i, elem_index p (row_path r) = Some i /\ In i seen) ->
  element_order p seen (rs ++ rest) = element_order p seen rest.
Proof.
  induction rs as [|r rs IH]; intros seen rest H; simpl; [reflexivity|].
  destruct (H r) as (i & -> & Hi); [now left|].
  assert (Es : existsb (Z.eqb i) seen = true).
  { apply existsb_exists. exists i. split; [exact Hi|apply Z.eqb_refl]. }
  rewrite Es. apply IH. intros r' Hr'. apply H. now right.
Qed.

Lemma element_order_headers p : forall hs seen rest,
  (forall r, In r hs -> elem_index p (row_path r) = None) ->
  element_order p seen (hs ++ rest) = element_order p seen rest.
Proof.
  induction hs as [|r hs IH]; intros seen rest H; simpl; [reflexivity|].
  rewrite (H r) by now left. apply IH. intros r' Hr'. apply H. now right.
Qed.

Lemma element_order_grouped p (R : Z -> list row) : forall kept seen,
  NoDup kept ->
  (forall idx, In idx kept -> ~ In idx seen) ->
  (forall idx, In idx kept -> R idx <> []) ->
  (forall idx r, In r (R idx) -> elem_index p (row_path r) = Some idx) ->
  element_order p seen (flat_map R kept) = kept.
Proof.
  induction kept as [|i kept IH]; intros seen Hnd Hseen Hne Hidx; simpl;
    [reflexivity|].
  inversion Hnd as [|? ? Hnin Hnd']; subst.
  destruct (R i) as [|r rs] eqn:ER; [exfalso; apply (Hne i); auto; now left|].
  simpl. rewrite (Hidx i r) by (rewrite ER; now left).
  assert (Es : existsb (Z.eqb i) seen = false).
  { destruct (existsb (Z.eqb i) seen) eqn:E; [|reflexivity].
    apply existsb_exists in E as (j & Hj & Ej). apply Z.eqb_eq in Ej.
    subst j. exfalso. apply (Hseen i); auto. now left. }
  rewrite Es. f_equal. rewrite element_order_skip.
  - apply IH; auto.
    + intros idx Hin Hs. apply in_app_or in Hs as [Hs|[<-|[]]].
      * apply (Hseen idx); auto. now right.
      * contradiction.
    + intros idx Hin. apply Hne. now right.
  - intros r' Hr'. exists i. split.
    + apply Hidx. rewrite ER. now right.
    + apply in_or_app. right. now left.
Qed.

Lemma rows_of_element_grouped p (R : Z -> list row) idx : forall kept,
  NoDup kept -> In idx kept ->
  (forall j r, In r (R j) -> elem_index p (row_path r) = Some j) ->
  rows_of_element p idx (flat_map R kept) = R idx.
Proof.
  unfold rows_of_element.
  induction kept as [|i kept IH]; intros Hnd Hin Hidx; [destruct Hin|].
  inversion Hnd as [|? ? Hnin Hnd']; subst. simpl. rewrite filter_app.
  destruct Hin as [->|Hin].
  - rewrite filter_all, filter_nothing; [apply app_nil_r| |].
    + intros r Hr. apply in_flat_map in Hr as (j & Hj & Hr).
      rewrite (Hidx j r Hr). apply Z.eqb_neq. congruence.
    + intros r Hr. rewrite (Hidx idx r Hr). apply Z.eqb_refl.
  - rewrite filter_nothing; [now apply IH|].
    intros r Hr. rewrite (Hidx i r Hr). apply Z.eqb_neq. congruence.
Qed.

(** Paging the elements of rows that are already paged. *)
Lemma regrouped_rows p rows kept :
  NoDup kept ->
  (forall idx, In idx kept -> In idx (element_order p [] rows)) ->
  let paged := header_rows_of p rows
               ++ flat_map (fun idx => rows_of_element p idx rows) kept in
  header_rows_of p paged = header_rows_of p rows
  /\ element_order p [] paged = kept
  /\ forall idx, In idx kept ->
       rows_of_element p idx paged = rows_of_element p idx rows.
Proof.
  intros Hnd Hsub paged. unfold paged.
  assert (HR : forall j r, In r (rows_of_element p j rows) ->
                 elem_index p (row_path r) = Some j)
    by (intros j r; apply elem_index_rows_of_element).
  assert (HH : forall r, In r (header_rows_of p rows) ->
                 elem_index p (row_path r) = None)
    by (intros r; apply elem_index_header_rows).
  split; [|split].
  - unfold header_rows_of at 1. rewrite filter_app.
    rewrite filter_all, filter_nothing; [apply app_nil_r| |].
    + intros r Hr. apply in_flat_map in Hr as (j & _ & Hr).
      now rewrite (HR j r Hr).
    + intros r Hr. now rewrite (HH r Hr).
  - rewrite element_order_headers by exact HH.
    apply element_order_grouped; auto.
    intros idx Hin. apply rows_of_element_nonempty. auto.
  - intros idx Hin. unfold rows_of_element at 1. rewrite filter_app.
    rewrite filter_nothing.
    + apply (rows_of_element_grouped p
               (fun idx => rows_of_element p idx rows)); auto.
    + intros r Hr. now rewrite (HH r Hr).
Qed.

Lemma flat_map_ext_in {A B : Type} (f g : A -> list B) l :
  (forall x, In x l -> f x = g x) -> flat_map f l = flat_map g l.
Proof.
  induction l as [|a l IH]; intros H; simpl; [reflexivity|].
  rewrite (H a) by now left. f_equal. apply IH. intros x Hx. apply H.
  now right.
Qed.

Lemma In_slice_from {A : Type} (l : list A) k x :
  In x (slice_from l k) -> In x l.
Proof.
  unfold slice_from. intros H.
  rewrite <- (firstn_skipn (slice_bound (List.length l) k) l).
  apply in_or_app. now right.
Qed.

Lemma In_slice_to {A : Type} (l : list A) k x :
  In x (slice_to l k) -> In x l.
Proof.
  unfold slice_to. intros H.
  rewrite <- (firstn_skipn (slice_bound (List.length l) k) l).
  apply in_or_app. now left.
Qed.

Lemma NoDup_slice_from {A : Type} (l : list A) k :
  NoDup l -> NoDup (slice_from l k).
Proof.
  unfold slice_from. intros H.
  rewrite <- (firstn_skipn (slice_bound (List.length l) k) l) in H.
  now apply NoDup_app_remove_l in H.
Qed.

Lemma view_elements_spec rows filter_path offset elem_offset elem_limit :
  view_elements rows filter_path offset elem_offset elem_limit
  = (paged_rows rows filter_path elem_offset elem_limit,
     element_footer rows filter_path elem_offset elem_limit,
     row_offset filter_path offset elem_offset).
Proof.
  unfold view_elements, paged_rows, element_footer, row_offset,
    element_window.
  destruct filter_path as [p|]; [|reflexivity].
  destruct (0 <? elem_offset)%Z eqn:Eo; cbn [orb].
  - destruct (elem_rows_eq rows p elem_offset) as [_ ->].
    set (order := element_order p [] rows).
    set (kept := slice_from order elem_offset).
    assert (Hnd : NoDup kept)
      by (apply NoDup_slice_from, element_order_NoDup).
    assert (Hsub : forall idx, In idx kept -> In idx order)
      by (intros idx; apply In_slice_from).
    destruct elem_limit as [l|]; [|reflexivity].
    destruct (regrouped_rows p rows kept Hnd Hsub) as (Hh & Ho & Hr).
    destruct (elem_rows_eq
                (header_rows_of p rows
                 ++ flat_map (fun idx => rows_of_element p idx rows) kept)
                p l) as [-> _].
    rewrite Hh, Ho. cbn [is_some].
    rewrite (flat_map_ext_in _ (fun idx => rows_of_element p idx rows)
               (slice_to kept l)); [reflexivity|].
    intros idx Hin. apply Hr. now apply In_slice_to in Hin.
  - destruct elem_limit as [l|]; [|reflexivity].
    destruct (elem_rows_eq rows p l) as [-> _]. reflexivity.
Qed.

(** X26.  The rows that [cmd_view] prints and the numbers of its footer, in
    terms of the rows before paging.  With a filter path, [-E] and [-L]
    select whole elements of the filtered array, in the order in which
    their indices first appear: [-E] drops the first elements when it
    is positive, then [-L] keeps the first of what is left; the rows
    that belong to no element come first.  Without a filter path [-L]
    selects nothing and a positive [-E] is used as the row offset in
    place of [-O].  [-O] and [-n] then cut the rows by Python's slice
    rules.  The footer counts the rows after element paging as the
    total, and the distinct elements before it. *)
Theorem cmd_view_rows (data : json) (schema : bool)
  (filter_path : option string) (limit : option Z)
  (offset elem_offset : Z) (elem_limit : option Z) :
  let source := view_source data schema filter_path in
  let paged := paged_rows source filter_path elem_offset elem_limit in
  let off := row_offset filter_path offset elem_offset in
  let shown :=
    match limit with
    | Some n => slice_to (slice_from paged off) n
    | None => slice_from paged off
    end in
  cmd_view data schema filter_path limit offset elem_offset elem_limit
  = (shown,
     if (0 <? off)%Z || is_some limit || (0 <? elem_offset)%Z
        || is_some elem_limit
     then Some {| shown_start := (off + 1)%Z;
                  shown_end := (off + Zlen shown)%Z;
                  total := List.length paged;
                  elem_footer :=
                    element_footer source filter_path elem_offset elem_limit |}
     else None).
Proof.
  intros source paged off shown. unfold cmd_view.
  change (match filter_path with
          | Some p =>
              filter_rows
                (if schema
                 then schema_rows (infer_nulls (flatten data "root" true))
                 else infer_nulls (flatten data "root" true)) p
          | None =>
              if schema
              then schema_rows (infer_nulls (flatten data "root" true))
              else infer_nulls (flatten data "root" true)
          end) with source.
  rewrite view_elements_spec. reflexivity.
Qed.

(* ================================================================== *)
(** ** The passes over the rows applied twice *)

Lemma match_index_tail_sig s : forall seen,
  match_index_tail seen s = None -> match_index_tail seen (sig s) = None.
Proof.
  induction s as [|c s IH]; intros seen; [reflexivity|].
  rewrite sig_unfold. simpl.
  destruct (is_digit c) eqn:Ed.
  - intros H. assert (Ec : Ascii.eqb c "[" = false).
    { destruct (Ascii.eqb c "[") eqn:E; [|reflexivity].
      apply Ascii.eqb_eq in E. subst c. discriminate. }
    rewrite Ec. simpl. rewrite Ed. now apply IH.
  - intros H.
    destruct (if Ascii.eqb c "[" then match_index_tail false s else None)
      as [rest|] eqn:M.
    + reflexivity.
    + simpl. rewrite Ed.
      now destruct (Ascii.eqb c "]" && seen).
Qed.

Lemma sig_idempotent_upto n : forall s,
  (String.length s <= n)%nat -> sig (sig s) = sig s.
Proof.
  induction n as [|n IH]; intros s Hlen.
  - destruct s; [reflexivity|simpl in Hlen; lia].
  - destruct s as [|c s]; [reflexivity|]. simpl in Hlen.
    rewrite sig_unfold.
    destruct (if Ascii.eqb c "[" then match_index_tail false s else None)
      as [rest|] eqn:M.
    + destruct (Ascii.eqb c "["); [|discriminate].
      apply match_index_tail_length in M.
      change ("[*]" ++ sig rest)%string
        with (String "[" (String "*" (String "]" (sig rest)))).
      rewrite sig_unfold. cbn [Ascii.eqb Bool.eqb match_index_tail is_digit].
      change (is_digit "*") with false. cbn iota.
      rewrite sig_unfold. cbn [Ascii.eqb Bool.eqb].
      rewrite sig_unfold. cbn [Ascii.eqb Bool.eqb].
      rewrite IH by lia. reflexivity.
    + rewrite sig_unfold.
      assert (M' : (if Ascii.eqb c "["
                    then match_index_tail false (sig s) else None) = None).
      { destruct (Ascii.eqb c "["); [|reflexivity].
        now apply match_index_tail_sig. }
      rewrite M', IH by lia. reflexivity.
Qed.

Lemma sig_sig s : sig (sig s) = sig s.
Proof. apply (sig_idempotent_upto (String.length s)). lia. Qed.

Lemma is_kept_hidden value :
  is_kept_value (if is_kept_value value then value else JNull) = true.
Proof. destruct (is_kept_value value) eqn:E; [exact E|reflexivity]. Qed.

Lemma reduce_row_twice r : reduce_row (reduce_row r) = reduce_row r.
Proof.
  destruct r as [[path type_name] value]. unfold reduce_row.
  now rewrite sig_sig, is_kept_hidden.
Qed.

Lemma first_occurrences_sub seen rows r :
  In r (first_occurrences seen rows) -> In r rows.
Proof.
  revert seen. induction rows as [|r0 rows IH]; intros seen; simpl; [auto|].
  destruct (seen_mem (row_path r0, row_type r0) seen).
  - intros H. right. eapply IH, H.
  - intros [H|H]; [now left|]. right. eapply IH, H.
Qed.

Lemma first_occurrences_twice rows : forall seen,
  first_occurrences seen (first_occurrences seen rows)
  = first_occurrences seen rows.
Proof.
  induction rows as [|r rows IH]; intros seen; simpl; [reflexivity|].
  destruct (seen_mem (row_path r, row_type r) seen) eqn:E; [apply IH|].
  simpl. rewrite E. f_equal. apply IH.
Qed.

Lemma schema_rows_twice rows : schema_rows (schema_rows rows) = schema_rows rows.
Proof.
  rewrite !schema_rows_first_occurrences. unfold schema_rows_spec.
  assert (E : map reduce_row (first_occurrences [] (map reduce_row rows))
              = first_occurrences [] (map reduce_row rows)).
  { rewrite <- (map_id (first_occurrences [] (map reduce_row rows))) at 2.
    apply map_ext_in. intros r Hr. apply first_occurrences_sub in Hr.
    apply in_map_iff in Hr as (r0 & <- & _). apply reduce_row_twice. }
  rewrite E. apply first_occurrences_twice.
Qed.

Lemma rewrite_null_twice known known' r :
  rewrite_null known' (rewrite_null known r) = rewrite_null known r.
Proof.
  destruct r as [[path type_name] value]. unfold rewrite_null.
  destruct (String.eqb type_name "null" && is_none value) eqn:E.
  - unfold marker_null, is_none. now rewrite andb_false_r.
  - now rewrite E.
Qed.

Lemma infer_nulls_twice rows : infer_nulls (infer_nulls rows) = infer_nulls rows.
Proof.
  unfold infer_nulls. rewrite map_map. apply map_ext.
  intros r. apply rewrite_null_twice.
Qed.

(** X27.  The three passes applied twice: the structural signature of a
    signature, the null inference of inferred rows and the schema
    reduction of reduced rows change nothing. *)
Theorem row_passes_idempotent (path : string) (rows : list row) :
  sig (sig path) = sig path
  /\ infer_nulls (infer_nulls rows) = infer_nulls rows
  /\ schema_rows (schema_rows rows) = schema_rows rows.
Proof.
  split; [apply sig_sig|]. split; [apply infer_nulls_twice|].
  apply schema_rows_twice.
Qed.

Lemma sig_plain_app k s :
  plain_key k = true -> sig (k ++ s) = (k ++ sig s)%string.
Proof.
  induction k as [|c k IH]; simpl; [reflexivity|].
  intros H. apply andb_true_iff in H as [Hc Hk].
  apply negb_true_iff, orb_false_iff in Hc as [_ Hc].
  rewrite sig_unfold, Hc. now rewrite IH.
Qed.

Lemma match_index_tail_digits d rest : forall seen,
  all_digits d = true -> (seen = true \/ d <> EmptyString) ->
  match_index_tail seen (d ++ String "]" rest) = Some rest.
Proof.
  induction d as [|c d IH]; intros seen Hd Hs; simpl.
  - destruct Hs as [->|Hs]; [reflexivity|congruence].
  - simpl in Hd. apply andb_true_iff in Hd as [Hc Hd]. rewrite Hc.
    apply IH; auto.
Qed.

Lemma sig_index i s :
  sig ("[" ++ str_of_nat i ++ "]" ++ s) = ("[*]" ++ sig s)%string.
Proof.
  change ("[" ++ str_of_nat i ++ "]" ++ s)%string
    with (String "[" (str_of_nat i ++ String "]" s)).
  rewrite sig_unfold. cbn [Ascii.eqb Bool.eqb].
  pose proof (str_of_nat_digits i) as Hd. unfold isdigit in Hd.
  destruct (str_of_nat i) as [|c d] eqn:E; [discriminate|].
  rewrite match_index_tail_digits; auto. right. discriminate.
Qed.

Lemma sig_suffix segments :
  Forall key_plain segments ->
  sig (path_suffix segments) = wild_suffix segments.
Proof.
  induction 1 as [|[k|i] rest Hk _ IH]; [reflexivity| |].
  - cbn [path_suffix wild_suffix].
    change ("." ++ k ++ path_suffix rest)%string
      with (String "." (k ++ path_suffix rest)).
    rewrite sig_unfold. cbn [Ascii.eqb Bool.eqb].
    now rewrite sig_plain_app, IH.
  - cbn [path_suffix wild_suffix]. now rewrite sig_index, IH.
Qed.

(** X28.  The structural signature of a composed path: when the keys have
    neither dots nor opening brackets, the signature of the path that
    [flatten] gives the node under [segments] is that path with every
    index replaced by the wildcard and every key kept. *)
Theorem sig_of_composed_path (segments : list segment) :
  Forall key_plain segments ->
  sig (path_of segments) = wild_path_of segments.
Proof.
  intros H. unfold path_of, wild_path_of.
  destruct segments as [|[k|i] rest].
  - reflexivity.
  - apply Forall_cons_iff in H as [Hk H]. cbn [path_from child_path].
    now rewrite path_from_suffix, sig_plain_app, sig_suffix.
  - apply Forall_cons_iff in H as [_ H]. cbn [path_from child_path].
    rewrite path_from_suffix. unfold bracketed.
    replace (("root" ++ "[" ++ str_of_nat (Z.to_nat i) ++ "]")
               ++ path_suffix rest)%string
      with ("root" ++ "[" ++ str_of_nat (Z.to_nat i) ++ "]"
              ++ path_suffix rest)%string
      by (now rewrite !string_app_assoc).
    rewrite (sig_plain_app "root") by reflexivity.
    now rewrite sig_index, sig_suffix.
Qed.

Lemma sig_of_composed_path_witness :
  sig (path_of [SKey "users"; SIdx 12; SKey "tags"; SIdx 0])
  = wild_path_of [SKey "users"; SIdx 12; SKey "tags"; SIdx 0].
Proof.
  apply (sig_of_composed_path [SKey "users"; SIdx 12; SKey "tags"; SIdx 0]).
  repeat constructor.
Defined.

(* ================================================================== *)
(** ** Paging the elements of an array of the document *)

Lemma strip_prefix_app a b : strip_prefix a (a ++ b) = Some b.
Proof.
  induction a as [|c a IH]; simpl; [now destruct b|].
  now rewrite Ascii.eqb_refl.
Qed.

Lemma strip_prefix_longer a c b : strip_prefix (a ++ String c b) a = None.
Proof.
  induction a as [|x a IH]; simpl; [reflexivity|].
  now rewrite Ascii.eqb_refl.
Qed.

Lemma index_group_digits d rest :
  all_digits d = true ->
  index_group (d ++ String "]" rest) = Some d.
Proof.
  induction d as [|c d IH]; simpl; [reflexivity|].
  intros H. apply andb_true_iff in H as [Hc Hd].
  now rewrite Hc, IH.
Qed.

Lemma elem_index_own p : elem_index p p = None.
Proof. unfold elem_index. now rewrite strip_prefix_longer. Qed.

Lemma elem_index_element p i e0 :
  elem_index p (bracketed p i ++ e0) = Some (Z.of_nat i).
Proof.
  unfold elem_index, bracketed.
  replace ((p ++ "[" ++ str_of_nat i ++ "]") ++ e0)%string
    with ((p ++ "[") ++ (str_of_nat i ++ String "]" e0))%string
    by (rewrite !string_app_assoc; reflexivity).
  rewrite strip_prefix_app.
  pose proof (str_of_nat_digits i) as Hd. unfold isdigit in Hd.
  destruct (str_of_nat i) as [|c d] eqn:E; [discriminate|].
  rewrite index_group_digits by exact Hd.
  now rewrite <- E, int_of_digits_str_of_nat.
Qed.

Lemma row_path_rewrite_null known r :
  row_path (rewrite_null known r) = row_path r.
Proof.
  destruct r as [[path type_name] value]. unfold rewrite_null.
  now destruct (String.eqb type_name "null" && is_none value).
Qed.

Lemma filter_rows_map (g : row -> row) rows prefix :
  (forall r, row_path (g r) = row_path r) ->
  filter_rows (map g rows) prefix = map g (filter_rows rows prefix).
Proof.
  intros Hg. unfold filter_rows.
  induction rows as [|r rows IH]; simpl; [reflexivity|].
  rewrite Hg. destruct (filter_match prefix (row_path r)); simpl;
    now rewrite IH.
Qed.

Lemma filter_rows_nested rows prefix q :
  extends prefix q ->
  filter_rows (filter_rows rows prefix) q = filter_rows rows q.
Proof.
  intros Hq. unfold filter_rows.
  induction rows as [|r rows IH]; simpl; [reflexivity|].
  destruct (filter_match prefix (row_path r)) eqn:Ep; simpl.
  - now rewrite IH.
  - rewrite IH. destruct (filter_match q (row_path r)) eqn:Eq;
      [|reflexivity].
    exfalso. apply filter_match_extends in Eq.
    assert (filter_match prefix (row_path r) = true); [|congruence].
    apply filter_match_extends.
    destruct Hq as (e1 & He1 & ->). eapply extends_trans; eassumption.
Qed.

Lemma flatten_elems_seq path elems : forall i0,
  flatten_elems path i0 elems
  = flat_map (fun i => flatten (nth (i - i0) elems JNull)
                         (bracketed path i) false)
      (seq i0 (List.length elems)).
Proof.
  induction elems as [|v elems IH]; intros i0; simpl; [reflexivity|].
  rewrite Nat.sub_diag. f_equal. rewrite IH.
  apply flat_map_ext_in. intros i Hi. apply in_seq in Hi.
  replace (i - i0)%nat with (S (i - S i0)) by lia. reflexivity.
Qed.

Lemma flatten_nonempty v path root_level : flatten v path root_level <> [].
Proof. destruct v; discriminate. Qed.

Lemma bracketed_extension path i : 
  exists e, is_extension e = true /\ bracketed path i = (path ++ e)%string.
Proof.
  exists ("[" ++ str_of_nat i ++ "]")%string. split; reflexivity.
Qed.

(** The rows of one element of the array at [p], in the flat view. *)
Lemma filter_rows_element known elems p i :
  (i < List.length elems)%nat ->
  filter_rows (map (rewrite_null known) (flatten (JArr elems) p false))
    (bracketed p i)
  = map (rewrite_null known) (flatten (nth i elems JNull) (bracketed p i) false).
Proof.
  intros Hi. rewrite filter_rows_map by apply row_path_rewrite_null.
  f_equal. rewrite flatten_array, filter_rows_header.
  - pose proof (filter_elems_select p 0 elems i EmptyString Hi eq_refl) as H.
    rewrite string_app_nil_r in H. simpl in H. rewrite H.
    apply filter_rows_all. intros r. apply flatten_rows_extend.
  - simpl. pose proof (child_path_longer p (SIdx (Z.of_nat i)) EmptyString
                         eq_refl) as H.
    rewrite string_app_nil_r in H. simpl in H. now rewrite Nat2Z.id in H.
Qed.

Lemma map_flat_map {A B C : Type} (g : B -> C) (f : A -> list B) l :
  map g (flat_map f l) = flat_map (fun x => map g (f x)) l.
Proof.
  induction l as [|a l IH]; simpl; [reflexivity|].
  now rewrite map_app, IH.
Qed.

Lemma flat_map_map {A B C : Type} (f : B -> list C) (h : A -> B) l :
  flat_map f (map h l) = flat_map (fun x => f (h x)) l.
Proof.
  induction l as [|a l IH]; simpl; [reflexivity|]. now rewrite IH.
Qed.

Lemma rewrite_null_array known p m :
  rewrite_null known (p, "array", m) = (p, "array", m).
Proof. reflexivity. Qed.

Lemma In_element_window order e l z :
  In z (element_window order e l) -> In z order.
Proof.
  unfold element_window. intros H.
  assert (H' : In z (if (0 <? e)%Z then slice_from order e else order)).
  { destruct l; [eapply In_slice_to|]; exact H. }
  destruct (0 <? e)%Z; [eapply In_slice_from|]; exact H'.
Qed.

Lemma element_window_all order e :
  (0 <? e)%Z || is_some (@None Z) = false ->
  element_window order e None = order.
Proof.
  unfold element_window. rewrite orb_false_r. now intros ->.
Qed.

(** The flat view of an array at [p], in groups: the row of the array,
    then the rows of its elements, element by element. *)
Lemma array_rows_grouped known elems p :
  let g := rewrite_null known in
  let source := map g (flatten (JArr elems) p false) in
  let G := fun z : Z =>
             map g (flatten (nth (Z.to_nat z) elems JNull)
                      (bracketed p (Z.to_nat z)) false) in
  let kept := map Z.of_nat (seq 0 (List.length elems)) in
  source = (p, "array", row_marker (JArr elems)) :: flat_map G kept
  /\ header_rows_of p source = [(p, "array", row_marker (JArr elems))]
  /\ element_order p [] source = kept
  /\ forall z, In z kept -> rows_of_element p z source = G z.
Proof.
  intros g source G kept.
  assert (HG : forall z r, In r (G z) -> In z kept ->
                 elem_index p (row_path r) = Some z).
  { intros z r Hr Hz. unfold G in Hr. apply in_map_iff in Hr as (r0 & <- & Hr).
    unfold g. rewrite row_path_rewrite_null.
    apply flatten_rows_extend in Hr as (e0 & _ & ->).
    rewrite elem_index_element. f_equal.
    apply in_map_iff in Hz as (i & <- & _). now rewrite Nat2Z.id. }
  assert (Hsrc : source
                 = (p, "array", row_marker (JArr elems)) :: flat_map G kept).
  { unfold source. rewrite flatten_array. cbn [map]. f_equal.
    rewrite flatten_elems_seq, map_flat_map. unfold kept.
    rewrite flat_map_map. apply flat_map_ext_in. intros i _.
    unfold G. now rewrite Nat2Z.id, Nat.sub_0_r. }
  assert (Hnd : NoDup kept).
  { unfold kept. apply Finite.Injective_map_NoDup; [|apply seq_NoDup].
    intros a b. apply Nat2Z.inj. }
  assert (Hhdr : elem_index p (row_path (p, "array", row_marker (JArr elems)))
                 = None) by apply elem_index_own.
  split; [exact Hsrc|]. rewrite Hsrc. split; [|split].
  - unfold header_rows_of. cbn [filter]. rewrite Hhdr. f_equal.
    apply filter_nothing. intros r Hr.
    apply in_flat_map in Hr as (z & Hz & Hr). now rewrite (HG z r Hr Hz).
  - cbn [element_order]. rewrite Hhdr.
    assert (E : forall seen,
              (forall z, In z kept -> ~ In z seen) ->
              element_order p seen (flat_map G kept) = kept).
    { revert Hnd HG. generalize kept. clear.
      induction kept as [|i kept IH]; intros Hnd HG seen Hseen;
        [reflexivity|].
      inversion Hnd as [|? ? Hnin Hnd']; subst. cbn [flat_map].
      destruct (G i) as [|r rs] eqn:ER.
      - exfalso. unfold G in ER. apply map_eq_nil in ER.
        now apply flatten_nonempty in ER.
      - cbn [List.app element_order].
        rewrite (HG i r) by (try rewrite ER; now left).
        assert (Es : existsb (Z.eqb i) seen = false).
        { destruct (existsb (Z.eqb i) seen) eqn:E; [|reflexivity].
          apply existsb_exists in E as (j & Hj & Ej). apply Z.eqb_eq in Ej.
          subst j. exfalso. apply (Hseen i); auto. now left. }
        rewrite Es. f_equal. rewrite element_order_skip.
        + apply IH; auto.
          * intros z r' Hr' Hz. apply HG; auto. now right.
          * intros z Hz Hs. apply in_app_or in Hs as [Hs|[<-|[]]].
            -- apply (Hseen z); auto. now right.
            -- contradiction.
        + intros r' Hr'. exists i. split.
          * apply HG; [rewrite ER; now right|now left].
          * apply in_or_app. right. now left. }
    apply E. intros z _ [].
  - intros z Hz. unfold rows_of_element. cbn [filter]. rewrite Hhdr.
    revert Hnd HG Hz. generalize kept. clear.
    induction kept as [|i kept IH]; intros Hnd HG Hz; [destruct Hz|].
    inversion Hnd as [|? ? Hnin Hnd']; subst. cbn [flat_map].
    rewrite filter_app. destruct Hz as [->|Hz].
    + rewrite filter_all, filter_nothing; [apply app_nil_r| |].
      * intros r Hr. apply in_flat_map in Hr as (j & Hj & Hr).
        rewrite (HG j r Hr) by now right. apply Z.eqb_neq. congruence.
      * intros r Hr. rewrite (HG z r Hr) by now left. apply Z.eqb_refl.
    + rewrite filter_nothing.
      * apply IH; auto. intros j r Hr Hj. apply HG; auto. now right.
      * intros r Hr. rewrite (HG i r Hr) by now left.
        apply Z.eqb_neq. congruence.
Qed.

Lemma slice_from_zero {A : Type} (l : list A) : slice_from l 0 = l.
Proof.
  unfold slice_from, slice_bound. change (0 <? 0)%Z with false. cbv iota.
  now rewrite Z.min_l by lia.
Qed.

Lemma cmd_view_filtered data q :
  fst (cmd_view data false (Some q) None 0 0 None)
  = filter_rows (infer_nulls (flatten data "root" true)) q.
Proof.
  unfold cmd_view. rewrite view_elements_spec. cbn [fst].
  apply slice_from_zero.
Qed.

Lemma cmd_view_paged data p elem_offset elem_limit :
  fst (cmd_view data false (Some p) None 0 elem_offset elem_limit)
  = paged_rows (filter_rows (infer_nulls (flatten data "root" true)) p)
      (Some p) elem_offset elem_limit.
Proof.
  unfold cmd_view. rewrite view_elements_spec. cbn [fst].
  apply slice_from_zero.
Qed.

(** X29.  Paging the elements of an array of the document.  For a well-formed
    document whose keys have neither dots nor opening brackets and
    whose root object has no key root, and a path of non-negative
    segments that resolves to an array, the view filtered at this path
    with [-E] and [-L] prints the row of the array and then, for the
    indices that the two options keep of 0, 1, ... in increasing order,
    what the view filtered at the element prints. *)
Theorem view_pages_array_elements
  (data : json) (segments : list segment) (parent : option json)
  (key : option segment) (elems : list json)
  (elem_offset : Z) (elem_limit : option Z) :
  wf_json data = true -> plain_keys data = true ->
  no_root_key data = true ->
  Forall index_nonneg segments -> segments <> [] ->
  navigate data segments = Ok (parent, key, JArr elems) ->
  let p := path_of segments in
  fst (cmd_view data false (Some p) None 0 elem_offset elem_limit)
  = (p, "array", row_marker (JArr elems))
    :: flat_map
         (fun i =>
            fst (cmd_view data false (Some (bracketed p (Z.to_nat i)))
                   None 0 0 None))
         (element_window (map Z.of_nat (seq 0 (List.length elems)))
            elem_offset elem_limit).
Proof.
  intros Hwf Hpl Hroot Hnn Hne Hnav p.
  set (known := record_known [] (flatten data "root" true)).
  assert (Hsrc : filter_rows (infer_nulls (flatten data "root" true)) p
                 = map (rewrite_null known) (flatten (JArr elems) p false)).
  { unfold infer_nulls. fold known.
    rewrite filter_rows_map by apply row_path_rewrite_null.
    unfold p.
    now rewrite (filter_rows_subtree data segments parent key (JArr elems)). }
  destruct (array_rows_grouped known elems p) as (Hall & Hh & Ho & Hr).
  set (kept := map Z.of_nat (seq 0 (List.length elems))) in *.
  assert (Helem : forall z, In z kept ->
            fst (cmd_view data false (Some (bracketed p (Z.to_nat z)))
                   None 0 0 None)
            = map (rewrite_null known)
                (flatten (nth (Z.to_nat z) elems JNull)
                   (bracketed p (Z.to_nat z)) false)).
  { intros z Hz. rewrite cmd_view_filtered.
    rewrite <- (filter_rows_nested _ p) by apply bracketed_extension.
    rewrite Hsrc. apply filter_rows_element.
    apply in_map_iff in Hz as (i & <- & Hi). apply in_seq in Hi.
    rewrite Nat2Z.id. lia. }
  rewrite cmd_view_paged, Hsrc. unfold paged_rows.
  destruct ((0 <? elem_offset)%Z || is_some elem_limit) eqn:Ec.
  - rewrite Hh, Ho. cbn [List.app]. f_equal.
    apply flat_map_ext_in. intros z Hz. apply In_element_window in Hz.
    now rewrite Hr, Helem.
  - rewrite Hall. f_equal.
    destruct elem_limit as [l|]; [now rewrite orb_true_r in Ec|].
    rewrite element_window_all by exact Ec.
    apply flat_map_ext_in. intros z Hz. now rewrite Helem.
Qed.

Lemma view_pages_array_elements_witness :
  fst (cmd_view
         (JObj [("users", JArr [JObj [("name", JStr "a")];
                                JObj [("name", JNull)];
                                JObj [("name", JStr "c")]])])
         false (Some "users") None 0 1 (Some 1%Z))
  = [("users", "array", JNull);
     ("users[1]", "object", JNull);
     ("users[1].name", "string", marker_null)].
Proof.
  apply (view_pages_array_elements
           (JObj [("users", JArr [JObj [("name", JStr "a")];
                                  JObj [("name", JNull)];
                                  JObj [("name", JStr "c")]])])
           [SKey "users"] (Some (JObj [("users", JArr [JObj [("name", JStr "a")];
                                  JObj [("name", JNull)];
                                  JObj [("name", JStr "c")]])]))
           (Some (SKey "users"))
           [JObj [("name", JStr "a")]; JObj [("name", JNull)];
            JObj [("name", JStr "c")]] 1 (Some 1%Z)).
  - reflexivity.
  - reflexivity.
  - reflexivity.
  - repeat constructor.
  - discriminate.
  - reflexivity.
Defined.

(* ================================================================== *)
(** ** The preview of a merge *)

Lemma navigate_root data : navigate data [] = Ok (None, None, data).
Proof. reflexivity. Qed.

Lemma preview_merge_node data segs patch :
  preview_merge data segs patch
  = r <- navigate data segs ;;
    match patch, snd r with
    | JObj p, JObj n =>
        Ok (PreviewKeys
              (filter (fun k => negb (Dict.mem k n)) (Dict.keys p))
              (filter (fun k => Dict.mem k n) (Dict.keys p)))
    | _, _ => Ok PreviewReplace
    end.
Proof.
  unfold preview_merge. destruct segs as [|s0 rest]; [reflexivity|].
  now destruct (navigate data (s0 :: rest)) as [[[pa ke] node]|e].
Qed.

(** X30.  The preview of a merge and the merge agree.  The preview fails
    where the path does not resolve, with the error of the merge.  When
    it announces keys to add and keys to update, the addressed node and
    the patch are objects, the two lists are the keys of the patch that
    the node lacks and that it has, and after the merge the path reads
    an object with the keys of the node followed by the announced new
    keys, where each new key holds the value of the patch and each
    updated key the deep merge of the old value with the value of the
    patch.  When it announces a replacement, the path reads the patch
    after the merge. *)
Theorem preview_merge_agrees
  (data : json) (segs : list segment) (patch : json) :
  wf_json patch = true ->
  (forall e,
     preview_merge data segs patch = Err e
     <-> apply_merge data segs patch = Err e)
  /\ (forall new_keys upd_keys,
        preview_merge data segs patch = Ok (PreviewKeys new_keys upd_keys) ->
        exists parent key n p data' parent' r,
          navigate data segs = Ok (parent, key, JObj n)
          /\ patch = JObj p
          /\ (forall k, In k new_keys
                        <-> In k (Dict.keys p) /\ Dict.get k n = None)
          /\ (forall k, In k upd_keys
                        <-> In k (Dict.keys p) /\ Dict.get k n <> None)
          /\ apply_merge data segs patch = Ok data'
          /\ navigate data' segs = Ok (parent', key, JObj r)
          /\ Dict.keys r = Dict.keys n ++ new_keys
          /\ (forall k, In k new_keys -> Dict.get k r = Dict.get k p)
          /\ (forall k old v,
                In k upd_keys -> Dict.get k n = Some old ->
                Dict.get k p = Some v ->
                Dict.get k r = Some (deep_merge old v)))
  /\ (preview_merge data segs patch = Ok PreviewReplace ->
      exists data' parent' key,
        apply_merge data segs patch = Ok data'
        /\ navigate data' segs = Ok (parent', key, patch)).
Proof.
  intros Hwf. rewrite preview_merge_node.
  destruct (apply_merge_reads data segs patch) as [Hok Herr].
  destruct (navigate data segs) as [[[parent key] node]|e0] eqn:Hnav.
  - destruct (Hok parent key node eq_refl) as (data' & parent' & Hm & Hread).
    cbn [bind snd]. split; [|split].
    + intros e. rewrite Hm. split; [|discriminate].
      destruct patch, node; discriminate.
    + intros new_keys upd_keys Hp.
      destruct patch as [| | | | |p|]; try discriminate.
      destruct node as [| | | | |n|]; try discriminate.
      injection Hp as <- <-.
      apply wf_json_object in Hwf as [Hnd _].
      exists parent, key, n, p, data', parent', (merge_loop n p).
      split; [reflexivity|]. split; [reflexivity|].
      assert (Hmem : forall k, Dict.mem k n = true <-> Dict.get k n <> None).
      { intros k. unfold Dict.mem. destruct (Dict.get k n); split;
          congruence. }
      split; [|split; [|split; [exact Hm|split; [|split; [|split]]]]].
      * intros k. rewrite filter_In, negb_true_iff.
        unfold Dict.mem. destruct (Dict.get k n); intuition congruence.
      * intros k. rewrite filter_In, Hmem. tauto.
      * now rewrite <- deep_merge_objects.
      * now apply merge_loop_keys.
      * intros k Hk. apply filter_In in Hk as [Hk Hn].
        apply negb_true_iff in Hn. unfold Dict.mem in Hn.
        rewrite merge_loop_get by exact Hnd.
        destruct (Dict.get k n); [discriminate|].
        destruct (Dict.get k p) eqn:G; [reflexivity|].
        apply dict_get_None in G. contradiction.
      * intros k old v _ Hold Hv.
        rewrite merge_loop_get by exact Hnd. now rewrite Hv, Hold.
    + intros Hp. exists data', parent', key. split; [exact Hm|].
      rewrite Hread. do 2 f_equal. apply deep_merge_replaces.
      destruct patch, node; try reflexivity. discriminate.
  - pose proof (Herr e0 eq_refl) as Hm. cbn [bind]. split; [|split].
    + intros e. rewrite Hm. split; intros [= ->]; reflexivity.
    + discriminate.
    + discriminate.
Qed.

Lemma preview_merge_agrees_witness :
  exists parent key n p data' parent' r,
    navigate (JObj [("cfg", JObj [("a", JInt 1); ("b", JInt 2)])])
      [SKey "cfg"] = Ok (parent, key, JObj n)
    /\ JObj [("b", JInt 5); ("c", JInt 6)] = JObj p
    /\ (forall k, In k ["c"] <-> In k (Dict.keys p) /\ Dict.get k n = None)
    /\ (forall k, In k ["b"] <-> In k (Dict.keys p) /\ Dict.get k n <> None)
    /\ apply_merge (JObj [("cfg", JObj [("a", JInt 1); ("b", JInt 2)])])
         [SKey "cfg"] (JObj [("b", JInt 5); ("c", JInt 6)]) = Ok data'
    /\ navigate data' [SKey "cfg"] = Ok (parent', key, JObj r)
    /\ Dict.keys r = Dict.keys n ++ ["c"]
    /\ (forall k, In k ["c"] -> Dict.get k r = Dict.get k p)
    /\ (forall k old v,
          In k ["b"] -> Dict.get k n = Some old ->
          Dict.get k p = Some v ->
          Dict.get k r = Some (deep_merge old v)).
Proof.
  apply (proj1 (proj2 (preview_merge_agrees
                         (JObj [("cfg", JObj [("a", JInt 1); ("b", JInt 2)])])
                         [SKey "cfg"] (JObj [("b", JInt 5); ("c", JInt 6)])
                         eq_refl)) ["c"] ["b"]).
  reflexivity.
Defined.

